(** * tpuproxy: the Base58 codec (pkg/base58) and the Sealevel parameter
    block (Params.Serialize / Params.Update).

    Shallow embedding of the Go sources.  Machine integers are [Z] with the
    wrap-around of their width written out ([u8], [u32], [u64]); Go arrays
    and slices are [list Z]; array indices that are loop counters or
    constants are [nat].  A Go run-time panic (index out of range) is the
    [Panic] outcome.  Go's [int] and [uint] are taken at 64 bits. *)

From Stdlib Require Import String Ascii ZArith List Bool Lia Arith.
Import ListNotations.
Local Open Scope Z_scope.

(** ** Machine arithmetic and arrays *)

Definition u8 (z : Z) : Z := z mod 2 ^ 8.
Definition u32 (z : Z) : Z := z mod 2 ^ 32.
Definition u64 (z : Z) : Z := z mod 2 ^ 64.

(** uint64 addition and multiplication. *)
Definition add64 (a b : Z) : Z := u64 (a + b).
Definition mul64 (a b : Z) : Z := u64 (a * b).

(** [a[i]] for an index that is inside the array. *)
Definition get (a : list Z) (i : nat) : Z := nth i a 0.

(** [a[i] = v]. *)
Fixpoint upd (a : list Z) (i : nat) (v : Z) : list Z :=
  match a, i with
  | [], _ => []
  | _ :: t, O => v :: t
  | h :: t, S i' => h :: upd t i' v
  end.

(** [t[i][j]] in a constant table. *)
Definition get2 (t : list (list Z)) (i j : nat) : Z := get (nth i t []) j.

(** A checked read [a[i]] with a run-time index: [None] is Go's
    index-out-of-range panic. *)
Definition index (a : list Z) (i : Z) : option Z :=
  if i <? 0 then None else nth_error a (Z.to_nat i).

Inductive outcome (A : Type) : Type :=
| Ret (a : A)
| Panic.
Arguments Ret {A} a.
Arguments Panic {A}.

(** [for i := lo; i < lo+n; i++ { s = body i s }] *)
Definition for_up {S : Type} (lo n : nat) (body : nat -> S -> S) (s : S) : S :=
  fold_left (fun s i => body i s) (seq lo n) s.

(** [for i := hi; i > 0; i-- { s = body i s }] *)
Definition for_down {S : Type} (hi : nat) (body : nat -> S -> S) (s : S) : S :=
  fold_left (fun s i => body i s) (rev (seq 1 hi)) s.

(** [binary.BigEndian.Uint32(b)] of encoding/binary: the first four bytes
    of [b], most significant first. *)
Definition BigEndian_Uint32 (b : list Z) : Z :=
  get b 0 * 2 ^ 24 + get b 1 * 2 ^ 16 + get b 2 * 2 ^ 8 + get b 3.

(** [binary.BigEndian.PutUint32(out[off:], v)]. *)
Definition BigEndian_PutUint32 (out : list Z) (off : nat) (v : Z) : list Z :=
  let out := upd out off (u8 (Z.shiftr v 24)) in
  let out := upd out (off + 1) (u8 (Z.shiftr v 16)) in
  let out := upd out (off + 2) (u8 (Z.shiftr v 8)) in
  upd out (off + 3) (u8 v).

(** The characters of a Go string constant, as bytes. *)
Definition bytes_of_string (s : string) : list Z :=
  map (fun c => Z.of_nat (nat_of_ascii c)) (list_ascii_of_string s).

Module Base58.

(** alphabet maps [0, 58) to the base58 character. *)
Definition alphabet : list Z :=
  bytes_of_string "123456789ABCDEFGHJKLMNPQRSTUVWXYZabcdefghijkmnopqrstuvwxyz".

Definition inter32sz : nat := 9.
Definition enc32sz : Z := 45.
Definition bin32sz : nat := 8.
Definition raw32sz : nat := inter32sz * 5.

Definition inter64sz : nat := 18.
Definition enc64sz : Z := 89.
Definition bin64sz : nat := 16.
Definition raw64sz : nat := inter64sz * 5.

Definition r1Div : Z := 656356768.

(** inverseLUT maps (character value - '1') to [0, 58). *)
Definition inverseLUT : list Z :=
  [ 0x00; 0x01; 0x02; 0x03; 0x04; 0x05; 0x06; 0x07;
    0x08; 0xFF; 0xFF; 0xFF; 0xFF; 0xFF; 0xFF; 0xFF;
    0x09; 0x0A; 0x0B; 0x0C; 0x0D; 0x0E; 0x0F; 0x10;
    0xFF; 0x11; 0x12; 0x13; 0x14; 0x15; 0xFF; 0x16;
    0x17; 0x18; 0x19; 0x1A; 0x1B; 0x1C; 0x1D; 0x1E;
    0x1F; 0x20; 0xFF; 0xFF; 0xFF; 0xFF; 0xFF; 0xFF;
    0x21; 0x22; 0x23; 0x24; 0x25; 0x26; 0x27; 0x28;
    0x29; 0x2A; 0x2B; 0xFF; 0x2C; 0x2D; 0x2E; 0x2F;
    0x30; 0x31; 0x32; 0x33; 0x34; 0x35; 0x36; 0x37;
    0x38; 0x39; 0xFF ].

Definition invalidChar : Z := 0xFF.
Definition inverseLUTOffset : Z := 49.                       (* '1' *)
Definition inverseLUTSentinel : Z := 1 + 122 - inverseLUTOffset.  (* 1 + 'z' - '1' *)

Definition encTable32 : list (list Z) :=
  [ [513735; 77223048; 437087610; 300156666; 605448490; 214625350; 141436834; 379377856];
    [0; 78508; 646269101; 118408823; 91512303; 209184527; 413102373; 153715680];
    [0; 0; 11997; 486083817; 3737691; 294005210; 247894721; 289024608];
    [0; 0; 0; 1833; 324463681; 385795061; 551597588; 21339008];
    [0; 0; 0; 0; 280; 127692781; 389432875; 357132832];
    [0; 0; 0; 0; 0; 42; 537767569; 410450016];
    [0; 0; 0; 0; 0; 0; 6; 356826688];
    [0; 0; 0; 0; 0; 0; 0; 1] ].

Definition decTable32 : list (list Z) :=
  [ [1277; 2650397687; 3801011509; 2074386530; 3248244966; 687255411; 2959155456; 0];
    [0; 8360; 1184754854; 3047609191; 3418394749; 132556120; 1199103528; 0];
    [0; 0; 54706; 2996985344; 1834629191; 3964963911; 485140318; 1073741824];
    [0; 0; 0; 357981; 1476998812; 3337178590; 1483338760; 4194304000];
    [0; 0; 0; 0; 2342503; 3052466824; 2595180627; 17825792];
    [0; 0; 0; 0; 0; 15328518; 1933902296; 4063920128];
    [0; 0; 0; 0; 0; 0; 100304420; 3355157504];
    [0; 0; 0; 0; 0; 0; 0; 656356768];
    [0; 0; 0; 0; 0; 0; 0; 1] ].

Definition encTable64 : list (list Z) :=
  [ [2631; 149457141; 577092685; 632289089; 81912456; 221591423; 502967496; 403284731; 377738089; 492128779; 746799; 366351977; 190199623; 38066284; 526403762; 650603058; 454901440];
    [0; 402; 68350375; 30641941; 266024478; 208884256; 571208415; 337765723; 215140626; 129419325; 480359048; 398051646; 635841659; 214020719; 136986618; 626219915; 49699360];
    [0; 0; 61; 295059608; 141201404; 517024870; 239296485; 527697587; 212906911; 453637228; 467589845; 144614682; 45134568; 184514320; 644355351; 104784612; 308625792];
    [0; 0; 0; 9; 256449755; 500124311; 479690581; 372802935; 413254725; 487877412; 520263169; 176791855; 78190744; 291820402; 74998585; 496097732; 59100544];
    [0; 0; 0; 0; 1; 285573662; 455976778; 379818553; 100001224; 448949512; 109507367; 117185012; 347328982; 522665809; 36908802; 577276849; 64504928];
    [0; 0; 0; 0; 0; 0; 143945778; 651677945; 281429047; 535878743; 264290972; 526964023; 199595821; 597442702; 499113091; 424550935; 458949280];
    [0; 0; 0; 0; 0; 0; 0; 21997789; 294590275; 148640294; 595017589; 210481832; 404203788; 574729546; 160126051; 430102516; 44963712];
    [0; 0; 0; 0; 0; 0; 0; 0; 3361701; 325788598; 30977630; 513969330; 194569730; 164019635; 136596846; 626087230; 503769920];
    [0; 0; 0; 0; 0; 0; 0; 0; 0; 513735; 77223048; 437087610; 300156666; 605448490; 214625350; 141436834; 379377856];
    [0; 0; 0; 0; 0; 0; 0; 0; 0; 0; 78508; 646269101; 118408823; 91512303; 209184527; 413102373; 153715680];
    [0; 0; 0; 0; 0; 0; 0; 0; 0; 0; 0; 11997; 486083817; 3737691; 294005210; 247894721; 289024608];
    [0; 0; 0; 0; 0; 0; 0; 0; 0; 0; 0; 0; 1833; 324463681; 385795061; 551597588; 21339008];
    [0; 0; 0; 0; 0; 0; 0; 0; 0; 0; 0; 0; 0; 280; 127692781; 389432875; 357132832];
    [0; 0; 0; 0; 0; 0; 0; 0; 0; 0; 0; 0; 0; 0; 42; 537767569; 410450016];
    [0; 0; 0; 0; 0; 0; 0; 0; 0; 0; 0; 0; 0; 0; 0; 6; 356826688];
    [0; 0; 0; 0; 0; 0; 0; 0; 0; 0; 0; 0; 0; 0; 0; 0; 1] ].

Definition decTable64 : list (list Z) :=
  [ [249448; 3719864065; 173911550; 4021557284; 3115810883; 2498525019; 1035889824; 627529458; 3840888383; 3728167192; 2901437456; 3863405776; 1540739182; 1570766848; 0; 0];
    [0; 1632305; 1882780341; 4128706713; 1023671068; 2618421812; 2005415586; 1062993857; 3577221846; 3960476767; 1695615427; 2597060712; 669472826; 104923136; 0; 0];
    [0; 0; 10681231; 1422956801; 2406345166; 4058671871; 2143913881; 4169135587; 2414104418; 2549553452; 997594232; 713340517; 2290070198; 1103833088; 0; 0];
    [0; 0; 0; 69894212; 1038812943; 1785020643; 1285619000; 2301468615; 3492037905; 314610629; 2761740102; 3410618104; 1699516363; 910779968; 0; 0];
    [0; 0; 0; 0; 457363084; 927569770; 3976106370; 1389513021; 2107865525; 3716679421; 1828091393; 2088408376; 439156799; 2579227194; 0; 0];
    [0; 0; 0; 0; 0; 2992822783; 383623235; 3862831115; 112778334; 339767049; 1447250220; 486575164; 3495303162; 2209946163; 268435456; 0];
    [0; 0; 0; 0; 0; 4; 2404108010; 2962826229; 3998086794; 1893006839; 2266258239; 1429430446; 307953032; 2361423716; 176160768; 0];
    [0; 0; 0; 0; 0; 0; 29; 3596590989; 3044036677; 1332209423; 1014420882; 868688145; 4264082837; 3688771808; 2485387264; 0];
    [0; 0; 0; 0; 0; 0; 0; 195; 1054003707; 3711696540; 582574436; 3549229270; 1088536814; 2338440092; 1468637184; 0];
    [0; 0; 0; 0; 0; 0; 0; 0; 1277; 2650397687; 3801011509; 2074386530; 3248244966; 687255411; 2959155456; 0];
    [0; 0; 0; 0; 0; 0; 0; 0; 0; 8360; 1184754854; 3047609191; 3418394749; 132556120; 1199103528; 0];
    [0; 0; 0; 0; 0; 0; 0; 0; 0; 0; 54706; 2996985344; 1834629191; 3964963911; 485140318; 1073741824];
    [0; 0; 0; 0; 0; 0; 0; 0; 0; 0; 0; 357981; 1476998812; 3337178590; 1483338760; 4194304000];
    [0; 0; 0; 0; 0; 0; 0; 0; 0; 0; 0; 0; 2342503; 3052466824; 2595180627; 17825792];
    [0; 0; 0; 0; 0; 0; 0; 0; 0; 0; 0; 0; 0; 15328518; 1933902296; 4063920128];
    [0; 0; 0; 0; 0; 0; 0; 0; 0; 0; 0; 0; 0; 0; 100304420; 3355157504];
    [0; 0; 0; 0; 0; 0; 0; 0; 0; 0; 0; 0; 0; 0; 0; 656356768];
    [0; 0; 0; 0; 0; 0; 0; 0; 0; 0; 0; 0; 0; 0; 0; 1] ].

(** *** Shared loop bodies *)

(** [for r = 0; r < n; r++ { if a[r] != 0 { break } }], started at [r]
    with [n] iterations left; the value is the final [r]. *)
Fixpoint count0 (n r : nat) (a : list Z) : nat :=
  match n with
  | O => r
  | S n' => if get a r =? 0 then count0 n' (S r) a else r
  end.

(** [for i := range limbs { limbs[i] = binary.BigEndian.Uint32(in[4*i:]) }] *)
Definition load_limbs (n : nat) (in_ : list Z) : list Z :=
  for_up 0 n (fun i limbs => upd limbs i (BigEndian_Uint32 (skipn (4 * i) in_)))
    (repeat 0 n).

(** [for i := lo; i < lo+n; i++ { for j := 0; j < ncols; j++ {
       intermediate[j+1] += uint64(limbs[i]) * uint64(table[i][j]) } }] *)
Definition enc_mac (table : list (list Z)) (lo n ncols : nat)
    (limbs intermediate : list Z) : list Z :=
  for_up lo n (fun i =>
    for_up 0 ncols (fun j intermediate =>
      upd intermediate (j + 1)
        (add64 (get intermediate (j + 1)) (mul64 (get limbs i) (get2 table i j)))))
    intermediate.

(** [intermediate[i-1] += intermediate[i] / r1Div; intermediate[i] %= r1Div] *)
Definition enc_reduce (i : nat) (intermediate : list Z) : list Z :=
  let intermediate :=
    upd intermediate (i - 1) (add64 (get intermediate (i - 1)) (get intermediate i / r1Div)) in
  upd intermediate i (get intermediate i mod r1Div).

(** The body of the loop that expands one intermediate entry into five
    base-58 digits. *)
Definition enc_raw_step (intermediate : list Z) (i : nat) (rawBase58 : list Z) : list Z :=
  let v := u32 (get intermediate i) in
  let rawBase58 := upd rawBase58 (5 * i + 4) (u8 ((v / 1) mod 58)) in
  let rawBase58 := upd rawBase58 (5 * i + 3) (u8 ((v / 58) mod 58)) in
  let rawBase58 := upd rawBase58 (5 * i + 2) (u8 ((v / 3364) mod 58)) in
  let rawBase58 := upd rawBase58 (5 * i + 1) (u8 ((v / 195112) mod 58)) in
  upd rawBase58 (5 * i + 0) (u8 (v / 11316496)).

(** [for i := uint(0); i < cnt; i++ { out[i] = alphabet[rawBase58[i+skip]] }].
    [slots] is [len(out) - i]: with no slot left, [out[i]] is out of range. *)
Fixpoint enc_copy (slots : nat) (i cnt skip : Z) (rawBase58 out : list Z)
    : outcome (list Z) :=
  if i <? cnt then
    match slots with
    | O => Panic
    | S slots' =>
        match index rawBase58 (add64 i skip) with
        | None => Panic
        | Some d =>
            match index alphabet d with
            | None => Panic
            | Some c => enc_copy slots' (i + 1) cnt skip rawBase58 (upd out (Z.to_nat i) c)
            end
        end
    end
  else Ret out.

(** *** Encode32 *)

(** The first part of Encode32, up to the raw base-58 digits. *)
Definition enc32_rawBase58 (in_ : list Z) : list Z :=
  (* Convert N to 32-bit limbs *)
  let limbs := load_limbs 8 in_ in
  (* Convert to the intermediate format *)
  let intermediate := repeat 0 inter32sz in
  let intermediate := enc_mac encTable32 0 8 8 limbs intermediate in
  (* Now we make sure each term is less than 58^5 *)
  let intermediate := for_down 8 enc_reduce intermediate in
  (* Convert intermediate form to base 58 *)
  for_up 0 inter32sz (enc_raw_step intermediate) (repeat 0 raw32sz).

Definition Encode32 (out in_ : list Z) : outcome (list Z * Z) :=
  (* Count leading zeros (needed for final output) *)
  let inLeading0s := Z.of_nat (count0 32 0 in_) in
  let rawBase58 := enc32_rawBase58 in_ in
  (* Finally, actually convert to the string *)
  let rawLeading0s := Z.of_nat (count0 (Z.to_nat enc32sz) 0 rawBase58) in
  let skip := u64 (rawLeading0s - inLeading0s) in
  match enc_copy 44 0 (u64 (enc32sz - skip)) skip rawBase58 out with
  | Panic => Panic
  | Ret out => Ret (out, u64 (enc32sz - skip))
  end.

(** *** Encode64 *)

(** The first part of Encode64, up to the raw base-58 digits. *)
Definition enc64_rawBase58 (in_ : list Z) : list Z :=
  let limbs := load_limbs 16 in_ in
  let intermediate := repeat 0 inter64sz in
  let intermediate := enc_mac encTable64 0 8 (inter64sz - 1) limbs intermediate in
  (* Mini-reduction *)
  let intermediate :=
    upd intermediate 15 (add64 (get intermediate 15) (get intermediate 16 / r1Div)) in
  let intermediate := upd intermediate 16 (get intermediate 16 mod r1Div) in
  (* Finish iterations *)
  let intermediate := enc_mac encTable64 8 (bin64sz - 8) (inter64sz - 1) limbs intermediate in
  let intermediate := for_down (inter64sz - 1) enc_reduce intermediate in
  for_up 0 inter64sz (enc_raw_step intermediate) (repeat 0 raw64sz).

Definition Encode64 (out in_ : list Z) : outcome (list Z * Z) :=
  let inLeading0s := Z.of_nat (count0 64 0 in_) in
  let rawBase58 := enc64_rawBase58 in_ in
  let rawLeading0s := Z.of_nat (count0 raw64sz 0 rawBase58) in
  let skip := u64 (rawLeading0s - inLeading0s) in
  match enc_copy 88 0 (u64 (Z.of_nat raw64sz - skip)) skip rawBase58 out with
  | Panic => Panic
  | Ret out => Ret (out, u64 (Z.of_nat raw64sz - skip))
  end.

(** *** Decoding *)

(** The validation loop:
    [for _, c := range encoded { idx := int(c) - int(inverseLUTOffset);
       if idx > int(inverseLUTSentinel) { idx = int(inverseLUTSentinel) };
       if inverseLUT[idx] == invalidChar { return false } }].
    [idx] is a signed [int]; [inverseLUT[idx]] is bounds-checked. *)
Fixpoint dec_validate (encoded : list Z) : outcome bool :=
  match encoded with
  | [] => Ret true
  | c :: rest =>
      let idx := c - inverseLUTOffset in
      let idx := if idx >? inverseLUTSentinel then inverseLUTSentinel else idx in
      match index inverseLUT idx with
      | None => Panic
      | Some v => if v =? invalidChar then Ret false else dec_validate rest
      end
  end.

(** [for j := 0; j < rawsz; j++ { if j >= int(prepend0) {
       rawBase58[j] = inverseLUT[encoded[j-int(prepend0)]-inverseLUTOffset] } }];
    the subtraction is on uint8. *)
Definition dec_raw (rawsz : nat) (encoded : list Z) : list Z :=
  let prepend0 := (rawsz - length encoded)%nat in
  for_up 0 rawsz (fun j rawBase58 =>
    if (prepend0 <=? j)%nat then
      upd rawBase58 j
        (get inverseLUT (Z.to_nat (u8 (get encoded (j - prepend0) - inverseLUTOffset))))
    else rawBase58)
    (repeat 0 rawsz).

(** [for i := 0; i < intersz; i++ { intermediate[i] = uint64(rawBase58[5*i+0])*11316496 + ... }] *)
Definition dec_inter (intersz : nat) (rawBase58 : list Z) : list Z :=
  for_up 0 intersz (fun i intermediate =>
    upd intermediate i
      (add64 (add64 (add64 (add64
         (mul64 (get rawBase58 (5 * i + 0)) 11316496)
         (mul64 (get rawBase58 (5 * i + 1)) 195112))
         (mul64 (get rawBase58 (5 * i + 2)) 3364))
         (mul64 (get rawBase58 (5 * i + 3)) 58))
         (get rawBase58 (5 * i + 4))))
    (repeat 0 intersz).

(** [for j := 0; j < binsz; j++ { var acc uint64;
       for i := 0; i < intersz; i++ { acc += uint64(intermediate[i]) * uint64(table[i][j]) };
       binary_[j] = acc }] *)
Definition dec_mac (table : list (list Z)) (binsz intersz : nat)
    (intermediate : list Z) : list Z :=
  for_up 0 binsz (fun j binary_ =>
    let acc := for_up 0 intersz (fun i acc =>
                 add64 acc (mul64 (get intermediate i) (get2 table i j))) 0 in
    upd binary_ j acc)
    (repeat 0 binsz).

(** [binary_[i-1] += binary_[i] >> 32; binary_[i] &= 0xFFFFFFFF] *)
Definition dec_reduce (i : nat) (binary_ : list Z) : list Z :=
  let binary_ := upd binary_ (i - 1) (add64 (get binary_ (i - 1)) (Z.shiftr (get binary_ i) 32)) in
  upd binary_ i (Z.land (get binary_ i) 0xFFFFFFFF).

(** [for i := 0; i < binsz; i++ { binary.BigEndian.PutUint32(out[4*i:], uint32(binary_[i])) }] *)
Definition dec_store (binsz : nat) (binary_ out : list Z) : list Z :=
  for_up 0 binsz (fun i out => BigEndian_PutUint32 out (4 * i) (u32 (get binary_ i))) out.

(** The leading-zero loop with [n] iterations left and counter
    [leadingZeroCnt]: [None] is [return false], [Some c] the counter at
    the loop exit. *)
Fixpoint dec_lead (n leadingZeroCnt : nat) (out encoded : list Z) : option nat :=
  match n with
  | O => Some leadingZeroCnt
  | S n' =>
      if negb (get out leadingZeroCnt =? 0) then Some leadingZeroCnt
      else if negb (get encoded leadingZeroCnt =? 49) then None
      else dec_lead n' (S leadingZeroCnt) out encoded
  end.

(** The part of Decode32/Decode64 after the output was written. *)
Definition dec_canonical (n : nat) (out encoded : list Z) : bool :=
  match dec_lead n 0 out encoded with
  | None => false
  | Some leadingZeroCnt =>
      if (leadingZeroCnt <? length encoded)%nat && (get encoded leadingZeroCnt =? 49)
      then false else true
  end.

(** The accumulators [binary_] of Decode32 after the carry loop. *)
Definition dec32_binary (encoded : list Z) : list Z :=
  let rawBase58 := dec_raw raw32sz encoded in
  let intermediate := dec_inter inter32sz rawBase58 in
  let binary_ := dec_mac decTable32 bin32sz inter32sz intermediate in
  (* Make sure each term is less than 2^32 *)
  for_down (bin32sz - 1) dec_reduce binary_.

(** The result of a decoder: the returned [ok] and the contents of [*out]. *)
Definition Decode32 (out encoded : list Z) : outcome (bool * list Z) :=
  (* Check length *)
  if (length encoded <? 32)%nat || (44 <? length encoded)%nat then Ret (false, out) else
  (* Validate string *)
  match dec_validate encoded with
  | Panic => Panic
  | Ret false => Ret (false, out)
  | Ret true =>
      let binary_ := dec32_binary encoded in
      if get binary_ 0 >? 0xFFFFFFFF then Ret (false, out) else
      (* Convert each term to big endian for the final output *)
      let out := dec_store bin32sz binary_ out in
      Ret (dec_canonical 32 out encoded, out)
  end.

(** The accumulators [binary_] of Decode64 after the carry loop. *)
Definition dec64_binary (encoded : list Z) : list Z :=
  let rawBase58 := dec_raw raw64sz encoded in
  let intermediate := dec_inter inter64sz rawBase58 in
  let binary_ := dec_mac decTable64 bin64sz inter64sz intermediate in
  for_down (bin64sz - 1) dec_reduce binary_.

Definition Decode64 (out encoded : list Z) : outcome (bool * list Z) :=
  if (length encoded <? 64)%nat || (88 <? length encoded)%nat then Ret (false, out) else
  match dec_validate encoded with
  | Panic => Panic
  | Ret false => Ret (false, out)
  | Ret true =>
      let binary_ := dec64_binary encoded in
      if get binary_ 0 >? 0xFFFFFFFF then Ret (false, out) else
      let out := dec_store bin64sz binary_ out in
      Ret (dec_canonical 64 out encoded, out)
  end.

(** [Encode]: the dispatch on the length; [out[:outLen]] is bounds-checked. *)
Definition Encode (buf : list Z) : outcome (list Z) :=
  if (length buf =? 32)%nat then
    match Encode32 (repeat 0 44) buf with
    | Panic => Panic
    | Ret (out, outLen) => if outLen <=? 44 then Ret (firstn (Z.to_nat outLen) out) else Panic
    end
  else if (length buf =? 64)%nat then
    match Encode64 (repeat 0 88) buf with
    | Panic => Panic
    | Ret (out, outLen) => if outLen <=? 88 then Ret (firstn (Z.to_nat outLen) out) else Panic
    end
  else Panic.

End Base58.

(** ** The Sealevel parameter block *)

Module Sealevel.

Record AccountParam : Type := mkAccountParam {
  IsDuplicate : bool;
  DuplicateIndex : Z;       (* uint8; must not be 0xFF *)
  IsSigner : bool;
  IsWritable : bool;
  IsExecutable : bool;
  Key : list Z;             (* [32]byte *)
  Owner : list Z;           (* [32]byte *)
  Lamports : Z;             (* uint64 *)
  Data : list Z;
  Padding : Z;              (* int; ignored, written by serializer *)
  RentEpoch : Z             (* uint64 *)
}.

(** [Params]; its [Data] field is [Params_Data] here, [Data] being the
    field of [AccountParam]. *)
Record Params : Type := mkParams {
  Accounts : list AccountParam;
  Params_Data : list Z;     (* per-instruction data *)
  ProgramID : list Z        (* [32]byte *)
}.

(** ReallocSpace is the allowed length by which an account is allowed to grow. *)
Definition ReallocSpace : Z := 1024 * 10.

(** ReallocAlign is the byte amount by which the data following a realloc is aligned. *)
Definition ReallocAlign : Z := 8.

Definition len {A : Type} (b : list A) : Z := Z.of_nat (length b).

(** Conversion of a uint64 to int64 or (64-bit) int. *)
Definition to_int64 (z : Z) : Z := (z + 2 ^ 63) mod 2 ^ 64 - 2 ^ 63.

(** *** encoding/binary, little endian *)

(** The eight bytes [binary.Write(buf, binary.LittleEndian, v)] appends for a
    uint64 [v]. *)
Definition LittleEndian_PutUint64 (v : Z) : list Z :=
  map (fun k => u8 (Z.shiftr v (8 * Z.of_nat k))) (seq 0 8).

(** [binary.LittleEndian.Uint64(b)]. *)
Definition LittleEndian_Uint64 (b : list Z) : Z :=
  fold_right (fun x acc => x + 2 ^ 8 * acc) 0 (firstn 8 b).

(** The byte [binary.Write] appends for a bool. *)
Definition byte_of_bool (b : bool) : Z := if b then 1 else 0.

(** *** bytes.Buffer, as the list of the bytes written so far *)

(** [buf.Grow(n)]: bytes.Buffer.Grow reserves capacity for [n] more bytes;
    the length and the contents of the buffer stay as they are. *)
Definition Buffer_Grow (buf : list Z) (n : Z) : list Z := buf.

(** [buf.Write(b)] and the [binary.Write] calls append. *)
Definition Buffer_Write (buf b : list Z) : list Z := buf ++ b.

(** The body of the loop of Serialize, for one account. *)
Definition Serialize_account (buf : list Z) (acc : AccountParam)
    : list Z * AccountParam :=
  if IsDuplicate acc then
    let buf := Buffer_Write buf [DuplicateIndex acc] in
    let buf := Buffer_Grow buf 7 in
    (buf, acc)
  else
    let buf := Buffer_Write buf [0xFF] in
    let buf := Buffer_Write buf [byte_of_bool (IsSigner acc)] in
    let buf := Buffer_Write buf [byte_of_bool (IsWritable acc)] in
    let buf := Buffer_Write buf [byte_of_bool (IsExecutable acc)] in
    let buf := Buffer_Grow buf 4 in
    let buf := Buffer_Write buf (Key acc) in
    let buf := Buffer_Write buf (Owner acc) in
    let buf := Buffer_Write buf (LittleEndian_PutUint64 (Lamports acc)) in
    let buf := Buffer_Write buf (LittleEndian_PutUint64 (u64 (len (Data acc)))) in
    let buf := Buffer_Write buf (Data acc) in
    let padding := ReallocSpace + 1 + Z.quot (len buf - 1) ReallocAlign in
    let acc := mkAccountParam (IsDuplicate acc) (DuplicateIndex acc) (IsSigner acc)
                 (IsWritable acc) (IsExecutable acc) (Key acc) (Owner acc)
                 (Lamports acc) (Data acc) padding (RentEpoch acc) in
    let buf := Buffer_Grow buf (Padding acc) in
    let buf := Buffer_Write buf (LittleEndian_PutUint64 (RentEpoch acc)) in
    (buf, acc).

(** [for i := range p.Accounts { ... }]: the buffer and the accounts
    (whose [Padding] the loop writes) after the loop. *)
Fixpoint Serialize_accounts (buf : list Z) (accs : list AccountParam)
    : list Z * list AccountParam :=
  match accs with
  | [] => (buf, [])
  | acc :: rest =>
      let '(buf, acc) := Serialize_account buf acc in
      let '(buf, rest) := Serialize_accounts buf rest in
      (buf, acc :: rest)
  end.

(** Serialize writes the params to the provided buffer: the params after
    the call and the contents of the buffer. *)
Definition Serialize (p : Params) : Params * list Z :=
  let buf := [] in                                             (* buf.Reset() *)
  let buf := Buffer_Write buf (LittleEndian_PutUint64 (u64 (len (Accounts p)))) in
  let '(buf, accs) := Serialize_accounts buf (Accounts p) in
  let buf := Buffer_Write buf (LittleEndian_PutUint64 (u64 (len (Params_Data p)))) in
  let buf := Buffer_Write buf (Params_Data p) in
  let buf := Buffer_Write buf (ProgramID p) in
  (mkParams accs (Params_Data p) (ProgramID p), buf).

(** *** bytes.Reader: the underlying bytes and the read position *)

Record Reader : Type := mkReader { rd_s : list Z; rd_i : Z }.

Definition NewReader (b : list Z) : Reader := mkReader b 0.

(** The unread bytes. *)
Definition rd_rest (r : Reader) : list Z := skipn (Z.to_nat (rd_i r)) (rd_s r).

(** [buf.ReadByte()]: [None] is the error io.EOF. *)
Definition ReadByte (r : Reader) : option Z * Reader :=
  if rd_i r >=? len (rd_s r) then (None, r)
  else (Some (get (rd_s r) (Z.to_nat (rd_i r))), mkReader (rd_s r) (rd_i r + 1)).

(** [buf.Read(b)]: copies what is there into the front of [b]; the flag is
    the error io.EOF, returned when nothing was left. *)
Definition Read (r : Reader) (b : list Z) : list Z * bool * Reader :=
  if rd_i r >=? len (rd_s r) then (b, true, r)
  else
    let got := firstn (length b) (rd_rest r) in
    (got ++ skipn (length got) b, false, mkReader (rd_s r) (rd_i r + len got)).

(** [buf.Seek(offset, io.SeekCurrent)]: a negative target is an error and
    leaves the position as it is; a target past the end is accepted. *)
Definition Seek (r : Reader) (offset : Z) : Reader :=
  let abs := rd_i r + offset in
  if abs <? 0 then r else mkReader (rd_s r) abs.

(** The [io.ReadFull] of [n] bytes inside [binary.Read]: [None] when fewer
    than [n] bytes are left, which consumes them. *)
Definition ReadFull (r : Reader) (n : nat) : option (list Z) * Reader :=
  if rd_i r >=? len (rd_s r) then (None, r)
  else if len (rd_s r) - rd_i r <? Z.of_nat n then (None, mkReader (rd_s r) (len (rd_s r)))
  else (Some (firstn n (rd_rest r)), mkReader (rd_s r) (rd_i r + Z.of_nat n)).

(** [binary.Read(buf, binary.LittleEndian, &b)] for a bool [b], the error
    dropped: [b] keeps its value when the read fails. *)
Definition binary_Read_bool (r : Reader) (b : bool) : bool * Reader :=
  match ReadFull r 1 with
  | (Some bs, r) => (negb (get bs 0 =? 0), r)
  | (None, r) => (b, r)
  end.

(** [binary.Read(buf, binary.LittleEndian, &v)] for a uint64 [v], the error
    dropped. *)
Definition binary_Read_uint64 (r : Reader) (v : Z) : Z * Reader :=
  match ReadFull r 8 with
  | (Some bs, r) => (LittleEndian_Uint64 bs, r)
  | (None, r) => (v, r)
  end.

(** [io.ReadAll(io.LimitReader(buf, n))], the error dropped: at most [n]
    of the unread bytes. *)
Definition ReadAll_Limit (r : Reader) (n : Z) : list Z * Reader :=
  if (n <=? 0) || (rd_i r >=? len (rd_s r)) then ([], r)
  else
    let got := firstn (Z.to_nat n) (rd_rest r) in
    (got, mkReader (rd_s r) (rd_i r + len got)).

(** *** Update *)

Inductive error : Type :=
| EOF                    (* io.EOF *)
| ErrAccountsChanged     (* "number of accounts changed" *)
| ErrOrderChanged        (* "account order changed" *)
| ErrShrink              (* "attempted to shrink account" *)
| ErrGrow.               (* "attempted to grow account too much" *)

(** The loop of Update from account [i] on, [accs] being [p.Accounts[i:]]:
    the accounts after the loop, the reader, and the error the loop returns
    with.  The loop is [for i := 0; true; i++] and its body has no [break]:
    every way out of it is a [return] of an error. *)
Fixpoint Update_loop (accs : list AccountParam) (buf : Reader)
    : list AccountParam * Reader * error :=
  match accs with
  | [] => ([], buf, ErrAccountsChanged)            (* i >= len(p.Accounts) *)
  | acc :: rest =>
      match ReadByte buf with
      | (None, buf) => (acc :: rest, buf, EOF)
      | (Some idx, buf) =>
          if (negb (IsDuplicate acc) && negb (idx =? 0xFF))
             || negb (DuplicateIndex acc =? idx)
          then (acc :: rest, buf, ErrOrderChanged)
          else if negb (idx =? 0xFF) then
            let '(rest, buf, e) := Update_loop rest buf in (acc :: rest, buf, e)
          else
            let '(isSigner, buf) := binary_Read_bool buf (IsSigner acc) in
            let '(isWritable, buf) := binary_Read_bool buf (IsWritable acc) in
            let '(isExecutable, buf) := binary_Read_bool buf (IsExecutable acc) in
            let buf := Seek buf 4 in
            let '(key, _, buf) := Read buf (Key acc) in
            let '(owner, _, buf) := Read buf (Owner acc) in
            let '(lamports, buf) := binary_Read_uint64 buf (Lamports acc) in
            let oldLen := u64 (len (Data acc)) in
            let '(newLen, buf) := binary_Read_uint64 buf 0 in
            let acc1 := mkAccountParam (IsDuplicate acc) (DuplicateIndex acc) isSigner
                          isWritable isExecutable key owner lamports (Data acc)
                          (Padding acc) (RentEpoch acc) in
            if newLen <? oldLen then (acc1 :: rest, buf, ErrShrink)
            else if newLen >? add64 oldLen ReallocSpace then (acc1 :: rest, buf, ErrGrow)
            else
              let '(data, buf) := ReadAll_Limit buf (to_int64 newLen) in
              let buf := Seek buf (to_int64 (Padding acc - to_int64 (u64 (newLen - oldLen)))) in
              let '(rentEpoch, buf) := binary_Read_uint64 buf (RentEpoch acc) in
              let acc2 := mkAccountParam (IsDuplicate acc) (DuplicateIndex acc) isSigner
                            isWritable isExecutable key owner lamports data
                            (Padding acc) rentEpoch in
              let '(rest, buf, e) := Update_loop rest buf in (acc2 :: rest, buf, e)
      end
  end.

(** The statements of Update after its loop:
    [buf.Seek(int64(len(p.Data)), io.SeekCurrent); _, err := buf.Read(p.ProgramID[:]); return err]. *)
Definition Update_tail (p : Params) (buf : Reader) : Params * Reader * option error :=
  let buf := Seek buf (len (Params_Data p)) in
  let '(programID, eof, buf) := Read buf (ProgramID p) in
  (mkParams (Accounts p) (Params_Data p) programID, buf, if eof then Some EOF else None).

(** Update writes data modified by a program back to the params struct:
    the params and the reader after the call, and the returned error
    ([None] is nil).  Control leaves the loop only by a [return], so
    [Update_tail] is not part of it. *)
Definition Update (p : Params) (buf : Reader) : Params * Reader * option error :=
  let '(accs, buf, e) := Update_loop (Accounts p) buf in
  (mkParams accs (Params_Data p) (ProgramID p), buf, Some e).

End Sealevel.

(** ** The tests of package base58 *)

Module Base58_test.
Import Base58.

(** encoding/hex: the value of a hexadecimal digit, [None] for any other
    byte. *)
Definition fromHexChar (c : Z) : option Z :=
  if (48 <=? c) && (c <=? 57) then Some (c - 48)
  else if (97 <=? c) && (c <=? 102) then Some (c - 97 + 10)
  else if (65 <=? c) && (c <=? 70) then Some (c - 65 + 10)
  else None.

(** [hex.Decode(dst, src)], its results dropped: [dst] after the call.  The
    loop stops at the first byte that is no hexadecimal digit; [dst[i]] is
    bounds-checked. *)
Fixpoint hex_Decode (dst : list Z) (i : nat) (src : list Z) : outcome (list Z) :=
  match src with
  | p :: q :: rest =>
      match fromHexChar p, fromHexChar q with
      | Some a, Some b =>
          if (i <? length dst)%nat
          then hex_Decode (upd dst i (Z.lor (u8 (Z.shiftl a 4)) b)) (S i) rest
          else Panic
      | _, _ => Ret dst
      end
  | _ => Ret dst
  end.

Definition hextable : list Z := bytes_of_string "0123456789abcdef".

(** [hex.EncodeToString(src)]. *)
Definition hex_EncodeToString (src : list Z) : list Z :=
  flat_map (fun v => [get hextable (Z.to_nat (Z.shiftr v 4));
                      get hextable (Z.to_nat (Z.land v 0x0f))]) src.

Definition testVector32 : list (string * string) :=
  [ ("0000000000000000000000000000000000000000000000000000000000000000",
     "11111111111111111111111111111111");
    ("0000000000000000000000000000000000000000000000000000000000000001",
     "11111111111111111111111111111112");
    ("0000000000000000000000000000000000000000000000000000000000000101",
     "1111111111111111111111111111115S");
    ("ffffffffffffffffffffffffffffffffffffffffffffffffffffffffffffffff",
     "JEKNVnkbo3jma5nREBBJCDoXFVeKkD56V3xKrvRmWxFG");
    ("fffffffffffffffffffffffffffffffffffffffffffffffffffffffffffffffe",
     "JEKNVnkbo3jma5nREBBJCDoXFVeKkD56V3xKrvRmWxFF") ]%string.

Definition testVector64 : list (string * string) :=
  [ ("00000000000000000000000000000000000000000000000000000000000000000000000000000000000000000000000000000000000000000000000000000000",
     "1111111111111111111111111111111111111111111111111111111111111111");
    ("00000000000000000000000000000000000000000000000000000000000000000000000000000000000000000000000000000000000000000000000000000001",
     "1111111111111111111111111111111111111111111111111111111111111112");
    ("00000000000000000000000000000000000000000000000000000000000000000000000000000000000000000000000000000000000000000000000000000101",
     "111111111111111111111111111111111111111111111111111111111111115S");
    ("ffffffffffffffffffffffffffffffffffffffffffffffffffffffffffffffffffffffffffffffffffffffffffffffffffffffffffffffffffffffffffffffff",
     "67rpwLCuS5DGA8KGZXKsVQ7dnPb9goRLoKfgGbLfQg9WoLUgNY77E2jT11fem3coV9nAkguBACzrU1iyZM4B8roQ");
    ("fffffffffffffffffffffffffffffffffffffffffffffffffffffffffffffffffffffffffffffffffffffffffffffffffffffffffffffffffffffffffffffffe",
     "67rpwLCuS5DGA8KGZXKsVQ7dnPb9goRLoKfgGbLfQg9WoLUgNY77E2jT11fem3coV9nAkguBACzrU1iyZM4B8roP") ]%string.

Definition bytes_eqb (a b : list Z) : bool :=
  (length a =? length b)%nat && forallb (fun xy => fst xy =? snd xy) (combine a b).

(** A test over a table of vectors: the number of [t.Errorf] calls of the
    loop, [check] being the body for one vector ([true] is an [Errorf]). *)
Fixpoint run_tests {A : Type} (check : A -> outcome bool) (tests : list A) : outcome nat :=
  match tests with
  | [] => Ret 0%nat
  | test :: rest =>
      match check test with
      | Panic => Panic
      | Ret failed =>
          match run_tests check rest with
          | Panic => Panic
          | Ret n => Ret (if failed then S n else n)
          end
      end
  end.

Definition TestEncode32 : outcome nat :=
  run_tests (fun test : string * string =>
    match hex_Decode (repeat 0 32) 0 (bytes_of_string (fst test)) with
    | Panic => Panic
    | Ret in_ =>
        match Encode32 (repeat 0 44) in_ with
        | Panic => Panic
        | Ret (out, outLen) =>
            if outLen <=? 44 then
              let outStr := firstn (Z.to_nat outLen) out in
              Ret (negb (bytes_eqb outStr (bytes_of_string (snd test))))
            else Panic
        end
    end) testVector32.

Definition TestDecode32 : outcome nat :=
  run_tests (fun test : string * string =>
    match Decode32 (repeat 0 32) (bytes_of_string (snd test)) with
    | Panic => Panic
    | Ret (false, _) => Ret true
    | Ret (true, out) =>
        let outStr := hex_EncodeToString out in
        Ret (negb (bytes_eqb outStr (bytes_of_string (fst test))))
    end) testVector32.

Definition TestEncode64 : outcome nat :=
  run_tests (fun test : string * string =>
    match hex_Decode (repeat 0 64) 0 (bytes_of_string (fst test)) with
    | Panic => Panic
    | Ret in_ =>
        match Encode64 (repeat 0 88) in_ with
        | Panic => Panic
        | Ret (out, outLen) =>
            if outLen <=? 88 then
              let outStr := firstn (Z.to_nat outLen) out in
              Ret (negb (bytes_eqb outStr (bytes_of_string (snd test))))
            else Panic
        end
    end) testVector64.

End Base58_test.

(** * Specification-level definitions *)

Import Base58.

(** ** Specification-level notions *)

(** The value of a big-endian digit string in base [b]. *)
Fixpoint eval (b : Z) (l : list Z) : Z :=
  match l with
  | [] => 0
  | d :: t => d * b ^ Z.of_nat (length t) + eval b t
  end.

(** The same value for digits given by position: [f 0] is the most
    significant of [n] digits. *)
Fixpoint evalf (b : Z) (f : nat -> Z) (n : nat) : Z :=
  match n with
  | O => 0
  | S n' => evalf b f n' * b + f n'
  end.

(** [c lo * t[lo][m] + ... + c (lo+k-1) * t[lo+k-1][m]]: the exact value a
    multiply-accumulate column holds after rows [lo .. lo+k-1]. *)
Fixpoint colsum (c : nat -> Z) (t : list (list Z)) (lo k m : nat) : Z :=
  match k with
  | O => 0
  | S k' => colsum c t lo k' m + c (lo + k')%nat * get2 t (lo + k')%nat m
  end.

(** [w 0 * c 0 + ... + w (k-1) * c (k-1)]. *)
Fixpoint lincomb (c w : nat -> Z) (k : nat) : Z :=
  match k with
  | O => 0
  | S k' => lincomb c w k' + c k' * w k'
  end.

(** All digits of [l] are digits of base [b]. *)
Definition digits_in (b : Z) (l : list Z) : Prop := Forall (fun d => 0 <= d < b) l.

(** The number of leading zero entries. *)
Fixpoint leading0s (l : list Z) : nat :=
  match l with
  | d :: t => if d =? 0 then S (leading0s t) else O
  | [] => O
  end.

(** The iterations of [for_down] from [hi] down to [k+1], as a loop of
    its own: the last iteration is the one at [k+1]. *)
Definition down_to {S : Type} (k m : nat) (body : nat -> S -> S) (s : S) : S :=
  fold_left (fun s i => body i s) (rev (seq (Datatypes.S k) m)) s.

(** One carry step in base [R]:
    [a[i-1] += a[i] / R; a[i] %= R], the common shape of [enc_reduce]
    (R = 58^5) and [dec_reduce] (R = 2^32). *)
Definition reduce_step (R : Z) (i : nat) (a : list Z) : list Z :=
  let a := upd a (i - 1) (add64 (get a (i - 1)) (get a i / R)) in
  upd a i (get a i mod R).

(** The five base-58 digits [enc_raw_step] stores for the value [v], most
    significant first. *)
Definition dg (t : nat) (v : Z) : Z :=
  match t with
  | 0%nat => u8 (v / 11316496)
  | 1%nat => u8 ((v / 195112) mod 58)
  | 2%nat => u8 ((v / 3364) mod 58)
  | 3%nat => u8 ((v / 58) mod 58)
  | _ => u8 ((v / 1) mod 58)
  end.

(** Checks on the constant tables, decided by evaluation. *)
Definition table_nonneg (t : list (list Z)) : bool :=
  forallb (forallb (fun x => 0 <=? x)) t.

(** Row [i] of an [n]-row table of [cols] columns is the base-[R]
    representation of [B^(n-1-i)]. *)
Definition table_rows (R B : Z) (t : list (list Z)) (n cols : nat) : bool :=
  forallb (fun i => evalf R (get2 t i) cols =? B ^ Z.of_nat (n - 1 - i)) (seq 0 n).

(** With coefficients up to [M], the columns of rows [lo .. lo+k-1] added
    to entries up to [start m] stay below [limit]. *)
Definition columns_below (M limit : Z) (t : list (list Z)) (lo k cols : nat)
    (start : nat -> Z) : bool :=
  forallb (fun m => start m + M * colsum (fun _ => 1) t lo k m <? limit) (seq 0 cols).

(** Every entry of the [n] rows and [cols] columns of a table is a digit
    of base [R]. *)
Definition table_digits (R : Z) (t : list (list Z)) (n cols : nat) : bool :=
  forallb (fun i => forallb (fun k => (0 <=? get2 t i k) && (get2 t i k <? R)) (seq 0 cols))
    (seq 0 n).

(** The four bytes [BigEndian_PutUint32] stores for [v], most significant
    first. *)
Definition bt (t : nat) (v : Z) : Z :=
  match t with
  | 0%nat => u8 (Z.shiftr v 24)
  | 1%nat => u8 (Z.shiftr v 16)
  | 2%nat => u8 (Z.shiftr v 8)
  | _ => u8 v
  end.

(** The digit the decoders read for the character [c]. *)
Definition digit_of (c : Z) : Z :=
  get inverseLUT (Z.to_nat (u8 (c - inverseLUTOffset))).

(** [c] is one of the 58 characters of the alphabet. *)
Definition valid_char (c : Z) : bool :=
  (49 <=? c) && (c <=? 122) && negb (get inverseLUT (Z.to_nat (c - 49)) =? 255).

(** The raw digits of a text: the digits of its characters behind
    [n - length s] zeros. *)
Definition raw_of (n : nat) (s : list Z) : list Z :=
  repeat 0 (n - length s) ++ map digit_of s.

(** The character the encoders write for the digit [d]. *)
Definition char_of (d : Z) : Z := get alphabet (Z.to_nat d).

(** The number of leading '1' characters of a text. *)
Fixpoint leading1s (s : list Z) : nat :=
  match s with
  | c :: t => if c =? 49 then S (leading1s t) else O
  | [] => O
  end.

(** [256^nb <= 58^(nb+e)] for every count [nb <= n] of significant bytes. *)
Definition powers_fit (n e : nat) : bool :=
  forallb (fun nb => 256 ^ Z.of_nat nb <=? 58 ^ Z.of_nat (nb + e)) (seq 0 (S n)).

(** An [n]-byte value. *)
Definition is_bytes (n : nat) (x : list Z) : Prop := length x = n /\ digits_in 256 x.

Definition is_bytesb (n : nat) (x : list Z) : bool :=
  Nat.eqb (length x) n && forallb (fun d => (0 <=? d) && (d <? 256)) x.

(** The texts of the test vectors for the value 257. *)
Definition text257_32 : list Z := bytes_of_string "1111111111111111111111111111115S".
Definition text257_64 : list Z :=
  bytes_of_string "111111111111111111111111111111111111111111111111111111111111115S".

(** ** The documented wire layout of the parameter block

    Written from the specification, to be compared with what
    [Sealevel.Serialize] emits. *)

Module Layout.
Import Sealevel.

(** The padding after the data of a primary account at offset [off]:
    up to the next 8-byte boundary after [off + ReallocSpace]. *)
Definition padding (off : Z) : Z :=
  (off + ReallocSpace + (ReallocAlign - 1)) / ReallocAlign * ReallocAlign - off.

(** The record of a primary account with [pad] bytes of padding. *)
Definition primary (pad : Z) (acc : AccountParam) : list Z :=
  [0xFF; byte_of_bool (IsSigner acc); byte_of_bool (IsWritable acc);
   byte_of_bool (IsExecutable acc)]
  ++ repeat 0 4
  ++ Key acc ++ Owner acc
  ++ LittleEndian_PutUint64 (Lamports acc)
  ++ LittleEndian_PutUint64 (len (Data acc))
  ++ Data acc
  ++ repeat 0 (Z.to_nat pad)
  ++ LittleEndian_PutUint64 (RentEpoch acc).

(** The record of a duplicate account: stride 8. *)
Definition duplicate (acc : AccountParam) : list Z :=
  [DuplicateIndex acc] ++ repeat 0 7.

(** The records of the accounts, the first at offset [off]. *)
Fixpoint accounts (off : Z) (accs : list AccountParam) : list Z :=
  match accs with
  | [] => []
  | acc :: rest =>
      let r := if IsDuplicate acc then duplicate acc
               else primary (padding (off + 88 + len (Data acc))) acc in
      r ++ accounts (off + len r) rest
  end.

Definition block (p : Params) : list Z :=
  LittleEndian_PutUint64 (len (Accounts p))
  ++ accounts 8 (Accounts p)
  ++ LittleEndian_PutUint64 (len (Params_Data p))
  ++ Params_Data p
  ++ ProgramID p.

End Layout.

(** ** Example blocks *)

Module Examples.
Import Sealevel.

(** A primary account with empty data. *)
Definition primary0 (dupIndex lamports : Z) : AccountParam :=
  mkAccountParam false dupIndex true false false (repeat 1 32) (repeat 2 32)
    lamports [] 0 7.

(** A duplicate of account 0. *)
Definition dup0 : AccountParam :=
  mkAccountParam true 0 false false false (repeat 0 32) (repeat 0 32) 0 [] 0 0.

(** No account at all. *)
Definition empty_block : Params := mkParams [] [5; 6] (repeat 3 32).

(** One primary account and a duplicate of it. *)
Definition small_block : Params :=
  mkParams [primary0 0xFF 5; dup0] [5; 6] (repeat 3 32).

(** 255 accounts: a primary account whose DuplicateIndex is 0xFF, a primary
    account whose DuplicateIndex is 0, and 253 duplicates of account 0. *)
Definition wide_block : Params :=
  mkParams (primary0 0xFF (2 ^ 64 - 1) :: primary0 0 0 :: repeat dup0 253) []
    (repeat 3 32).

(** One primary account, as Serialize leaves it (its Padding recorded). *)
Definition single : AccountParam :=
  mkAccountParam false 0xFF true false false (repeat 1 32) (repeat 2 32) 5 [9; 9; 9]
    10252 7.

Definition single_block : Params := mkParams [single] [5; 6] (repeat 3 32).

(** A byte source in the documented layout for [single_block], from the
    first account record on. *)
Definition single_source : list Z :=
  Layout.primary 10252 single
  ++ LittleEndian_PutUint64 2 ++ [5; 6] ++ repeat 3 32.

End Examples.

(** ** What Serialize writes and records, account by account *)

Module Wire.
Import Sealevel.

(** The bytes of one account in the buffer of Serialize. *)
Definition record (acc : AccountParam) : list Z :=
  if IsDuplicate acc then [DuplicateIndex acc]
  else
    [0xFF; byte_of_bool (IsSigner acc); byte_of_bool (IsWritable acc);
     byte_of_bool (IsExecutable acc)]
    ++ Key acc ++ Owner acc
    ++ LittleEndian_PutUint64 (Lamports acc)
    ++ LittleEndian_PutUint64 (u64 (len (Data acc)))
    ++ Data acc
    ++ LittleEndian_PutUint64 (RentEpoch acc).

(** The number of these bytes. *)
Definition record_size (acc : AccountParam) : Z :=
  if IsDuplicate acc then 1
  else 28 + len (Key acc) + len (Owner acc) + len (Data acc).

(** [acc] with its Padding field set to [padding]. *)
Definition with_Padding (acc : AccountParam) (padding : Z) : AccountParam :=
  mkAccountParam (IsDuplicate acc) (DuplicateIndex acc) (IsSigner acc) (IsWritable acc)
    (IsExecutable acc) (Key acc) (Owner acc) (Lamports acc) (Data acc) padding
    (RentEpoch acc).

(** The Padding of the primary account [i] of [accs]: [buf.Len()] is then
    the 8 bytes of the count and the records up to account [i], less the
    8 bytes of its rent epoch. *)
Definition recorded_Padding (accs : list AccountParam) (i : nat) : Z :=
  ReallocSpace + 1
  + Z.quot (8 + len (flat_map record (firstn (S i) accs)) - 8 - 1) ReallocAlign.

(** The account Serialize leaves at index [i]. *)
Definition serialized (accs : list AccountParam) (i : nat) (acc : AccountParam)
    : AccountParam :=
  if IsDuplicate acc then acc else with_Padding acc (recorded_Padding accs i).

(** The fields Update never writes agree, and an account whose
    DuplicateIndex is not 0xFF is the same. *)
Definition kept (a a' : AccountParam) : Prop :=
  IsDuplicate a' = IsDuplicate a /\ DuplicateIndex a' = DuplicateIndex a /\
  Padding a' = Padding a /\ (DuplicateIndex a <> 0xFF -> a' = a).

(** The bytes the loop of Update consumes for the account [acc] when the
    source holds the account as [new]: for an account marked 0xFF a
    record in the documented layout of a primary account, with the
    padding left of [Padding acc] after the growth of the data; for
    another account its index byte. *)
Definition source_record (acc new : AccountParam) : list Z :=
  if DuplicateIndex acc =? 0xFF
  then Layout.primary (Padding acc - (len (Data new) - len (Data acc))) new
  else [DuplicateIndex acc].

(** The account Update leaves for [acc] after such a record: the fields of
    [new], with IsDuplicate, DuplicateIndex and Padding of [acc]. *)
Definition updated (acc new : AccountParam) : AccountParam :=
  if DuplicateIndex acc =? 0xFF
  then mkAccountParam (IsDuplicate acc) (DuplicateIndex acc) (IsSigner new)
         (IsWritable new) (IsExecutable new) (Key new) (Owner new) (Lamports new)
         (Data new) (Padding acc) (RentEpoch new)
  else acc.

(** [new] is an account the loop of Update can read back over [acc]. *)
Definition readable (acc new : AccountParam) : Prop :=
  if DuplicateIndex acc =? 0xFF
  then length (Key acc) = 32%nat /\ length (Owner acc) = 32%nat /\
       length (Key new) = 32%nat /\ length (Owner new) = 32%nat /\
       0 <= Lamports new < 2 ^ 64 /\ 0 <= RentEpoch new < 2 ^ 64 /\
       len (Data acc) <= len (Data new) <= len (Data acc) + ReallocSpace /\
       len (Data new) < 2 ^ 63 /\
       len (Data new) - len (Data acc) <= Padding acc < 2 ^ 63
  else IsDuplicate acc = true.

(** The records of a list of accounts, and the accounts after them. *)
Fixpoint source_records (accs news : list AccountParam) : list Z :=
  match accs, news with
  | acc :: accs, new :: news => source_record acc new ++ source_records accs news
  | _, _ => []
  end.

Fixpoint updated_all (accs news : list AccountParam) : list AccountParam :=
  match accs, news with
  | acc :: accs, new :: news => updated acc new :: updated_all accs news
  | _, _ => []
  end.

End Wire.

(** ** The head of a record, up to the data length *)

Module Head.
Import Sealevel.

(** The bytes of a primary account's record before its data length, in
    the documented layout. *)
Definition header (new : AccountParam) : list Z :=
  [0xFF; byte_of_bool (IsSigner new); byte_of_bool (IsWritable new);
   byte_of_bool (IsExecutable new)]
  ++ repeat 0 4 ++ Key new ++ Owner new ++ LittleEndian_PutUint64 (Lamports new).

(** The account [acc] with the fields of that head taken from [new]. *)
Definition header_updated (acc new : AccountParam) : AccountParam :=
  mkAccountParam (IsDuplicate acc) (DuplicateIndex acc) (IsSigner new) (IsWritable new)
    (IsExecutable new) (Key new) (Owner new) (Lamports new) (Data acc) (Padding acc)
    (RentEpoch acc).

End Head.

(** * Proofs *)

(** ** Arrays and loops *)

Lemma length_upd (a : list Z) (i : nat) (v : Z) : length (upd a i v) = length a.
Proof.
  revert i; induction a as [|h t IH]; intros [|i]; simpl; auto.
Qed.

Lemma get_upd (a : list Z) (i j : nat) (v : Z) :
  get (upd a i v) j = if (Nat.eqb i j && Nat.ltb i (length a))%bool then v else get a j.
Proof.
  unfold get. revert i j; induction a as [|h t IH]; intros [|i] [|j]; simpl;
    try rewrite andb_false_r; try rewrite IH; reflexivity.
Qed.

Lemma get_upd_eq (a : list Z) (i : nat) (v : Z) :
  (i < length a)%nat -> get (upd a i v) i = v.
Proof.
  intros H. rewrite get_upd, Nat.eqb_refl. simpl.
  apply Nat.ltb_lt in H. rewrite H. reflexivity.
Qed.

Lemma get_upd_ne (a : list Z) (i j : nat) (v : Z) :
  i <> j -> get (upd a i v) j = get a j.
Proof.
  intros H. rewrite get_upd. apply Nat.eqb_neq in H. rewrite H. reflexivity.
Qed.

Lemma get_repeat (n i : nat) : get (repeat 0 n) i = 0.
Proof.
  unfold get. revert i; induction n; intros [|i]; simpl; auto.
Qed.

Lemma get_overflow (a : list Z) (i : nat) : (length a <= i)%nat -> get a i = 0.
Proof. intros H. unfold get. apply nth_overflow. exact H. Qed.

Lemma list_get_ext (a b : list Z) :
  length a = length b -> (forall i, (i < length a)%nat -> get a i = get b i) -> a = b.
Proof.
  intros Hl H. apply (nth_ext a b 0 0 Hl). exact H.
Qed.

Lemma for_up_S {S : Type} (lo n : nat) (body : nat -> S -> S) (s : S) :
  for_up lo (Datatypes.S n) body s = body (lo + n)%nat (for_up lo n body s).
Proof.
  unfold for_up. rewrite seq_S, fold_left_app. reflexivity.
Qed.

Lemma for_up_0 {S : Type} (lo : nat) (body : nat -> S -> S) (s : S) :
  for_up lo 0 body s = s.
Proof. reflexivity. Qed.

(** [for_down]: the first iteration is the one at the top index. *)
Lemma for_down_S {S : Type} (hi : nat) (body : nat -> S -> S) (s : S) :
  for_down (Datatypes.S hi) body s = for_down hi body (body (Datatypes.S hi) s).
Proof.
  unfold for_down. rewrite seq_S, rev_app_distr. reflexivity.
Qed.

Lemma down_to_S {S : Type} (k m : nat) (body : nat -> S -> S) (s : S) :
  down_to k (Datatypes.S m) body s = body (Datatypes.S k) (down_to (Datatypes.S k) m body s).
Proof.
  unfold down_to. simpl seq. simpl rev. rewrite fold_left_app. reflexivity.
Qed.

Lemma for_down_down_to {S : Type} (hi : nat) (body : nat -> S -> S) (s : S) :
  for_down hi body s = down_to 0 hi body s.
Proof. reflexivity. Qed.

(** ** Positional values *)

Lemma evalf_ext (b : Z) (f g : nat -> Z) (n : nat) :
  (forall m, (m < n)%nat -> f m = g m) -> evalf b f n = evalf b g n.
Proof.
  induction n as [|n IH]; intros H; cbn [evalf eval colsum lincomb length app Nat.add]; [reflexivity|].
  rewrite IH, (H n) by (intros; try apply H; lia). reflexivity.
Qed.

Lemma eval_app (b : Z) (l1 l2 : list Z) :
  eval b (l1 ++ l2) = eval b l1 * b ^ Z.of_nat (length l2) + eval b l2.
Proof.
  induction l1 as [|d t IH]; cbn [evalf eval colsum lincomb length app Nat.add]; [lia|].
  rewrite IH, length_app, Nat2Z.inj_add, Z.pow_add_r by lia. ring.
Qed.

Lemma get_app_l (l1 l2 : list Z) (m : nat) :
  (m < length l1)%nat -> get (l1 ++ l2) m = get l1 m.
Proof. intros H. unfold get. apply app_nth1. exact H. Qed.

Lemma get_app_r (l1 l2 : list Z) (m : nat) :
  get (l1 ++ l2) (length l1 + m) = get l2 m.
Proof.
  unfold get. rewrite app_nth2 by lia. f_equal. lia.
Qed.

Lemma get_app_r_sub (l1 l2 : list Z) (j : nat) :
  (length l1 <= j)%nat -> get (l1 ++ l2) j = get l2 (j - length l1).
Proof. intros H. unfold get. apply app_nth2. lia. Qed.

Lemma eval_evalf (b : Z) (l : list Z) : eval b l = evalf b (get l) (length l).
Proof.
  induction l as [|d l IH] using rev_ind; [reflexivity|].
  rewrite eval_app, length_app, Nat.add_comm.
  cbn [length Nat.add evalf eval]. change (Z.of_nat 1) with 1. change (Z.of_nat 0) with 0.
  rewrite IH, Z.pow_1_r, Z.pow_0_r.
  rewrite (evalf_ext b (get (l ++ [d])) (get l)) by (intros; apply get_app_l; assumption).
  replace (get (l ++ [d]) (length l)) with d; [ring|].
  rewrite <- (Nat.add_0_r (length l)), get_app_r. reflexivity.
Qed.

Lemma evalf_lin (b c : Z) (f g : nat -> Z) (n : nat) :
  evalf b (fun m => f m + c * g m) n = evalf b f n + c * evalf b g n.
Proof.
  induction n as [|n IH]; cbn [evalf eval colsum lincomb length app Nat.add]; [ring|]. rewrite IH. ring.
Qed.

Lemma evalf_plus (b : Z) (f g : nat -> Z) (n : nat) :
  evalf b (fun m => f m + g m) n = evalf b f n + evalf b g n.
Proof.
  induction n as [|n IH]; [reflexivity|]. cbn [evalf]. rewrite IH. ring.
Qed.

Lemma evalf_shift (b : Z) (f : nat -> Z) (n : nat) :
  evalf b f (S n) = f O * b ^ Z.of_nat n + evalf b (fun m => f (S m)) n.
Proof.
  induction n as [|n IH]; [simpl; ring|].
  change (evalf b f (S (S n))) with (evalf b f (S n) * b + f (S n)).
  rewrite IH, Nat2Z.inj_succ, Z.pow_succ_r by lia. cbn [evalf eval colsum lincomb length app Nat.add]. ring.
Qed.

Lemma evalf_add (b : Z) (f : nat -> Z) (n g : nat) :
  evalf b f (n + g) = evalf b f n * b ^ Z.of_nat g + evalf b (fun k => f (n + k)%nat) g.
Proof.
  induction g as [|g IH]; [rewrite Nat.add_0_r; simpl; ring|].
  rewrite Nat.add_succ_r. cbn [evalf eval colsum lincomb length app Nat.add]. rewrite IH, Nat2Z.inj_succ, Z.pow_succ_r by lia. ring.
Qed.

(** Grouping [g] digits of base [b] into one digit of base [b^g]. *)
Lemma evalf_group (b : Z) (g : nat) (F f : nat -> Z) (n : nat) :
  (forall i, (i < n)%nat -> F i = evalf b (fun k => f (g * i + k)%nat) g) ->
  evalf (b ^ Z.of_nat g) F n = evalf b f (g * n).
Proof.
  induction n as [|n IH]; intros H; [rewrite Nat.mul_0_r; reflexivity|].
  cbn [evalf eval colsum lincomb length app Nat.add]. rewrite IH by (intros; apply H; lia).
  replace (g * S n)%nat with (g * n + g)%nat by lia.
  rewrite evalf_add, (H n) by lia. reflexivity.
Qed.

(** Changing one digit. *)
Lemma evalf_upd (b : Z) (f f' : nat -> Z) (n i : nat) :
  (i < n)%nat -> (forall m, m <> i -> f' m = f m) ->
  evalf b f' n = evalf b f n + (f' i - f i) * b ^ Z.of_nat (n - 1 - i).
Proof.
  induction n as [|n IH]; intros Hi H; [lia|].
  cbn [evalf eval colsum lincomb length app Nat.add]. destruct (Nat.eq_dec i n) as [->|Hne].
  - rewrite (evalf_ext b f' f) by (intros; apply H; lia).
    replace (Z.of_nat (S n - 1 - n)) with 0 by lia. rewrite Z.pow_0_r. ring.
  - rewrite IH, (H n) by (auto; lia).
    replace (Z.of_nat (S n - 1 - i)) with (Z.succ (Z.of_nat (n - 1 - i))) by lia.
    rewrite Z.pow_succ_r by lia. ring.
Qed.

Lemma evalf_nonneg (b : Z) (f : nat -> Z) (n : nat) :
  0 <= b -> (forall m, (m < n)%nat -> 0 <= f m) -> 0 <= evalf b f n.
Proof.
  intros Hb. induction n as [|n IH]; intros H; cbn [evalf eval colsum lincomb length app Nat.add]; [lia|].
  assert (0 <= evalf b f n) by (apply IH; intros; apply H; lia).
  assert (0 <= f n) by (apply H; lia). nia.
Qed.

Lemma evalf_bound (b : Z) (f : nat -> Z) (n : nat) :
  0 < b -> (forall m, (m < n)%nat -> 0 <= f m < b) ->
  0 <= evalf b f n < b ^ Z.of_nat n.
Proof.
  intros Hb. induction n as [|n IH]; intros H; [simpl; lia|].
  assert (0 <= evalf b f n < b ^ Z.of_nat n) by (apply IH; intros; apply H; lia).
  assert (0 <= f n < b) by (apply H; lia).
  rewrite Nat2Z.inj_succ, Z.pow_succ_r by lia. cbn [evalf eval colsum lincomb length app Nat.add]. nia.
Qed.

Lemma evalf_inj (b : Z) (f g : nat -> Z) (n : nat) :
  0 < b ->
  (forall m, (m < n)%nat -> 0 <= f m < b) ->
  (forall m, (m < n)%nat -> 0 <= g m < b) ->
  evalf b f n = evalf b g n ->
  forall m, (m < n)%nat -> f m = g m.
Proof.
  intros Hb. induction n as [|n IH]; intros Hf Hg He m Hm; [lia|].
  cbn [evalf] in He.
  assert (0 <= f n < b) by (apply Hf; lia).
  assert (0 <= g n < b) by (apply Hg; lia).
  assert (E2 : f n = g n).
  { pose proof (f_equal (fun x => x mod b) He) as Hq. cbv beta in Hq.
    rewrite !(Z.add_comm (_ * b)), !Z_mod_plus_full, !Z.mod_small in Hq by lia.
    exact Hq. }
  assert (E1 : evalf b f n = evalf b g n).
  { apply (Z.mul_cancel_r _ _ b); lia. }
  destruct (Nat.eq_dec m n) as [->|Hne]; [exact E2|].
  apply IH; [intros; apply Hf; lia | intros; apply Hg; lia | exact E1 | lia].
Qed.

Lemma digits_in_get (b : Z) (l : list Z) :
  digits_in b l <-> (forall m, (m < length l)%nat -> 0 <= get l m < b).
Proof.
  unfold digits_in. rewrite Forall_forall. split.
  - intros H m Hm. apply H. unfold get. apply nth_In. exact Hm.
  - intros H d Hd. destruct (In_nth l d 0 Hd) as [m [Hm <-]]. apply H. exact Hm.
Qed.

(** Two digit strings of the same length and value are equal. *)
Lemma eval_inj (b : Z) (l1 l2 : list Z) :
  0 < b -> digits_in b l1 -> digits_in b l2 -> length l1 = length l2 ->
  eval b l1 = eval b l2 -> l1 = l2.
Proof.
  intros Hb H1 H2 Hl He. apply list_get_ext; [exact Hl|].
  rewrite !eval_evalf, <- Hl in He.
  apply (evalf_inj b (get l1) (get l2) (length l1)); auto.
  - apply digits_in_get. exact H1.
  - rewrite Hl. apply digits_in_get. exact H2.
Qed.

Lemma eval_bound (b : Z) (l : list Z) :
  0 < b -> digits_in b l -> 0 <= eval b l < b ^ Z.of_nat (length l).
Proof.
  intros Hb H. rewrite eval_evalf. apply evalf_bound; [exact Hb|].
  apply digits_in_get. exact H.
Qed.

(** ** Multiply-accumulate columns *)

Lemma evalf_colsum (b : Z) (c : nat -> Z) (t : list (list Z)) (lo k n : nat) :
  evalf b (colsum c t lo k) n =
  lincomb (fun i => c (lo + i)%nat) (fun i => evalf b (get2 t (lo + i)%nat) n) k.
Proof.
  induction k as [|k IH]; cbn [evalf eval colsum lincomb length app Nat.add].
  - induction n as [|n IHn]; cbn [evalf eval colsum lincomb length app Nat.add]; [reflexivity|]. rewrite IHn. ring.
  - rewrite <- IH.
    rewrite (evalf_lin b (c (lo + k)%nat) (colsum c t lo k) (get2 t (lo + k)%nat) n).
    ring.
Qed.

Lemma lincomb_ext (c c' w w' : nat -> Z) (k : nat) :
  (forall i, (i < k)%nat -> c i = c' i) -> (forall i, (i < k)%nat -> w i = w' i) ->
  lincomb c w k = lincomb c' w' k.
Proof.
  induction k as [|k IH]; intros Hc Hw; cbn [evalf eval colsum lincomb length app Nat.add]; [reflexivity|].
  rewrite IH, Hc, Hw by (intros; auto; lia). reflexivity.
Qed.

Lemma lincomb_scale (B : Z) (c w : nat -> Z) (k : nat) :
  lincomb c (fun i => B * w i) k = B * lincomb c w k.
Proof.
  induction k as [|k IH]; cbn [evalf eval colsum lincomb length app Nat.add]; [ring|]. rewrite IH. ring.
Qed.

Lemma lincomb_pow (B : Z) (c w : nat -> Z) (k : nat) :
  (forall i, (i < k)%nat -> w i = B ^ Z.of_nat (k - 1 - i)) ->
  lincomb c w k = evalf B c k.
Proof.
  revert w. induction k as [|k IH]; intros w H; cbn [evalf eval colsum lincomb length app Nat.add]; [reflexivity|].
  rewrite (H k) by lia. replace (Z.of_nat (S k - 1 - k)) with 0 by lia.
  rewrite Z.pow_0_r.
  rewrite (lincomb_ext c c w (fun i => B * B ^ Z.of_nat (k - 1 - i)) k); auto.
  - rewrite lincomb_scale, (IH (fun i => B ^ Z.of_nat (k - 1 - i))) by auto.
    ring.
  - intros i Hi. rewrite (H i) by lia.
    replace (Z.of_nat (S k - 1 - i)) with (Z.succ (Z.of_nat (k - 1 - i))) by lia.
    rewrite Z.pow_succ_r by lia. reflexivity.
Qed.

Lemma lincomb_split (c w : nat -> Z) (k1 k2 : nat) :
  lincomb c w (k1 + k2) =
  lincomb c w k1 + lincomb (fun i => c (k1 + i)%nat) (fun i => w (k1 + i)%nat) k2.
Proof.
  induction k2 as [|k2 IH]; [rewrite Nat.add_0_r; simpl; ring|].
  rewrite Nat.add_succ_r. cbn [evalf eval colsum lincomb length app Nat.add]. rewrite IH. ring.
Qed.

Lemma colsum_bound (c : nat -> Z) (t : list (list Z)) (lo k m : nat) (M : Z) :
  (forall i, 0 <= c i <= M) -> (forall i j, 0 <= get2 t i j) ->
  0 <= colsum c t lo k m <= M * colsum (fun _ => 1) t lo k m.
Proof.
  intros Hc Ht. induction k as [|k IH]; cbn [evalf eval colsum lincomb length app Nat.add]; [lia|].
  specialize (Hc (lo + k)%nat). specialize (Ht (lo + k)%nat m). nia.
Qed.

Lemma colsum_mono (t : list (list Z)) (lo k k' m : nat) :
  (forall i j, 0 <= get2 t i j) -> (k <= k')%nat ->
  colsum (fun _ => 1) t lo k m <= colsum (fun _ => 1) t lo k' m.
Proof.
  intros Ht H. induction H as [|k' H IH]; [lia|].
  cbn [evalf eval colsum lincomb length app Nat.add]. specialize (Ht (lo + k')%nat m). lia.
Qed.

(** ** The loops of the codec, entry by entry *)

Lemma u64_small (z : Z) : 0 <= z < 2 ^ 64 -> u64 z = z.
Proof. intros H. unfold u64. apply Z.mod_small. exact H. Qed.

Lemma add64_small (a b : Z) : 0 <= a + b < 2 ^ 64 -> add64 a b = a + b.
Proof. intros H. unfold add64. apply u64_small. exact H. Qed.

Lemma mul64_small (a b : Z) : 0 <= a * b < 2 ^ 64 -> mul64 a b = a * b.
Proof. intros H. unfold mul64. apply u64_small. exact H. Qed.

(** A loop that fills entry [i] at iteration [i]. *)
Lemma for_up_fill (f : nat -> Z) (k : nat) (a : list Z) :
  let r := for_up 0 k (fun i a => upd a i (f i)) a in
  length r = length a /\
  forall i, get r i = if (Nat.ltb i k && Nat.ltb i (length a))%bool then f i else get a i.
Proof.
  induction k as [|k [IHl IHg]]; cbv zeta.
  - split; [reflexivity|]. intros i. reflexivity.
  - rewrite for_up_S. cbn [Nat.add]. split.
    + rewrite length_upd. exact IHl.
    + intros i. rewrite get_upd, IHl, IHg.
      destruct (Nat.eqb_spec k i) as [->|Hne].
      * rewrite Nat.ltb_irrefl.
        replace (Nat.ltb i (S i)) with true by (symmetry; apply Nat.ltb_lt; lia).
        cbn [andb]. destruct (Nat.ltb i (length a)); reflexivity.
      * cbn [andb]. destruct (Nat.ltb_spec i k), (Nat.ltb_spec i (S k)); try lia; reflexivity.
Qed.

(** A loop that rewrites entry [j+1] at iteration [j] from its old value. *)
Lemma for_up_shifted (g : nat -> Z -> Z) (k : nat) (a : list Z) :
  let r := for_up 0 k (fun j a => upd a (j + 1) (g j (get a (j + 1)))) a in
  length r = length a /\
  get r 0 = get a 0 /\
  forall m, get r (S m) =
    if (Nat.ltb m k && Nat.ltb (S m) (length a))%bool then g m (get a (S m)) else get a (S m).
Proof.
  induction k as [|k [IHl [IH0 IHg]]]; cbv zeta.
  - repeat split; reflexivity.
  - rewrite for_up_S. cbn [Nat.add]. replace (k + 1)%nat with (S k) by lia.
    split; [rewrite length_upd; exact IHl|]. split.
    + rewrite get_upd_ne by lia. exact IH0.
    + intros m. rewrite get_upd, IHl, !IHg.
      destruct (Nat.eqb_spec (S k) (S m)) as [E|Hne].
      * injection E as ->. rewrite Nat.ltb_irrefl.
        replace (Nat.ltb m (S m)) with true by (symmetry; apply Nat.ltb_lt; lia).
        cbn [andb]. destruct (Nat.ltb (S m) (length a)); reflexivity.
      * cbn [andb]. destruct (Nat.ltb_spec m k), (Nat.ltb_spec m (S k)); try lia; reflexivity.
Qed.

Lemma length_load_limbs (n : nat) (in_ : list Z) : length (load_limbs n in_) = n.
Proof.
  unfold load_limbs.
  destruct (for_up_fill (fun i => BigEndian_Uint32 (skipn (4 * i) in_)) n (repeat 0 n)) as [H _].
  rewrite H. apply repeat_length.
Qed.

Lemma get_skipn (l : list Z) (n i : nat) : get (skipn n l) i = get l (n + i).
Proof.
  unfold get. revert l; induction n as [|n IH]; intros l; [reflexivity|].
  destruct l as [|h t]; [destruct i; reflexivity|]. simpl. apply IH.
Qed.

Lemma get_load_limbs (n : nat) (in_ : list Z) (i : nat) :
  (i < n)%nat ->
  get (load_limbs n in_) i = evalf 256 (fun t => get in_ (4 * i + t)) 4.
Proof.
  intros Hi. unfold load_limbs.
  destruct (for_up_fill (fun i => BigEndian_Uint32 (skipn (4 * i) in_)) n (repeat 0 n)) as [_ H].
  rewrite H, repeat_length.
  replace (Nat.ltb i n) with true by (symmetry; apply Nat.ltb_lt; lia).
  cbn [andb]. unfold BigEndian_Uint32. rewrite !get_skipn. cbn [evalf]. ring.
Qed.

(** *** The multiply-accumulate of the encoders *)

Section EncMac.
Variables (table : list (list Z)) (limbs : list Z) (ncols : nat).
Hypothesis table_nonneg : forall i j, 0 <= get2 table i j.
Hypothesis limbs_range : forall i, 0 <= get limbs i < 2 ^ 32.

Lemma enc_mac_spec (lo k : nat) (a : list Z) :
    length a = S ncols ->
    (forall m, (m < ncols)%nat ->
       0 <= get a (S m) /\
       get a (S m) + (2 ^ 32 - 1) * colsum (fun _ => 1) table lo k m < 2 ^ 64) ->
    let r := enc_mac table lo k ncols limbs a in
    length r = S ncols /\
    get r 0 = get a 0 /\
    forall m, (m < ncols)%nat ->
      get r (S m) = get a (S m) + colsum (get limbs) table lo k m.
Proof.
    intros Hl. induction k as [|k IH]; intros Hb; cbv zeta.
    - unfold enc_mac. rewrite for_up_0. repeat split; auto.
      intros m _. cbn [colsum]. ring.
    - assert (Hb' : forall m, (m < ncols)%nat ->
         0 <= get a (S m) /\
         get a (S m) + (2 ^ 32 - 1) * colsum (fun _ => 1) table lo k m < 2 ^ 64).
      { intros m Hm. destruct (Hb m Hm) as [H0 H1]. split; [exact H0|].
        cbn [colsum] in H1. specialize (table_nonneg (lo + k)%nat m). lia. }
      destruct (IH Hb') as [IHl [IH0 IHg]].
      unfold enc_mac in *. rewrite for_up_S.
      set (s := for_up lo k _ a) in *.
      destruct (for_up_shifted
                  (fun j x => add64 x (mul64 (get limbs (lo + k)%nat) (get2 table (lo + k)%nat j)))
                  ncols s) as [Rl [R0 Rg]].
      cbv zeta in Rl, R0, Rg.
      split; [rewrite Rl; exact IHl|]. split; [rewrite R0; exact IH0|].
      intros m Hm. rewrite Rg, IHl.
      replace (Nat.ltb m ncols) with true by (symmetry; apply Nat.ltb_lt; lia).
      replace (Nat.ltb (S m) (S ncols)) with true by (symmetry; apply Nat.ltb_lt; lia).
      cbn [andb]. rewrite (IHg m Hm). cbn [colsum].
      destruct (Hb m Hm) as [H0 H1]. cbn [colsum] in H1.
      pose proof (colsum_bound (get limbs) table lo k m (2 ^ 32 - 1)) as Hc.
      assert (Hlr : forall i, 0 <= get limbs i <= 2 ^ 32 - 1)
        by (intros i; specialize (limbs_range i); lia).
      specialize (Hc Hlr table_nonneg).
      pose proof (colsum_bound (fun _ => 1) table lo k m 1) as Hc1.
      assert (0 <= colsum (fun _ => 1) table lo k m)
        by (apply Hc1; [intros; lia|exact table_nonneg]).
      pose proof (table_nonneg (lo + k)%nat m) as Ht.
      pose proof (limbs_range (lo + k)%nat) as Hlk.
      assert (0 <= get limbs (lo + k)%nat * get2 table (lo + k)%nat m
              <= (2 ^ 32 - 1) * get2 table (lo + k)%nat m) by nia.
      rewrite mul64_small by lia. rewrite add64_small by lia. ring.
Qed.
End EncMac.

(** *** The multiply-accumulate of the decoders *)

Lemma dec_acc_spec (table : list (list Z)) (inter : list Z) (j k : nat) (M : Z) :
  (forall i j, 0 <= get2 table i j) ->
  (forall i, 0 <= get inter i <= M) ->
  M * colsum (fun _ => 1) table 0 k j < 2 ^ 64 ->
  for_up 0 k (fun i acc => add64 acc (mul64 (get inter i) (get2 table i j))) 0
  = colsum (get inter) table 0 k j.
Proof.
  intros Ht Hi. induction k as [|k IH]; intros Hb; [reflexivity|].
  rewrite for_up_S. cbn [colsum Nat.add] in *.
  pose proof (Ht k j) as Htk. pose proof (Hi k) as Hik.
  pose proof (colsum_bound (get inter) table 0 k j M Hi Ht) as Hc.
  pose proof (colsum_bound (fun _ => 1) table 0 k j 1) as Hc1.
  assert (0 <= colsum (fun _ => 1) table 0 k j)
    by (apply Hc1; [intros; lia|exact Ht]).
  assert (0 <= M) by lia.
  assert (0 <= get inter k * get2 table k j <= M * get2 table k j) by nia.
  rewrite IH by nia. rewrite mul64_small by nia. rewrite add64_small by nia. reflexivity.
Qed.

Lemma dec_mac_spec (table : list (list Z)) (binsz intersz : nat) (inter : list Z) (M : Z) :
  (forall i j, 0 <= get2 table i j) ->
  (forall i, 0 <= get inter i <= M) ->
  (forall j, (j < binsz)%nat -> M * colsum (fun _ => 1) table 0 intersz j < 2 ^ 64) ->
  let r := dec_mac table binsz intersz inter in
  length r = binsz /\
  forall j, (j < binsz)%nat -> get r j = colsum (get inter) table 0 intersz j.
Proof.
  intros Ht Hi Hb. cbv zeta. unfold dec_mac.
  destruct (for_up_fill
    (fun j => for_up 0 intersz (fun i acc => add64 acc (mul64 (get inter i) (get2 table i j))) 0)
    binsz (repeat 0 binsz)) as [Hl Hg].
  cbv zeta in Hl, Hg. split; [rewrite Hl; apply repeat_length|].
  intros j Hj. rewrite Hg, repeat_length.
  replace (Nat.ltb j binsz) with true by (symmetry; apply Nat.ltb_lt; lia).
  cbn [andb]. apply (dec_acc_spec table inter j intersz M); auto.
Qed.

(** ** Carry normalisation *)

Lemma enc_reduce_step (i : nat) (a : list Z) : enc_reduce i a = reduce_step r1Div i a.
Proof. reflexivity. Qed.

Lemma dec_reduce_step (i : nat) (a : list Z) : dec_reduce i a = reduce_step (2 ^ 32) i a.
Proof.
  unfold dec_reduce, reduce_step.
  rewrite !Z.shiftr_div_pow2 by lia.
  change 0xFFFFFFFF with (Z.ones 32). rewrite Z.land_ones by lia. reflexivity.
Qed.

Section Carry.
Variables (R C : Z) (a : list Z) (hi : nat).
Hypothesis R_pos : 1 < R.
Hypothesis C_def : 2 ^ 64 <= R * C.
Hypothesis a_len : length a = S hi.
Hypothesis a_range : forall m, 0 <= get a m <= 2 ^ 64 - 1 - C.

  (** The state after the iterations [hi], ..., [k+1]. *)
Lemma carry_inv (j k : nat) :
    (k + j = hi)%nat ->
    let s := down_to k j (reduce_step R) a in
    length s = S hi /\
    (forall m, (m < k)%nat -> get s m = get a m) /\
    get a k <= get s k <= get a k + C /\
    (forall m, (k < m <= hi)%nat -> 0 <= get s m < R) /\
    evalf R (get s) (S hi) = evalf R (get a) (S hi).
Proof.
    revert k. induction j as [|j IH]; intros k Hk; cbv zeta.
    - unfold down_to. cbn [seq rev fold_left].
      assert (0 <= C) by nia.
      repeat split; auto; try (intros; lia).
    - rewrite down_to_S.
      destruct (IH (S k) ltac:(lia)) as [Il [Iu [Ik [Id Ie]]]].
      set (s := down_to (S k) j (reduce_step R) a) in *.
      unfold reduce_step. replace (S k - 1)%nat with k by lia.
      set (x := get s (S k)) in *.
      assert (Hsk : get s k = get a k) by (apply Iu; lia).
      pose proof (a_range k) as Hak. pose proof (a_range (S k)) as Hak1.
      assert (Hx : 0 <= x < 2 ^ 64) by lia.
      assert (Hq : 0 <= x / R <= C).
      { split; [apply Z.div_pos; lia|].
        assert (x / R < C + 1); [|lia].
        apply Z.div_lt_upper_bound; nia. }
      rewrite Hsk, add64_small by lia.
      set (s1 := upd s k (get a k + x / R)).
      assert (Hs1 : get s1 (S k) = x) by (unfold s1; rewrite get_upd_ne by lia; reflexivity).
      rewrite Hs1.
      assert (Hl1 : length s1 = S hi) by (unfold s1; rewrite length_upd; exact Il).
      split; [rewrite length_upd; exact Hl1|].
      split; [intros m Hm; unfold s1; rewrite !get_upd_ne by lia; apply Iu; lia|].
      split; [unfold s1; rewrite get_upd_ne by lia; rewrite get_upd_eq by lia; lia|].
      split.
      + intros m Hm. destruct (Nat.eq_dec m (S k)) as [->|Hne].
        * rewrite get_upd_eq by lia. apply Z.mod_pos_bound. lia.
        * unfold s1. rewrite !get_upd_ne by lia. apply Id. lia.
      + rewrite (evalf_upd R (get s1) (get (upd s1 (S k) (x mod R))) (S hi) (S k))
          by (try lia; intros m Hm; apply get_upd_ne; lia).
        rewrite (evalf_upd R (get s) (get s1) (S hi) k)
          by (try lia; intros m Hm; unfold s1; apply get_upd_ne; lia).
        rewrite get_upd_eq, Hs1 by lia.
        unfold s1 at 1. rewrite get_upd_eq by lia. rewrite Hsk, Ie.
        replace (Z.of_nat (S hi - 1 - k)) with (Z.succ (Z.of_nat (S hi - 1 - S k))) by lia.
        rewrite Z.pow_succ_r by lia.
        pose proof (Z.div_mod x R ltac:(lia)) as Hdm.
        replace (x mod R - x) with (- (R * (x / R))) by lia. ring.
Qed.

Lemma carry_spec :
    let r := for_down hi (reduce_step R) a in
    length r = S hi /\
    get a 0 <= get r 0 <= get a 0 + C /\
    (forall m, (0 < m <= hi)%nat -> 0 <= get r m < R) /\
    evalf R (get r) (S hi) = evalf R (get a) (S hi).
Proof.
    cbv zeta. rewrite for_down_down_to.
    destruct (carry_inv hi 0 ltac:(lia)) as [Il [_ [Ik [Id Ie]]]].
    repeat split; auto; try apply Ik; apply Id; auto.
Qed.
End Carry.

Lemma for_down_ext {S : Type} (hi : nat) (f g : nat -> S -> S) (s : S) :
  (forall i x, f i x = g i x) -> for_down hi f s = for_down hi g s.
Proof.
  intros H. unfold for_down. revert s.
  induction (rev (seq 1 hi)) as [|i l IH]; intros s; [reflexivity|].
  cbn [fold_left]. rewrite H. apply IH.
Qed.

(** ** Checks on the tables *)

Lemma forallb_seq (f : nat -> bool) (n m : nat) :
  forallb f (seq 0 n) = true -> (m < n)%nat -> f m = true.
Proof.
  intros H Hm. rewrite forallb_forall in H. apply H. apply in_seq. lia.
Qed.

Lemma table_nonneg_get2 (t : list (list Z)) :
  table_nonneg t = true -> forall i j, 0 <= get2 t i j.
Proof.
  unfold table_nonneg, get2, get. intros H i j. rewrite forallb_forall in H.
  destruct (Nat.lt_ge_cases i (length t)) as [Hi|Hi].
  - specialize (H (nth i t []) (nth_In t [] Hi)). rewrite forallb_forall in H.
    destruct (Nat.lt_ge_cases j (length (nth i t []))) as [Hj|Hj].
    + specialize (H _ (nth_In (nth i t []) 0 Hj)). lia.
    + rewrite (nth_overflow _ 0 Hj). lia.
  - rewrite (nth_overflow t [] Hi). destruct j; simpl; lia.
Qed.

Lemma table_rows_spec (R B : Z) (t : list (list Z)) (n cols : nat) (i : nat) :
  table_rows R B t n cols = true -> (i < n)%nat ->
  evalf R (get2 t i) cols = B ^ Z.of_nat (n - 1 - i).
Proof.
  intros H Hi. apply (forallb_seq _ n i) in H; [|exact Hi].
  apply Z.eqb_eq in H. exact H.
Qed.

Lemma columns_below_spec (M limit : Z) (t : list (list Z)) (lo k cols : nat)
    (start : nat -> Z) (m : nat) :
  columns_below M limit t lo k cols start = true -> (m < cols)%nat ->
  start m + M * colsum (fun _ => 1) t lo k m < limit.
Proof.
  intros H Hm. apply (forallb_seq _ cols m) in H; [|exact Hm].
  apply Z.ltb_lt in H. exact H.
Qed.

(** The value accumulated by a multiply-accumulate over a whole table. *)
Lemma colsum_value (R B : Z) (t : list (list Z)) (c : nat -> Z) (n cols : nat) :
  table_rows R B t n cols = true ->
  evalf R (colsum c t 0 n) cols = evalf B c n.
Proof.
  intros H. rewrite evalf_colsum. cbn [Nat.add].
  apply lincomb_pow. intros i Hi. apply (table_rows_spec R B t n cols i H Hi).
Qed.

(** ** The digits of one intermediate entry *)

Lemma dg_spec (v : Z) :
  0 <= v < r1Div ->
  evalf 58 (fun t => dg t v) 5 = v /\ forall t, (t < 5)%nat -> 0 <= dg t v < 58.
Proof.
  unfold r1Div. intros Hv.
  assert (H4 : 0 <= v / 11316496 < 58).
  { split; [apply Z.div_pos; lia|apply Z.div_lt_upper_bound; lia]. }
  assert (Hm : forall x, 0 <= x mod 58 < 58) by (intros; apply Z.mod_pos_bound; lia).
  assert (Hu : forall x, 0 <= x < 58 -> u8 x = x)
    by (intros x Hx; unfold u8; apply Z.mod_small; lia).
  split.
  - cbn [evalf dg]. rewrite !Hu by auto.
    rewrite Z.div_1_r.
    replace 11316496 with (58 * (58 * (58 * 58))) by reflexivity.
    replace 195112 with (58 * (58 * 58)) by reflexivity.
    replace 3364 with (58 * 58) by reflexivity.
    rewrite <- !Z.div_div by lia.
    pose proof (Z.div_mod v 58 ltac:(lia)).
    pose proof (Z.div_mod (v / 58) 58 ltac:(lia)).
    pose proof (Z.div_mod (v / 58 / 58) 58 ltac:(lia)).
    pose proof (Z.div_mod (v / 58 / 58 / 58) 58 ltac:(lia)).
    assert (E : (v / 58 / 58 / 58 / 58) mod 58 = v / 58 / 58 / 58 / 58).
    { apply Z.mod_small. rewrite !Z.div_div by lia. exact H4. }
    pose proof (Z.div_mod (v / 58 / 58 / 58) 58 ltac:(lia)). lia.
  - intros t Ht.
    destruct t as [|[|[|[|[|t]]]]]; try lia; cbn [dg]; rewrite Hu; auto.
Qed.

(** ** The expansion into raw base-58 digits *)

Lemma enc_raw_inv (inter : list Z) (n k : nat) :
  (k <= n)%nat ->
  let s := for_up 0 k (enc_raw_step inter) (repeat 0 (n * 5)) in
  length s = (n * 5)%nat /\
  forall i t, (i < k)%nat -> (t < 5)%nat -> get s (5 * i + t) = dg t (u32 (get inter i)).
Proof.
  induction k as [|k IH]; intros Hk; cbv zeta.
  - split; [apply repeat_length|]. intros; lia.
  - destruct (IH ltac:(lia)) as [Il Ig]. rewrite for_up_S. cbn [Nat.add].
    set (s := for_up 0 k (enc_raw_step inter) (repeat 0 (n * 5))) in *.
    unfold enc_raw_step. split; [rewrite !length_upd; exact Il|].
    intros i t Hi Ht. destruct (Nat.eq_dec i k) as [->|Hne].
    + destruct t as [|[|[|[|[|t]]]]]; try lia; cbn [dg];
        repeat (rewrite get_upd_ne by lia);
        rewrite get_upd_eq by (rewrite ?length_upd; lia); reflexivity.
    + rewrite !get_upd_ne by lia. apply Ig; lia.
Qed.

Lemma enc_raw_spec (inter : list Z) (n : nat) :
  (forall i, (i < n)%nat -> 0 <= get inter i < r1Div) ->
  let raw := for_up 0 n (enc_raw_step inter) (repeat 0 (n * 5)) in
  length raw = (n * 5)%nat /\
  digits_in 58 raw /\
  eval 58 raw = evalf r1Div (get inter) n.
Proof.
  intros Hi. cbv zeta.
  destruct (enc_raw_inv inter n n (Nat.le_refl n)) as [Hl Hg].
  set (raw := for_up 0 n (enc_raw_step inter) (repeat 0 (n * 5))) in *.
  assert (Hu : forall i, (i < n)%nat -> u32 (get inter i) = get inter i).
  { intros i Hin. unfold u32. apply Z.mod_small. specialize (Hi i Hin).
    unfold r1Div in Hi. lia. }
  split; [exact Hl|]. split.
  - apply digits_in_get. intros p Hp. rewrite Hl in Hp.
    pose proof (Nat.div_mod_eq p 5) as E.
    pose proof (Nat.mod_upper_bound p 5 ltac:(lia)) as Hm.
    assert (Hd : (p / 5 < n)%nat) by (apply Nat.Div0.div_lt_upper_bound; lia).
    rewrite E, Hg, Hu by assumption.
    apply (dg_spec (get inter (p / 5)) (Hi _ Hd)). exact Hm.
  - rewrite eval_evalf, Hl. replace (n * 5)%nat with (5 * n)%nat by lia.
    symmetry. change r1Div with (58 ^ Z.of_nat 5).
    apply evalf_group. intros i Hin.
    rewrite (evalf_ext 58 _ (fun t => dg t (get inter i)) 5)
      by (intros t Ht; rewrite Hg, Hu by assumption; reflexivity).
    symmetry. apply (dg_spec (get inter i) (Hi i Hin)).
Qed.

(** ** The input bytes as limbs *)

Lemma limbs_spec (n : nat) (in_ : list Z) :
  length in_ = (4 * n)%nat -> digits_in 256 in_ ->
  (forall i, 0 <= get (load_limbs n in_) i < 2 ^ 32) /\
  evalf (2 ^ 32) (get (load_limbs n in_)) n = eval 256 in_.
Proof.
  intros Hl Hd. rewrite digits_in_get in Hd. split.
  - intros i. destruct (Nat.lt_ge_cases i n) as [Hi|Hi].
    + rewrite get_load_limbs by exact Hi.
      change (2 ^ 32) with (256 ^ Z.of_nat 4). apply evalf_bound; [lia|].
      intros t Ht. apply Hd. lia.
    + rewrite get_overflow by (rewrite length_load_limbs; exact Hi). lia.
  - rewrite eval_evalf, Hl. change (2 ^ 32) with (256 ^ Z.of_nat 4).
    apply evalf_group. intros i Hi. apply get_load_limbs. exact Hi.
Qed.

(** ** Encode32: the raw digits are the base-58 digits of the input *)

Lemma encTable32_nonneg : table_nonneg encTable32 = true.
Proof. vm_compute. reflexivity. Qed.

Lemma encTable32_rows : table_rows r1Div (2 ^ 32) encTable32 8 8 = true.
Proof. vm_compute. reflexivity. Qed.

Lemma encTable32_columns :
  columns_below (2 ^ 32 - 1) (2 ^ 64 - 2 ^ 35) encTable32 0 8 8 (fun _ => 0) = true.
Proof. vm_compute. reflexivity. Qed.

(** After the carry loop every intermediate entry is below 58^5, the
    leading one because the value is below 58^(5*n). *)
Lemma enc_carry_digits (a : list Z) (hi : nat) (X : Z) :
  length a = S hi ->
  (forall m, 0 <= get a m <= 2 ^ 64 - 1 - 2 ^ 35) ->
  evalf r1Div (get a) (S hi) = X ->
  X < r1Div ^ Z.of_nat (S hi) ->
  let r := for_down hi enc_reduce a in
  length r = S hi /\
  (forall i, (i < S hi)%nat -> 0 <= get r i < r1Div) /\
  evalf r1Div (get r) (S hi) = X.
Proof.
  intros Hl Ha HX Hlt. cbv zeta.
  destruct (carry_spec r1Div (2 ^ 35) a hi) as [Rl [R0 [Rd Re]]];
    try assumption; try (unfold r1Div; lia).
  change (for_down hi (reduce_step r1Div) a) with (for_down hi enc_reduce a) in *.
  set (r := for_down hi enc_reduce a) in *.
  split; [exact Rl|]. split; [|rewrite Re; exact HX].
  intros i Hi. destruct i as [|i]; [|apply Rd; lia].
  split; [specialize (Ha O); lia|].
  rewrite HX in Re. rewrite evalf_shift in Re.
  assert (Hrest : 0 <= evalf r1Div (fun m => get r (S m)) hi).
  { apply evalf_nonneg; [unfold r1Div; lia|]. intros m Hm. apply Rd. lia. }
  rewrite Nat2Z.inj_succ, Z.pow_succ_r in Hlt by lia.
  assert (0 < r1Div ^ Z.of_nat hi) by (apply Z.pow_pos_nonneg; unfold r1Div; lia).
  nia.
Qed.

Lemma enc32_raw_spec (in_ : list Z) :
  length in_ = 32%nat -> digits_in 256 in_ ->
  let raw := enc32_rawBase58 in_ in
  length raw = 45%nat /\ digits_in 58 raw /\ eval 58 raw = eval 256 in_.
Proof.
  intros Hl Hd. cbv zeta. unfold enc32_rawBase58.
  destruct (limbs_spec 8 in_ Hl Hd) as [Hlr Hlv].
  pose proof (table_nonneg_get2 _ encTable32_nonneg) as Ht.
  set (limbs := load_limbs 8 in_) in *. clearbody limbs.
  destruct (enc_mac_spec encTable32 limbs 8 Ht Hlr 0 8 (repeat 0 inter32sz))
    as [Ml [M0 Mg]].
  { reflexivity. }
  { intros m Hm. rewrite get_repeat. split; [lia|].
    pose proof (columns_below_spec _ _ _ _ _ _ _ m encTable32_columns Hm). lia. }
  set (inter1 := enc_mac encTable32 0 8 8 limbs (repeat 0 inter32sz)) in *. clearbody inter1.
  rewrite get_repeat in M0.
  assert (Hv : evalf r1Div (get inter1) 9 = eval 256 in_).
  { rewrite evalf_shift, M0.
    rewrite (evalf_ext r1Div _ (colsum (get limbs) encTable32 0 8) 8)
      by (intros m Hm; rewrite Mg, get_repeat by exact Hm; apply Z.add_0_l).
    rewrite (colsum_value r1Div (2 ^ 32) encTable32 (get limbs) 8 8 encTable32_rows).
    rewrite Hlv, Z.mul_0_l. apply Z.add_0_l. }
  destruct (enc_carry_digits inter1 8 (eval 256 in_)) as [Cl [Cd Cv]]; auto.
  { intros m. destruct m as [|m]; [rewrite M0; lia|].
    destruct (Nat.lt_ge_cases m 8) as [Hm|Hm].
    - rewrite Mg, get_repeat by exact Hm.
      pose proof (columns_below_spec _ _ _ _ _ _ _ m encTable32_columns Hm) as Hc.
      pose proof (colsum_bound (get limbs) encTable32 0 8 m (2 ^ 32 - 1)) as Hb.
      assert (Hlr' : forall i, 0 <= get limbs i <= 2 ^ 32 - 1)
        by (intros i; specialize (Hlr i); lia).
      specialize (Hb Hlr' Ht). lia.
    - rewrite get_overflow by (rewrite Ml; lia). lia. }
  { pose proof (eval_bound 256 in_ ltac:(lia) Hd) as Hb. rewrite Hl in Hb.
    eapply Z.lt_trans; [apply Hb|]. vm_compute. reflexivity. }
  set (inter2 := for_down 8 enc_reduce inter1) in *. clearbody inter2.
  destruct (enc_raw_spec inter2 inter32sz Cd) as [Rl [Rd Rv]].
  split; [exact Rl|]. split; [exact Rd|]. exact (eq_trans Rv Cv).
Qed.

(** ** Encode64 *)

(** One carry step that does not wrap. *)
Lemma reduce_step_spec (R : Z) (s : list Z) (k n : nat) :
  1 < R -> length s = n -> (S k < n)%nat ->
  0 <= get s k -> 0 <= get s (S k) ->
  get s k + get s (S k) / R < 2 ^ 64 ->
  let r := reduce_step R (S k) s in
  length r = n /\
  get r k = get s k + get s (S k) / R /\
  get r (S k) = get s (S k) mod R /\
  (forall m, m <> k -> m <> S k -> get r m = get s m) /\
  evalf R (get r) n = evalf R (get s) n.
Proof.
  intros HR Hl Hk H0 H1 Hb. cbv zeta. unfold reduce_step.
  replace (S k - 1)%nat with k by lia.
  assert (Hq : 0 <= get s (S k) / R) by (apply Z.div_pos; lia).
  rewrite add64_small by lia.
  set (x := get s (S k)) in *.
  set (s1 := upd s k (get s k + x / R)).
  assert (Hs1 : get s1 (S k) = x) by (unfold s1; rewrite get_upd_ne by lia; reflexivity).
  assert (Hl1 : length s1 = n) by (unfold s1; rewrite length_upd; exact Hl).
  rewrite Hs1.
  split; [rewrite length_upd; exact Hl1|].
  split; [rewrite get_upd_ne by lia; unfold s1; apply get_upd_eq; lia|].
  split; [apply get_upd_eq; lia|].
  split; [intros m Hm1 Hm2; unfold s1; rewrite !get_upd_ne by lia; reflexivity|].
  rewrite (evalf_upd R (get s1) (get (upd s1 (S k) (x mod R))) n (S k))
    by (try lia; intros m Hm; apply get_upd_ne; lia).
  rewrite (evalf_upd R (get s) (get s1) n k)
    by (try lia; intros m Hm; unfold s1; apply get_upd_ne; lia).
  rewrite get_upd_eq, Hs1 by lia.
  unfold s1 at 1. rewrite get_upd_eq by lia.
  replace (Z.of_nat (n - 1 - k)) with (Z.succ (Z.of_nat (n - 1 - S k))) by lia.
  rewrite Z.pow_succ_r by lia.
  pose proof (Z.div_mod x R ltac:(lia)) as Hdm.
  replace (x mod R - x) with (- (R * (x / R))) by lia. ring.
Qed.

(** The mini-reduction of Encode64 is the carry step at index 16. *)
Lemma mini_reduction (a : list Z) :
  upd (upd a 15 (add64 (get a 15) (get a 16 / r1Div))) 16
      (get (upd a 15 (add64 (get a 15) (get a 16 / r1Div))) 16 mod r1Div)
  = reduce_step r1Div 16 a.
Proof. reflexivity. Qed.

Lemma colsum_split (c : nat -> Z) (t : list (list Z)) (k1 k2 m : nat) :
  colsum c t 0 (k1 + k2) m = colsum c t 0 k1 m + colsum c t k1 k2 m.
Proof.
  induction k2 as [|k2 IH]; [rewrite Nat.add_0_r; cbn [colsum]; ring|].
  rewrite Nat.add_succ_r. cbn [colsum Nat.add]. rewrite IH. ring.
Qed.

Lemma encTable64_nonneg : table_nonneg encTable64 = true.
Proof. vm_compute. reflexivity. Qed.

Lemma encTable64_rows : table_rows r1Div (2 ^ 32) encTable64 16 17 = true.
Proof. vm_compute. reflexivity. Qed.

Lemma encTable64_columns_first :
  columns_below (2 ^ 32 - 1) (2 ^ 64 - 2 ^ 35) encTable64 0 8 17 (fun _ => 0) = true.
Proof. vm_compute. reflexivity. Qed.

Lemma encTable64_columns_second :
  columns_below (2 ^ 32 - 1) (2 ^ 64 - 2 ^ 35) encTable64 8 8 17
    (fun m => if Nat.eqb m 15 then r1Div
              else (2 ^ 32 - 1) * colsum (fun _ => 1) encTable64 0 8 m + 2 ^ 35) = true.
Proof. vm_compute. reflexivity. Qed.

Section Enc64.
Variable table : list (list Z).
Hypothesis table_ok : table_nonneg table = true.
Hypothesis table_rows_ok : table_rows r1Div (2 ^ 32) table 16 17 = true.
Hypothesis columns_first :
    columns_below (2 ^ 32 - 1) (2 ^ 64 - 2 ^ 35) table 0 8 17 (fun _ => 0) = true.
Hypothesis columns_second :
    columns_below (2 ^ 32 - 1) (2 ^ 64 - 2 ^ 35) table 8 8 17
      (fun m => if Nat.eqb m 15 then r1Div
                else (2 ^ 32 - 1) * colsum (fun _ => 1) table 0 8 m + 2 ^ 35) = true.

Lemma enc64_core (limbs : list Z) (X : Z) :
    (forall i, 0 <= get limbs i < 2 ^ 32) ->
    evalf (2 ^ 32) (get limbs) 16 = X ->
    X < r1Div ^ Z.of_nat 18 ->
    let inter1 := enc_mac table 0 8 17 limbs (repeat 0 18) in
    let inter2 :=
      upd (upd inter1 15 (add64 (get inter1 15) (get inter1 16 / r1Div))) 16
          (get (upd inter1 15 (add64 (get inter1 15) (get inter1 16 / r1Div))) 16
           mod r1Div) in
    let inter3 := enc_mac table 8 8 17 limbs inter2 in
    let raw := for_up 0 18 (enc_raw_step (for_down 17 enc_reduce inter3)) (repeat 0 (18 * 5)) in
    length raw = 90%nat /\ digits_in 58 raw /\ eval 58 raw = X.
Proof.
  intros Hlr Hlv HX. cbv zeta.
  pose proof (table_nonneg_get2 _ table_ok) as Ht.
  assert (Hlr' : forall i, 0 <= get limbs i <= 2 ^ 32 - 1)
    by (intros i; specialize (Hlr i); lia).
  assert (Hc1 : forall lo k m, 0 <= colsum (fun _ => 1) table lo k m).
  { intros lo k m. apply (colsum_bound (fun _ => 1) table lo k m 1); [intros; lia|exact Ht]. }
  (* the first eight limbs *)
  destruct (enc_mac_spec table limbs 17 Ht Hlr 0 8 (repeat 0 18))
    as [Ml [M0 Mg]].
  { reflexivity. }
  { intros m Hm. rewrite get_repeat. split; [lia|].
    pose proof (columns_below_spec _ _ _ _ _ _ _ m columns_first Hm). lia. }
  set (inter1 := enc_mac table 0 8 17 limbs (repeat 0 18)) in *. clearbody inter1.
  rewrite get_repeat in M0.
  assert (Hb1 : forall m, (m < 17)%nat ->
            0 <= get inter1 (S m) <= (2 ^ 32 - 1) * colsum (fun _ => 1) table 0 8 m).
  { intros m Hm. rewrite Mg, get_repeat by exact Hm.
    pose proof (colsum_bound (get limbs) table 0 8 m (2 ^ 32 - 1) Hlr' Ht). lia. }
  (* the mini-reduction *)
  rewrite (mini_reduction inter1).
  assert (Hq : 0 <= get inter1 16 / r1Div < 2 ^ 35).
  { pose proof (Hb1 15%nat ltac:(lia)) as H15.
    pose proof (columns_below_spec _ _ _ _ _ _ _ 15%nat columns_first ltac:(lia)).
    split; [apply Z.div_pos; unfold r1Div; lia|].
    apply Z.div_lt_upper_bound; unfold r1Div; lia. }
  destruct (reduce_step_spec r1Div inter1 15 18) as [Ql [Q15 [Q16 [Qo Qe]]]];
    try (unfold r1Div; lia); try exact Ml.
  { apply (Hb1 14%nat). lia. }
  { apply (Hb1 15%nat). lia. }
  { pose proof (Hb1 14%nat ltac:(lia)).
    pose proof (columns_below_spec _ _ _ _ _ _ _ 14%nat columns_first ltac:(lia)).
    lia. }
  set (inter2 := reduce_step r1Div 16 inter1) in *. clearbody inter2.
  assert (Hb2 : forall m, (m < 17)%nat ->
            0 <= get inter2 (S m)
              <= if Nat.eqb m 15 then r1Div
                 else (2 ^ 32 - 1) * colsum (fun _ => 1) table 0 8 m + 2 ^ 35).
  { intros m Hm. destruct (Nat.eq_dec m 14) as [->|H14]; [|destruct (Nat.eq_dec m 15) as [->|H15]].
    - rewrite Q15. pose proof (Hb1 14%nat ltac:(lia)). cbn [Nat.eqb]. lia.
    - rewrite Q16. pose proof (Z.mod_pos_bound (get inter1 16) r1Div ltac:(unfold r1Div; lia)).
      cbn [Nat.eqb]. lia.
    - rewrite Qo by lia. pose proof (Hb1 m Hm).
      replace (Nat.eqb m 15) with false by (symmetry; apply Nat.eqb_neq; exact H15). lia. }
  (* the last eight limbs *)
  destruct (enc_mac_spec table limbs 17 Ht Hlr 8 8 inter2) as [Nl [N0 Ng]].
  { exact Ql. }
  { intros m Hm. pose proof (Hb2 m Hm).
    pose proof (columns_below_spec _ _ _ _ _ _ _ m columns_second Hm).
    cbv beta in *. specialize (Hc1 8%nat 8%nat m). lia. }
  set (inter3 := enc_mac table 8 8 17 limbs inter2) in *. clearbody inter3.
  assert (Hv : evalf r1Div (get inter3) 18 = X).
  { rewrite (evalf_shift r1Div (get inter3) 17), N0, (Qo O) by lia. rewrite M0.
    rewrite (evalf_ext r1Div _
               (fun m => get inter2 (S m) + colsum (get limbs) table 8 8 m) 17)
      by (intros m Hm; apply Ng; exact Hm).
    rewrite evalf_plus.
    assert (E2 : evalf r1Div (fun m => get inter2 (S m)) 17
                 = evalf r1Div (colsum (get limbs) table 0 8) 17).
    { pose proof Qe as Qe'.
      rewrite (evalf_shift r1Div (get inter2) 17), (evalf_shift r1Div (get inter1) 17) in Qe'.
      rewrite (Qo O), M0 in Qe' by lia.
      rewrite (evalf_ext r1Div (fun m => get inter1 (S m))
                 (colsum (get limbs) table 0 8) 17) in Qe'
        by (intros m Hm; rewrite Mg, get_repeat by exact Hm; apply Z.add_0_l).
      rewrite !Z.mul_0_l, !Z.add_0_l in Qe'. exact Qe'. }
    rewrite E2.
    rewrite <- (colsum_value r1Div (2 ^ 32) table (get limbs) 16 17 table_rows_ok) in Hlv.
    rewrite <- Hlv.
    rewrite (evalf_ext r1Div (colsum (get limbs) table 0 16)
               (fun m => colsum (get limbs) table 0 8 m + colsum (get limbs) table 8 8 m) 17)
      by (intros m Hm; apply (colsum_split _ _ 8 8 m)).
    rewrite evalf_plus. rewrite Z.mul_0_l. apply Z.add_0_l. }
  destruct (enc_carry_digits inter3 17 (X)) as [Cl [Cd Cv]]; auto.
  { intros m. destruct m as [|m]; [rewrite N0, (Qo O), M0 by lia; lia|].
    destruct (Nat.lt_ge_cases m 17) as [Hm|Hm].
    - rewrite Ng by exact Hm. pose proof (Hb2 m Hm).
      pose proof (columns_below_spec _ _ _ _ _ _ _ m columns_second Hm) as Hc.
      cbv beta in Hc.
      pose proof (colsum_bound (get limbs) table 8 8 m (2 ^ 32 - 1) Hlr' Ht). lia.
    - rewrite get_overflow by (rewrite Nl; lia). lia. }
  set (inter4 := for_down 17 enc_reduce inter3) in *. clearbody inter4.
  destruct (enc_raw_spec inter4 18 Cd) as [Rl [Rd Rv]].
  split; [exact Rl|]. split; [exact Rd|]. exact (eq_trans Rv Cv).
Qed.
End Enc64.

Lemma enc64_raw_spec (in_ : list Z) :
  length in_ = 64%nat -> digits_in 256 in_ ->
  let raw := enc64_rawBase58 in_ in
  length raw = 90%nat /\ digits_in 58 raw /\ eval 58 raw = eval 256 in_.
Proof.
  intros Hl Hd. destruct (limbs_spec 16 in_ Hl Hd) as [Hlr Hlv].
  apply (enc64_core encTable64 encTable64_nonneg encTable64_rows
           encTable64_columns_first encTable64_columns_second
           (load_limbs 16 in_) (eval 256 in_) Hlr Hlv).
  pose proof (eval_bound 256 in_ ltac:(lia) Hd) as Hb. rewrite Hl in Hb.
  eapply Z.lt_trans; [apply Hb|]. vm_compute. reflexivity.
Qed.

(** ** Characters and digits *)

Lemma alphabet_lut :
  forallb (fun d => let c := get alphabet d in
                    valid_char c && (digit_of c =? Z.of_nat d)) (seq 0 58) = true.
Proof. vm_compute. reflexivity. Qed.

Lemma lut_alphabet :
  forallb (fun k => let c := 49 + Z.of_nat k in
                    implb (valid_char c)
                      ((0 <=? digit_of c) && (digit_of c <? 58)
                       && (get alphabet (Z.to_nat (digit_of c)) =? c))) (seq 0 74) = true.
Proof. vm_compute. reflexivity. Qed.

Lemma alphabet_digit (d : nat) :
  (d < 58)%nat ->
  valid_char (get alphabet d) = true /\ digit_of (get alphabet d) = Z.of_nat d.
Proof.
  intros Hd. pose proof (forallb_seq _ 58 d alphabet_lut Hd) as H. cbv beta zeta in H.
  apply andb_true_iff in H. destruct H as [H1 H2]. apply Z.eqb_eq in H2. auto.
Qed.

Lemma valid_char_range (c : Z) : valid_char c = true -> 49 <= c <= 122.
Proof.
  unfold valid_char. intros H. apply andb_true_iff in H. destruct H as [H _].
  apply andb_true_iff in H. destruct H as [H1 H2].
  apply Z.leb_le in H1. apply Z.leb_le in H2. lia.
Qed.

Lemma valid_char_digit (c : Z) :
  valid_char c = true ->
  0 <= digit_of c < 58 /\ get alphabet (Z.to_nat (digit_of c)) = c.
Proof.
  intros Hv. pose proof (valid_char_range c Hv) as Hr.
  pose proof (forallb_seq _ 74 (Z.to_nat (c - 49)) lut_alphabet ltac:(lia)) as H.
  cbv beta zeta in H. replace (49 + Z.of_nat (Z.to_nat (c - 49))) with c in H by lia.
  rewrite Hv in H. cbn [implb] in H.
  apply andb_true_iff in H. destruct H as [H H3].
  apply andb_true_iff in H. destruct H as [H1 H2].
  apply Z.leb_le in H1. apply Z.ltb_lt in H2. apply Z.eqb_eq in H3. lia.
Qed.

(** The validation loop accepts exactly the texts over the alphabet, as
    long as no character is below '1'. *)
Lemma dec_validate_true (s : list Z) :
  dec_validate s = Ret true -> forallb valid_char s = true.
Proof.
  induction s as [|c s IH]; intros H; [reflexivity|].
  cbn [dec_validate forallb] in *. unfold index in H.
  destruct (c - inverseLUTOffset >? inverseLUTSentinel) eqn:Hc.
  - change (inverseLUTSentinel <? 0) with false in H.
    change (nth_error inverseLUT (Z.to_nat inverseLUTSentinel)) with (Some 255) in H.
    cbn in H. discriminate.
  - destruct (c - inverseLUTOffset <? 0) eqn:Hn; [discriminate|].
    unfold inverseLUTSentinel, inverseLUTOffset in *.
    destruct (nth_error inverseLUT (Z.to_nat (c - 49))) as [v|] eqn:Hv; [|discriminate].
    destruct (v =? invalidChar) eqn:Hi; [discriminate|].
    rewrite (IH H), andb_true_r. unfold valid_char.
    rewrite Z.gtb_ltb in Hc. apply Z.ltb_ge in Hc. apply Z.ltb_ge in Hn.
    destruct (Z.eq_dec c 123) as [->|Hne];
      [vm_compute in Hv; injection Hv as <-; discriminate|].
    apply andb_true_iff. split; [apply andb_true_iff; split; apply Z.leb_le; lia|].
    unfold get. rewrite (nth_error_nth _ _ 0 Hv). unfold invalidChar in Hi.
    rewrite Hi. reflexivity.
Qed.

Lemma dec_validate_valid (s : list Z) :
  forallb valid_char s = true -> dec_validate s = Ret true.
Proof.
  induction s as [|c s IH]; intros H; [reflexivity|].
  cbn [dec_validate forallb] in *. apply andb_true_iff in H. destruct H as [Hc Hs].
  pose proof (valid_char_range c Hc) as Hr.
  unfold valid_char in Hc. apply andb_true_iff in Hc. destruct Hc as [_ Hc].
  unfold inverseLUTSentinel, inverseLUTOffset, index.
  replace (c - 49 >? 1 + 122 - 49) with false
    by (symmetry; rewrite Z.gtb_ltb; apply Z.ltb_ge; lia).
  replace (c - 49 <? 0) with false by (symmetry; apply Z.ltb_ge; lia).
  assert (Hlen : (Z.to_nat (c - 49) < length inverseLUT)%nat) by (cbn; lia).
  destruct (nth_error inverseLUT (Z.to_nat (c - 49))) as [v|] eqn:Hv;
    [|apply nth_error_None in Hv; lia].
  unfold get in Hc. rewrite (nth_error_nth _ _ 0 Hv) in Hc. unfold invalidChar.
  destruct (v =? 255); [discriminate|]. apply IH. exact Hs.
Qed.

Lemma valid_digits (s : list Z) :
  forallb valid_char s = true -> digits_in 58 (map digit_of s).
Proof.
  intros H. unfold digits_in. rewrite Forall_map, Forall_forall. intros c Hc.
  rewrite forallb_forall in H. apply (valid_char_digit c (H c Hc)).
Qed.

(** ** The decoders, stage by stage *)

(** A loop that fills entry [j] at the iterations [j] that satisfy [c]. *)
Lemma for_up_fill_if (c : nat -> bool) (f : nat -> Z) (k : nat) (a : list Z) :
  let r := for_up 0 k (fun j a => if c j then upd a j (f j) else a) a in
  length r = length a /\
  forall j, get r j =
    if (Nat.ltb j k && Nat.ltb j (length a) && c j)%bool then f j else get a j.
Proof.
  induction k as [|k [IHl IHg]]; cbv zeta.
  - split; [reflexivity|]. intros j. reflexivity.
  - rewrite for_up_S. cbn [Nat.add].
    set (s := for_up 0 k (fun j a => if c j then upd a j (f j) else a) a) in *.
    split.
    + destruct (c k); [rewrite length_upd|]; exact IHl.
    + intros j. destruct (Nat.eq_dec j k) as [->|Hne].
      * replace (Nat.ltb k (S k)) with true by (symmetry; apply Nat.ltb_lt; lia).
        cbn [andb]. destruct (c k) eqn:Hc.
        -- rewrite get_upd, Nat.eqb_refl, IHl. cbn [andb].
           rewrite andb_true_r.
           destruct (Nat.ltb k (length a)); [reflexivity|].
           rewrite IHg, Nat.ltb_irrefl. reflexivity.
        -- rewrite andb_false_r, IHg, Nat.ltb_irrefl. reflexivity.
      * assert (E : get (if c k then upd s k (f k) else s) j = get s j)
          by (destruct (c k); [apply get_upd_ne; lia|reflexivity]).
        rewrite E, IHg.
        destruct (Nat.ltb_spec j k), (Nat.ltb_spec j (S k)); try lia; reflexivity.
Qed.

Lemma get_map (f : Z -> Z) (s : list Z) (i : nat) :
  (i < length s)%nat -> get (map f s) i = f (get s i).
Proof.
  intros H. unfold get. rewrite (nth_indep _ 0 (f 0)) by (rewrite length_map; exact H).
  apply map_nth.
Qed.

Lemma dec_raw_spec (rawsz : nat) (s : list Z) :
  (length s <= rawsz)%nat -> dec_raw rawsz s = raw_of rawsz s.
Proof.
  intros Hs. unfold dec_raw, raw_of.
  destruct (for_up_fill_if (fun j => (rawsz - length s <=? j)%nat)
              (fun j => get inverseLUT
                          (Z.to_nat (u8 (get s (j - (rawsz - length s)) - inverseLUTOffset))))
              rawsz (repeat 0 rawsz)) as [Hl Hg].
  cbv zeta in Hl, Hg. rewrite repeat_length in Hl.
  apply list_get_ext.
  - rewrite Hl, length_app, repeat_length, length_map. lia.
  - intros j Hj. rewrite Hl in Hj. rewrite Hg, repeat_length, get_repeat.
    replace (Nat.ltb j rawsz) with true by (symmetry; apply Nat.ltb_lt; lia).
    cbn [andb]. destruct (Nat.leb_spec (rawsz - length s) j) as [Hp|Hp].
    + rewrite get_app_r_sub by (rewrite repeat_length; exact Hp).
      rewrite repeat_length, get_map by lia. reflexivity.
    + rewrite get_app_l by (rewrite repeat_length; lia). rewrite get_repeat. reflexivity.
Qed.

Lemma raw_of_spec (rawsz : nat) (s : list Z) :
  (length s <= rawsz)%nat -> forallb valid_char s = true ->
  length (raw_of rawsz s) = rawsz /\ digits_in 58 (raw_of rawsz s) /\
  eval 58 (raw_of rawsz s) = eval 58 (map digit_of s).
Proof.
  intros Hs Hv. unfold raw_of. split; [|split].
  - rewrite length_app, repeat_length, length_map. lia.
  - unfold digits_in. apply Forall_app. split.
    + apply Forall_forall. intros x Hx. apply repeat_spec in Hx. lia.
    + apply valid_digits. exact Hv.
  - rewrite eval_app.
    assert (E : forall n, eval 58 (repeat 0 n) = 0).
    { induction n as [|n IH]; [reflexivity|]. cbn [repeat eval]. rewrite IH. lia. }
    rewrite E. lia.
Qed.

Lemma dec_inter_spec (n : nat) (raw : list Z) :
  length raw = (5 * n)%nat -> digits_in 58 raw ->
  let inter := dec_inter n raw in
  length inter = n /\
  (forall i, 0 <= get inter i <= r1Div - 1) /\
  evalf r1Div (get inter) n = eval 58 raw.
Proof.
  intros Hl Hd. cbv zeta. unfold dec_inter. rewrite digits_in_get in Hd.
  match goal with |- context [for_up 0 n (fun i a => upd a i (@?f i)) _] =>
    destruct (for_up_fill f n (repeat 0 n)) as [Fl Fg] end.
  cbv zeta beta in Fl, Fg. rewrite repeat_length in Fl, Fg.
  assert (Hi : forall i, (i < n)%nat ->
            get (dec_inter n raw) i = evalf 58 (fun t => get raw (5 * i + t)) 5
            /\ 0 <= get (dec_inter n raw) i <= r1Div - 1).
  { intros i Hin. unfold dec_inter. rewrite Fg.
    replace (Nat.ltb i n) with true by (symmetry; apply Nat.ltb_lt; lia).
    cbn [andb].
    pose proof (Hd (5 * i + 0)%nat ltac:(lia)).
    pose proof (Hd (5 * i + 1)%nat ltac:(lia)).
    pose proof (Hd (5 * i + 2)%nat ltac:(lia)).
    pose proof (Hd (5 * i + 3)%nat ltac:(lia)).
    pose proof (Hd (5 * i + 4)%nat ltac:(lia)).
    rewrite !mul64_small by lia.
    repeat match goal with
           | |- context [add64 ?a ?b] =>
               lazymatch a with
               | context [add64] => fail
               | _ => rewrite (add64_small a b) by lia
               end
           end.
    unfold r1Div. cbn [evalf]. lia. }
  fold (dec_inter n raw). split; [exact Fl|]. split.
  - intros i. destruct (Nat.lt_ge_cases i n) as [Hin|Hin]; [apply Hi; exact Hin|].
    rewrite get_overflow by (unfold dec_inter; rewrite Fl; exact Hin). unfold r1Div. lia.
  - rewrite eval_evalf, Hl. change r1Div with (58 ^ Z.of_nat 5).
    apply evalf_group. intros i Hin. apply Hi. exact Hin.
Qed.

(** *** The accumulators after the carry loop *)

Section Dec.
Variables (table : list (list Z)) (hi intersz : nat).
Hypothesis table_ok : table_nonneg table = true.
Hypothesis table_rows_ok : table_rows (2 ^ 32) r1Div table intersz (S hi) = true.
Hypothesis columns_ok :
    columns_below (r1Div - 1) (2 ^ 64 - 2 ^ 32) table 0 intersz (S hi) (fun _ => 0) = true.

Lemma dec_core (raw : list Z) :
    length raw = (5 * intersz)%nat -> digits_in 58 raw ->
    let b := for_down hi dec_reduce (dec_mac table (S hi) intersz (dec_inter intersz raw)) in
    length b = S hi /\
    0 <= get b 0 /\
    (forall m, (0 < m <= hi)%nat -> 0 <= get b m < 2 ^ 32) /\
    evalf (2 ^ 32) (get b) (S hi) = eval 58 raw.
Proof.
    intros Hl Hd. cbv zeta.
    destruct (dec_inter_spec intersz raw Hl Hd) as [Il [Ir Iv]].
    set (inter := dec_inter intersz raw) in *. clearbody inter.
    pose proof (table_nonneg_get2 _ table_ok) as Ht.
    destruct (dec_mac_spec table (S hi) intersz inter (r1Div - 1) Ht Ir) as [Ml Mg].
    { intros j Hj. pose proof (columns_below_spec _ _ _ _ _ _ _ j columns_ok Hj). lia. }
    set (b0 := dec_mac table (S hi) intersz inter) in *. clearbody b0.
    rewrite (for_down_ext hi dec_reduce (reduce_step (2 ^ 32)) b0 dec_reduce_step).
    destruct (carry_spec (2 ^ 32) (2 ^ 32) b0 hi) as [Cl [C0 [Cd Ce]]];
      try lia; try exact Ml.
    { intros m. destruct (Nat.lt_ge_cases m (S hi)) as [Hm|Hm].
      - rewrite (Mg m Hm).
        pose proof (columns_below_spec _ _ _ _ _ _ _ m columns_ok Hm) as Hc.
        pose proof (colsum_bound (get inter) table 0 intersz m (r1Div - 1) Ir Ht). lia.
      - rewrite get_overflow by (rewrite Ml; exact Hm). lia. }
    set (b := for_down hi (reduce_step (2 ^ 32)) b0) in *. clearbody b.
    split; [exact Cl|]. split.
    - rewrite (Mg O) in C0 by lia.
      pose proof (colsum_bound (get inter) table 0 intersz 0 (r1Div - 1) Ir Ht). lia.
    - split; [exact Cd|]. rewrite Ce.
      rewrite (evalf_ext (2 ^ 32) (get b0) (colsum (get inter) table 0 intersz) (S hi))
        by (intros m Hm; apply Mg; exact Hm).
      rewrite (colsum_value (2 ^ 32) r1Div table (get inter) intersz (S hi) table_rows_ok).
      exact Iv.
Qed.
End Dec.

(** *** Storing the accumulators as bytes *)

Lemma bt_spec (v : Z) :
  0 <= v < 2 ^ 32 ->
  evalf 256 (fun t => bt t v) 4 = v /\ forall t, (t < 4)%nat -> 0 <= bt t v < 256.
Proof.
  intros Hv.
  assert (Hm : forall x, 0 <= u8 x < 256) by (intros; unfold u8; apply Z.mod_pos_bound; lia).
  split; [|intros t Ht; destruct t as [|[|[|[|t]]]]; try lia; cbn [bt]; apply Hm].
  cbn [evalf bt]. unfold u8. rewrite !Z.shiftr_div_pow2 by lia.
  change (2 ^ 24) with (256 * (256 * 256)). change (2 ^ 16) with (256 * 256).
  change (2 ^ 8) with 256.
  rewrite <- !Z.div_div by lia.
  pose proof (Z.div_mod v 256 ltac:(lia)).
  pose proof (Z.div_mod (v / 256) 256 ltac:(lia)).
  pose proof (Z.div_mod (v / 256 / 256) 256 ltac:(lia)).
  assert (E : (v / 256 / 256 / 256) mod 256 = v / 256 / 256 / 256).
  { apply Z.mod_small. rewrite !Z.div_div by lia.
    split; [apply Z.div_pos; lia|apply Z.div_lt_upper_bound; lia]. }
  lia.
Qed.

Lemma dec_store_inv (b out : list Z) (n k : nat) :
  length out = (4 * n)%nat -> (k <= n)%nat ->
  let s := dec_store k b out in
  length s = (4 * n)%nat /\
  forall i t, (i < k)%nat -> (t < 4)%nat -> get s (4 * i + t) = bt t (u32 (get b i)).
Proof.
  intros Hl. induction k as [|k IH]; intros Hk; cbv zeta.
  - split; [exact Hl|]. intros; lia.
  - destruct (IH ltac:(lia)) as [Il Ig]. unfold dec_store in *. rewrite for_up_S.
    cbn [Nat.add].
    set (s := for_up 0 k _ out) in *. clearbody s.
    unfold BigEndian_PutUint32. split; [rewrite !length_upd; exact Il|].
    intros i t Hi Ht. destruct (Nat.eq_dec i k) as [->|Hne].
    + destruct t as [|[|[|[|t]]]]; try lia; cbn [bt];
        repeat (rewrite get_upd_ne by lia);
        rewrite ?Nat.add_0_r;
        rewrite get_upd_eq by (rewrite ?length_upd; lia); reflexivity.
    + rewrite !get_upd_ne by lia. apply Ig; lia.
Qed.

Lemma dec_store_spec (b out : list Z) (n : nat) :
  length out = (4 * n)%nat ->
  (forall i, (i < n)%nat -> 0 <= get b i < 2 ^ 32) ->
  let s := dec_store n b out in
  length s = (4 * n)%nat /\ digits_in 256 s /\
  eval 256 s = evalf (2 ^ 32) (get b) n.
Proof.
  intros Hl Hb. cbv zeta.
  destruct (dec_store_inv b out n n Hl (Nat.le_refl n)) as [Sl Sg].
  set (s := dec_store n b out) in *. clearbody s.
  assert (Hu : forall i, (i < n)%nat -> u32 (get b i) = get b i)
    by (intros i Hi; unfold u32; apply Z.mod_small; apply Hb; exact Hi).
  split; [exact Sl|]. split.
  - apply digits_in_get. intros p Hp. rewrite Sl in Hp.
    pose proof (Nat.div_mod_eq p 4) as E.
    pose proof (Nat.mod_upper_bound p 4 ltac:(lia)) as Hm.
    assert (Hd : (p / 4 < n)%nat) by (apply Nat.Div0.div_lt_upper_bound; lia).
    rewrite E, Sg, Hu by assumption.
    apply (bt_spec (get b (p / 4)) (Hb _ Hd)). exact Hm.
  - rewrite eval_evalf, Sl. symmetry. change (2 ^ 32) with (256 ^ Z.of_nat 4).
    apply evalf_group. intros i Hin.
    rewrite (evalf_ext 256 _ (fun t => bt t (get b i)) 4)
      by (intros t Ht; rewrite Sg, Hu by assumption; reflexivity).
    symmetry. apply (bt_spec (get b i) (Hb i Hin)).
Qed.

(** ** Leading zeros *)

Lemma skipn_get (a : list Z) (r : nat) :
  (r < length a)%nat -> skipn r a = get a r :: skipn (S r) a.
Proof.
  revert r; induction a as [|h t IH]; intros r Hr; [simpl in Hr; lia|].
  destruct r as [|r]; [reflexivity|]. simpl in Hr.
  change (skipn (S r) (h :: t)) with (skipn r t).
  rewrite (IH r) by lia. reflexivity.
Qed.

Lemma count0_spec (a : list Z) (n r : nat) :
  (r + n = length a)%nat -> count0 n r a = (r + leading0s (skipn r a))%nat.
Proof.
  revert r; induction n as [|n IH]; intros r Hr.
  - rewrite skipn_all2 by lia. simpl. lia.
  - cbn [count0]. rewrite (skipn_get a r) by lia. cbn [leading0s].
    destruct (get a r =? 0); [rewrite IH by lia; lia|lia].
Qed.

Lemma count0_leading0s (a : list Z) : count0 (length a) 0 a = leading0s a.
Proof. rewrite count0_spec by lia. reflexivity. Qed.

Lemma leading0s_le (l : list Z) : (leading0s l <= length l)%nat.
Proof.
  induction l as [|d t IH]; simpl; [lia|]. destruct (d =? 0); lia.
Qed.

Lemma leading0s_zero (l : list Z) (i : nat) : (i < leading0s l)%nat -> get l i = 0.
Proof.
  revert i; induction l as [|d t IH]; intros i Hi; simpl in Hi; [lia|].
  destruct (Z.eqb_spec d 0) as [->|Hne]; [|lia].
  destruct i as [|i]; [reflexivity|]. apply (IH i). lia.
Qed.

Lemma leading0s_next (l : list Z) :
  (leading0s l < length l)%nat -> get l (leading0s l) <> 0.
Proof.
  induction l as [|d t IH]; simpl; [lia|].
  destruct (Z.eqb_spec d 0) as [->|Hne]; intros H; [apply IH; lia|exact Hne].
Qed.

(** The count of leading zeros is determined by the zeros and the first
    entry after them. *)
Lemma leading0s_unique (l : list Z) (k : nat) :
  (k <= length l)%nat ->
  (forall i, (i < k)%nat -> get l i = 0) ->
  ((k < length l)%nat -> get l k <> 0) ->
  leading0s l = k.
Proof.
  revert k; induction l as [|d t IH]; intros k Hk Hz Hn; simpl in *; [lia|].
  destruct (Z.eqb_spec d 0) as [->|Hne].
  - destruct k as [|k]; [exfalso; apply Hn; [lia|reflexivity]|].
    f_equal. apply IH; [lia| |].
    + intros i Hi. apply (Hz (S i)). lia.
    + intros Hlt. apply Hn. lia.
  - destruct k as [|k]; [reflexivity|]. exfalso. apply Hne. apply (Hz O). lia.
Qed.

Lemma eval_skip_zeros (b : Z) (l : list Z) (k : nat) :
  (k <= leading0s l)%nat -> eval b (skipn k l) = eval b l.
Proof.
  revert k; induction l as [|d t IH]; intros k Hk; [destruct k; reflexivity|].
  destruct k as [|k]; [reflexivity|]. simpl in Hk.
  destruct (Z.eqb_spec d 0) as [->|Hne]; [|lia].
  cbn [skipn eval]. rewrite IH by lia. lia.
Qed.

Lemma digits_in_skipn (b : Z) (l : list Z) (k : nat) :
  digits_in b l -> digits_in b (skipn k l).
Proof.
  unfold digits_in. intros H. rewrite <- (firstn_skipn k l) in H.
  apply Forall_app in H. apply H.
Qed.

(** The magnitude of a digit string, from its leading zeros. *)
Lemma eval_upper (b : Z) (l : list Z) :
  1 < b -> digits_in b l ->
  eval b l < b ^ Z.of_nat (length l - leading0s l).
Proof.
  intros Hb Hd. rewrite <- (eval_skip_zeros b l (leading0s l)) by lia.
  pose proof (digits_in_skipn b l (leading0s l) Hd) as Hs.
  pose proof (eval_bound b _ ltac:(lia) Hs) as H. rewrite length_skipn in H. lia.
Qed.

Lemma eval_lower (b : Z) (l : list Z) :
  1 < b -> digits_in b l -> (leading0s l < length l)%nat ->
  b ^ Z.of_nat (length l - leading0s l - 1) <= eval b l.
Proof.
  intros Hb Hd Hlt. rewrite <- (eval_skip_zeros b l (leading0s l)) by lia.
  rewrite (skipn_get l (leading0s l)) by exact Hlt. cbn [eval].
  rewrite length_skipn.
  replace (length l - S (leading0s l))%nat with (length l - leading0s l - 1)%nat by lia.
  pose proof (leading0s_next l Hlt) as Hn.
  assert (Hg : 0 <= get l (leading0s l) < b)
    by (apply digits_in_get; [exact Hd|exact Hlt]).
  pose proof (digits_in_skipn b l (S (leading0s l)) Hd) as Hs.
  pose proof (eval_bound b _ ltac:(lia) Hs) as H.
  assert (0 < b ^ Z.of_nat (length l - leading0s l - 1)) by (apply Z.pow_pos_nonneg; lia).
  nia.
Qed.

Lemma leading0s_app_zeros (n : nat) (l : list Z) :
  leading0s (repeat 0 n ++ l) = (n + leading0s l)%nat.
Proof. induction n as [|n IH]; [reflexivity|]. simpl. rewrite IH. reflexivity. Qed.

Lemma leading1s_digits (s : list Z) :
  forallb valid_char s = true -> leading0s (map digit_of s) = leading1s s.
Proof.
  induction s as [|c s IH]; intros H; [reflexivity|].
  cbn [forallb] in H. apply andb_true_iff in H. destruct H as [Hc Hs].
  cbn [map leading0s leading1s]. rewrite (IH Hs).
  destruct (valid_char_digit c Hc) as [Hr Ha].
  destruct (Z.eqb_spec c 49) as [->|Hne]; [reflexivity|].
  destruct (Z.eqb_spec (digit_of c) 0) as [E|_]; [|reflexivity].
  exfalso. apply Hne. rewrite <- Ha, E. reflexivity.
Qed.

Lemma leading1s_unique (s : list Z) (k : nat) :
  (k <= length s)%nat ->
  (forall i, (i < k)%nat -> get s i = 49) ->
  ((k < length s)%nat -> get s k <> 49) ->
  leading1s s = k.
Proof.
  revert k; induction s as [|c t IH]; intros k Hk Hz Hn; simpl in *; [lia|].
  destruct (Z.eqb_spec c 49) as [->|Hne].
  - destruct k as [|k]; [exfalso; apply Hn; [lia|reflexivity]|].
    f_equal. apply IH; [lia| |].
    + intros i Hi. apply (Hz (S i)). lia.
    + intros Hlt. apply Hn. lia.
  - destruct k as [|k]; [reflexivity|]. exfalso. apply Hne. apply (Hz O). lia.
Qed.

Lemma leading1s_ones (s : list Z) (i : nat) : (i < leading1s s)%nat -> get s i = 49.
Proof.
  revert i; induction s as [|c t IH]; intros i Hi; simpl in Hi; [lia|].
  destruct (Z.eqb_spec c 49) as [->|Hne]; [|lia].
  destruct i as [|i]; [reflexivity|]. apply (IH i). lia.
Qed.

Lemma leading1s_next (s : list Z) :
  (leading1s s < length s)%nat -> get s (leading1s s) <> 49.
Proof.
  induction s as [|c t IH]; simpl; [lia|].
  destruct (Z.eqb_spec c 49) as [->|Hne]; intros H; [apply IH; lia|exact Hne].
Qed.

(** ** The canonical-form check of the decoders *)

Lemma dec_lead_spec (out s : list Z) (n c : nat) :
  (c + n = length out)%nat ->
  match dec_lead n c out s with
  | Some r => r = (c + leading0s (skipn c out))%nat /\
              forall i, (c <= i < r)%nat -> get s i = 49
  | None => exists i, (c <= i < c + leading0s (skipn c out))%nat /\ get s i <> 49
  end.
Proof.
  revert c; induction n as [|n IH]; intros c Hc.
  - cbn [dec_lead]. rewrite skipn_all2 by lia. simpl. split; [lia|]. intros; lia.
  - cbn [dec_lead]. rewrite (skipn_get out c) by lia. cbn [leading0s].
    destruct (Z.eqb_spec (get out c) 0) as [E|Hne]; cbn [negb].
    + destruct (Z.eqb_spec (get s c) 49) as [E1|Hne1]; cbn [negb].
      * specialize (IH (S c) ltac:(lia)).
        destruct (dec_lead n (S c) out s) as [r|].
        -- destruct IH as [-> Hall]. split; [lia|].
           intros i Hi. destruct (Nat.eq_dec i c) as [->|Hd]; [exact E1|].
           apply Hall. lia.
        -- destruct IH as [i [Hi Hs]]. exists i. split; [lia|exact Hs].
      * exists c. split; [lia|exact Hne1].
    + split; [lia|]. intros; lia.
Qed.

Lemma dec_canonical_spec (n : nat) (out s : list Z) :
  length out = n ->
  (dec_canonical n out s = true <->
   (forall i, (i < leading0s out)%nat -> get s i = 49) /\
   ((leading0s out < length s)%nat -> get s (leading0s out) <> 49)).
Proof.
  intros Hl. unfold dec_canonical.
  pose proof (dec_lead_spec out s n 0 ltac:(lia)) as H. cbn [skipn Nat.add] in H.
  destruct (dec_lead n 0 out s) as [r|].
  - destruct H as [-> Hall]. split.
    + intros Hc. split; [intros i Hi; apply Hall; lia|].
      intros Hlt Heq. apply Nat.ltb_lt in Hlt. apply Z.eqb_eq in Heq.
      rewrite Hlt, Heq in Hc. discriminate.
    + intros [_ Hn]. destruct (Nat.ltb_spec (leading0s out) (length s)) as [Hlt|Hge];
        [|reflexivity].
      cbn [andb]. destruct (Z.eqb_spec (get s (leading0s out)) 49) as [E|_];
        [exfalso; exact (Hn Hlt E)|reflexivity].
  - destruct H as [i [Hi Hs]]. split; [discriminate|].
    intros [Hall _]. exfalso. apply Hs. apply Hall. lia.
Qed.

(** ** The output loop of the encoders *)

Lemma index_get (a : list Z) (i : nat) :
  (i < length a)%nat -> index a (Z.of_nat i) = Some (get a i).
Proof.
  intros H. unfold index. replace (Z.of_nat i <? 0) with false by (symmetry; apply Z.ltb_ge; lia).
  rewrite Nat2Z.id. unfold get. apply nth_error_nth'. exact H.
Qed.

Lemma enc_copy_spec (raw : list Z) (cnt skip : nat) :
  digits_in 58 raw -> (cnt + skip <= length raw)%nat -> Z.of_nat (length raw) < 2 ^ 64 ->
  forall slots i out,
    (i <= cnt)%nat -> (slots + i = length out)%nat -> (cnt <= length out)%nat ->
    exists r,
      enc_copy slots (Z.of_nat i) (Z.of_nat cnt) (Z.of_nat skip) raw out = Ret r /\
      length r = length out /\
      forall j, get r j =
        if (Nat.leb i j && Nat.ltb j cnt)%bool then char_of (get raw (j + skip)) else get out j.
Proof.
  intros Hd Hlen Hsmall. rewrite digits_in_get in Hd.
  induction slots as [|slots IH]; intros i out Hi Hs Hc.
  - assert (i = cnt) by lia. subst i. exists out. cbn [enc_copy].
    rewrite Z.ltb_irrefl. split; [reflexivity|]. split; [reflexivity|].
    intros j. destruct (Nat.leb_spec cnt j), (Nat.ltb_spec j cnt); try lia; reflexivity.
  - cbn [enc_copy]. destruct (Z.ltb_spec (Z.of_nat i) (Z.of_nat cnt)) as [Hlt|Hge].
    + rewrite add64_small by lia.
      rewrite <- Nat2Z.inj_add, index_get by lia.
      pose proof (Hd (i + skip)%nat ltac:(lia)) as Hdig.
      replace (index alphabet (get raw (i + skip)))
        with (Some (char_of (get raw (i + skip)))).
      2:{ rewrite <- (Z2Nat.id (get raw (i + skip))) at 2 by lia.
          rewrite index_get by (change (length alphabet) with 58%nat; lia). reflexivity. }
      rewrite Nat2Z.id. replace (Z.of_nat i + 1) with (Z.of_nat (S i)) by lia.
      destruct (IH (S i) (upd out i (char_of (get raw (i + skip)))))
        as [r [Hr [Hl Hg]]]; try lia; try (rewrite length_upd; lia).
      exists r. split; [exact Hr|]. rewrite length_upd in Hl. split; [exact Hl|].
      intros j. rewrite Hg. destruct (Nat.eq_dec j i) as [->|Hne].
      * replace (Nat.leb (S i) i) with false by (symmetry; apply Nat.leb_gt; lia).
        rewrite Nat.leb_refl. replace (Nat.ltb i cnt) with true by (symmetry; apply Nat.ltb_lt; lia).
        cbn [andb]. apply get_upd_eq. lia.
      * rewrite get_upd_ne by lia.
        destruct (Nat.leb_spec (S i) j), (Nat.leb_spec i j); try lia; reflexivity.
    + assert (i = cnt) by lia. subst i. exists out. split; [reflexivity|].
      split; [reflexivity|]. intros j.
      destruct (Nat.leb_spec cnt j), (Nat.ltb_spec j cnt); try lia; reflexivity.
Qed.

(** The text written by the output loop. *)
Lemma enc_copy_text (raw out : list Z) (skip : nat) :
  digits_in 58 raw -> (skip <= length raw)%nat -> Z.of_nat (length raw) < 2 ^ 64 ->
  (length raw - skip <= length out)%nat ->
  exists r,
    enc_copy (length out) 0 (Z.of_nat (length raw - skip)) (Z.of_nat skip) raw out = Ret r /\
    length r = length out /\
    firstn (length raw - skip) r = map char_of (skipn skip raw).
Proof.
  intros Hd Hs Hsmall Hc.
  destruct (enc_copy_spec raw (length raw - skip) skip Hd ltac:(lia) Hsmall
              (length out) 0 out) as [r [Hr [Hl Hg]]]; try lia.
  exists r. split; [exact Hr|]. split; [exact Hl|].
  apply list_get_ext.
  - rewrite length_firstn, length_map, length_skipn. lia.
  - intros j Hj. rewrite length_firstn in Hj.
    unfold get at 1. rewrite nth_firstn.
    replace (Nat.ltb j (length raw - skip)) with true by (symmetry; apply Nat.ltb_lt; lia).
    fold (get r j). rewrite Hg. cbn [Nat.leb andb].
    replace (Nat.ltb j (length raw - skip)) with true by (symmetry; apply Nat.ltb_lt; lia).
    unfold get at 2.
    rewrite (nth_indep _ 0 (char_of 0)) by (rewrite length_map, length_skipn; lia).
    rewrite map_nth. fold (get (skipn skip raw) j). rewrite get_skipn.
    f_equal. f_equal. lia.
Qed.

(** ** Leading zeros of the input and of its raw digits *)

Lemma powers_fit_spec (n e nb : nat) :
  powers_fit n e = true -> (nb <= n)%nat -> 256 ^ Z.of_nat nb <= 58 ^ Z.of_nat (nb + e).
Proof.
  intros H Hn. apply (forallb_seq _ (S n) nb) in H; [|lia]. apply Z.leb_le in H. exact H.
Qed.

Lemma lead_bounds (n e : nat) (in_ raw : list Z) :
  powers_fit n e = true ->
  length in_ = n -> digits_in 256 in_ -> digits_in 58 raw ->
  eval 58 raw = eval 256 in_ ->
  (length raw + leading0s in_ <= leading0s raw + n + e)%nat /\
  (leading0s raw + n <= length raw + leading0s in_)%nat.
Proof.
  intros Hp Hl Hd Hr He.
  pose proof (leading0s_le in_) as Hz. pose proof (leading0s_le raw) as Hrz.
  pose proof (eval_upper 256 in_ ltac:(lia) Hd) as U1.
  pose proof (eval_upper 58 raw ltac:(lia) Hr) as U2.
  rewrite Hl in *. split.
  - destruct (Nat.eq_dec (leading0s raw) (length raw)) as [E|Hne]; [lia|].
    pose proof (eval_lower 58 raw ltac:(lia) Hr ltac:(lia)) as L2.
    pose proof (powers_fit_spec n e (n - leading0s in_) Hp ltac:(lia)) as P.
    assert (Hlt : 58 ^ Z.of_nat (length raw - leading0s raw - 1)
                  < 58 ^ Z.of_nat (n - leading0s in_ + e)) by lia.
    apply Z.pow_lt_mono_r_iff in Hlt; lia.
  - destruct (Nat.eq_dec (leading0s in_) n) as [E|Hne]; [lia|].
    pose proof (eval_lower 256 in_ ltac:(lia) Hd ltac:(lia)) as L1. rewrite Hl in L1.
    assert (P : 58 ^ Z.of_nat (n - leading0s in_ - 1) <= 256 ^ Z.of_nat (n - leading0s in_ - 1))
      by (apply Z.pow_le_mono_l; lia).
    assert (Hlt : 58 ^ Z.of_nat (n - leading0s in_ - 1)
                  < 58 ^ Z.of_nat (length raw - leading0s raw)) by lia.
    apply Z.pow_lt_mono_r_iff in Hlt; lia.
Qed.

Lemma powers_fit_32 : powers_fit 32 12 = true.
Proof. vm_compute. reflexivity. Qed.

Lemma powers_fit_64 : powers_fit 64 24 = true.
Proof. vm_compute. reflexivity. Qed.

(** ** Encode32 and Encode64 *)

Lemma Encode32_spec (out in_ : list Z) :
  length in_ = 32%nat -> digits_in 256 in_ -> length out = 44%nat ->
  let raw := enc32_rawBase58 in_ in
  let skip := (leading0s raw - leading0s in_)%nat in
  (leading0s in_ < leading0s raw)%nat /\
  (leading0s raw <= leading0s in_ + 13)%nat /\
  exists out',
    Encode32 out in_ = Ret (out', Z.of_nat (45 - skip)) /\
    length out' = 44%nat /\
    firstn (45 - skip) out' = map char_of (skipn skip raw).
Proof.
  intros Hl Hd Ho. cbv zeta.
  destruct (enc32_raw_spec in_ Hl Hd) as [Rl [Rd Rv]].
  destruct (lead_bounds 32 12 in_ (enc32_rawBase58 in_) powers_fit_32 Hl Hd Rd Rv) as [B1 B2].
  unfold Encode32. change (Z.to_nat enc32sz) with 45%nat.
  rewrite (count0_spec in_ 32 0), (count0_spec (enc32_rawBase58 in_) 45 0)
    by (cbn [Nat.add]; congruence).
  cbn [Nat.add skipn].
  set (raw := enc32_rawBase58 in_) in *. clearbody raw.
  pose proof (leading0s_le raw) as Hrz. rewrite Rl in *.
  split; [lia|]. split; [lia|].
  unfold enc32sz. rewrite (u64_small (Z.of_nat (leading0s raw) - Z.of_nat (leading0s in_))) by lia.
  rewrite u64_small by lia.
  replace (Z.of_nat (leading0s raw) - Z.of_nat (leading0s in_))
    with (Z.of_nat (leading0s raw - leading0s in_)) by lia.
  replace (45 - Z.of_nat (leading0s raw - leading0s in_))
    with (Z.of_nat (length raw - (leading0s raw - leading0s in_))) by lia.
  destruct (enc_copy_text raw out (leading0s raw - leading0s in_)%nat Rd)
    as [r [Hr [Hlr Hf]]]; try lia.
  rewrite Ho in Hr. rewrite Hr. exists r.
  rewrite Rl in *. split; [reflexivity|]. split; [lia|exact Hf].
Qed.

Lemma Encode64_spec (out in_ : list Z) :
  length in_ = 64%nat -> digits_in 256 in_ -> length out = 88%nat ->
  let raw := enc64_rawBase58 in_ in
  let skip := (leading0s raw - leading0s in_)%nat in
  (leading0s in_ + 2 <= leading0s raw)%nat /\
  (leading0s raw <= leading0s in_ + 26)%nat /\
  exists out',
    Encode64 out in_ = Ret (out', Z.of_nat (90 - skip)) /\
    length out' = 88%nat /\
    firstn (90 - skip) out' = map char_of (skipn skip raw).
Proof.
  intros Hl Hd Ho. cbv zeta.
  destruct (enc64_raw_spec in_ Hl Hd) as [Rl [Rd Rv]].
  destruct (lead_bounds 64 24 in_ (enc64_rawBase58 in_) powers_fit_64 Hl Hd Rd Rv) as [B1 B2].
  unfold Encode64. change raw64sz with 90%nat.
  rewrite (count0_spec in_ 64 0), (count0_spec (enc64_rawBase58 in_) 90 0)
    by (cbn [Nat.add]; congruence).
  cbn [Nat.add skipn].
  set (raw := enc64_rawBase58 in_) in *. clearbody raw.
  pose proof (leading0s_le raw) as Hrz. rewrite Rl in *.
  split; [lia|]. split; [lia|].
  rewrite (u64_small (Z.of_nat (leading0s raw) - Z.of_nat (leading0s in_))) by lia.
  rewrite u64_small by lia.
  replace (Z.of_nat (leading0s raw) - Z.of_nat (leading0s in_))
    with (Z.of_nat (leading0s raw - leading0s in_)) by lia.
  replace (Z.of_nat 90 - Z.of_nat (leading0s raw - leading0s in_))
    with (Z.of_nat (length raw - (leading0s raw - leading0s in_))) by lia.
  destruct (enc_copy_text raw out (leading0s raw - leading0s in_)%nat Rd)
    as [r [Hr [Hlr Hf]]]; try lia.
  rewrite Ho in Hr. rewrite Hr. exists r.
  rewrite Rl in *. split; [reflexivity|]. split; [lia|exact Hf].
Qed.

(** ** Decode32 and Decode64 *)

Lemma decTable32_nonneg : table_nonneg decTable32 = true.
Proof. vm_compute. reflexivity. Qed.

Lemma decTable32_rows : table_rows (2 ^ 32) r1Div decTable32 9 8 = true.
Proof. vm_compute. reflexivity. Qed.

Lemma decTable32_columns :
  columns_below (r1Div - 1) (2 ^ 64 - 2 ^ 32) decTable32 0 9 8 (fun _ => 0) = true.
Proof. vm_compute. reflexivity. Qed.

Lemma decTable64_nonneg : table_nonneg decTable64 = true.
Proof. vm_compute. reflexivity. Qed.

Lemma decTable64_rows : table_rows (2 ^ 32) r1Div decTable64 18 16 = true.
Proof. vm_compute. reflexivity. Qed.

Lemma decTable64_columns :
  columns_below (r1Div - 1) (2 ^ 64 - 2 ^ 32) decTable64 0 18 16 (fun _ => 0) = true.
Proof. vm_compute. reflexivity. Qed.

Lemma dec32_binary_spec (s : list Z) :
  (length s <= 45)%nat -> forallb valid_char s = true ->
  let b := dec32_binary s in
  length b = 8%nat /\ 0 <= get b 0 /\
  (forall m, (0 < m <= 7)%nat -> 0 <= get b m < 2 ^ 32) /\
  evalf (2 ^ 32) (get b) 8 = eval 58 (map digit_of s).
Proof.
  intros Hs Hv. cbv zeta. unfold dec32_binary.
  rewrite dec_raw_spec by exact Hs.
  destruct (raw_of_spec raw32sz s Hs Hv) as [Rl [Rd Re]]. rewrite <- Re.
  apply (dec_core decTable32 7 9 decTable32_nonneg decTable32_rows decTable32_columns
           (raw_of raw32sz s) Rl Rd).
Qed.

Lemma dec64_binary_spec (s : list Z) :
  (length s <= 90)%nat -> forallb valid_char s = true ->
  let b := dec64_binary s in
  length b = 16%nat /\ 0 <= get b 0 /\
  (forall m, (0 < m <= 15)%nat -> 0 <= get b m < 2 ^ 32) /\
  evalf (2 ^ 32) (get b) 16 = eval 58 (map digit_of s).
Proof.
  intros Hs Hv. cbv zeta. unfold dec64_binary.
  rewrite dec_raw_spec by exact Hs.
  destruct (raw_of_spec raw64sz s Hs Hv) as [Rl [Rd Re]]. rewrite <- Re.
  apply (dec_core decTable64 15 18 decTable64_nonneg decTable64_rows decTable64_columns
           (raw_of raw64sz s) Rl Rd).
Qed.

(** The overflow test and the stored bytes, from the accumulators. *)
Lemma dec_tail_spec (hi : nat) (b out : list Z) (V : Z) :
  length b = S hi -> 0 <= get b 0 ->
  (forall m, (0 < m <= hi)%nat -> 0 <= get b m < 2 ^ 32) ->
  evalf (2 ^ 32) (get b) (S hi) = V ->
  (256 ^ Z.of_nat (4 * S hi) <= V -> (get b 0 >? 0xFFFFFFFF) = true) /\
  (V < 256 ^ Z.of_nat (4 * S hi) ->
   (get b 0 >? 0xFFFFFFFF) = false /\
   (length out = (4 * S hi)%nat ->
    let x := dec_store (S hi) b out in
    length x = (4 * S hi)%nat /\ digits_in 256 x /\ eval 256 x = V)).
Proof.
  intros Hl H0 Hm HV.
  assert (Hp : 256 ^ Z.of_nat (4 * S hi) = 2 ^ 32 * (2 ^ 32) ^ Z.of_nat hi).
  { replace (Z.of_nat (4 * S hi)) with (4 * Z.of_nat (S hi)) by lia.
    rewrite Z.pow_mul_r by lia. change (256 ^ 4) with (2 ^ 32).
    rewrite Nat2Z.inj_succ, Z.pow_succ_r by lia. reflexivity. }
  rewrite Hp. pose proof HV as HV0. rewrite evalf_shift in HV.
  assert (Hrest : 0 <= evalf (2 ^ 32) (fun m => get b (S m)) hi < (2 ^ 32) ^ Z.of_nat hi).
  { apply evalf_bound; [lia|]. intros m Hlt. apply Hm. lia. }
  assert (Hpos : 0 < (2 ^ 32) ^ Z.of_nat hi) by (apply Z.pow_pos_nonneg; lia).
  set (P := (2 ^ 32) ^ Z.of_nat hi) in *. clearbody P.
  set (rest := evalf (2 ^ 32) (fun m => get b (S m)) hi) in *. clearbody rest.
  split.
  - intros Hge. rewrite Z.gtb_ltb. apply Z.ltb_lt. nia.
  - intros Hlt. assert (Hb0 : get b 0 < 2 ^ 32) by nia.
    split; [rewrite Z.gtb_ltb; apply Z.ltb_ge; lia|].
    intros Ho. cbv zeta.
    destruct (dec_store_spec b out (S hi) Ho) as [Sl [Sd Se]].
    { intros i Hi. destruct i as [|i]; [lia|apply Hm; lia]. }
    split; [exact Sl|]. split; [exact Sd|]. rewrite Se. exact HV0.
Qed.

Lemma Decode32_spec (out s : list Z) :
  (32 <= length s <= 44)%nat -> forallb valid_char s = true ->
  let V := eval 58 (map digit_of s) in
  (2 ^ 256 <= V ->
   get (dec32_binary s) 0 > 0xFFFFFFFF /\ Decode32 out s = Ret (false, out)) /\
  (V < 2 ^ 256 -> length out = 32%nat ->
   exists x, length x = 32%nat /\ digits_in 256 x /\ eval 256 x = V /\
             Decode32 out s = Ret (dec_canonical 32 x s, x)).
Proof.
  intros Hs Hv. cbv zeta.
  destruct (dec32_binary_spec s ltac:(lia) Hv) as [Bl [B0 [Bm Be]]].
  destruct (dec_tail_spec 7 (dec32_binary s) out _ Bl B0 Bm Be) as [T1 T2].
  change (256 ^ Z.of_nat (4 * 8)) with (2 ^ 256) in T1, T2.
  unfold Decode32.
  replace (Nat.ltb (length s) 32) with false by (symmetry; apply Nat.ltb_ge; lia).
  replace (Nat.ltb 44 (length s)) with false by (symmetry; apply Nat.ltb_ge; lia).
  cbn [orb]. rewrite (dec_validate_valid s Hv).
  set (b := dec32_binary s) in *. clearbody b. split.
  - intros Hge. specialize (T1 Hge). rewrite T1. split; [|reflexivity].
    rewrite Z.gtb_ltb in T1. apply Z.ltb_lt in T1. lia.
  - intros Hlt Ho. destruct (T2 Hlt) as [E T3]. rewrite E.
    destruct (T3 Ho) as [Xl [Xd Xe]]. change bin32sz with 8%nat.
    exists (dec_store 8 b out). repeat split; assumption.
Qed.

Lemma Decode64_spec (out s : list Z) :
  (64 <= length s <= 88)%nat -> forallb valid_char s = true ->
  let V := eval 58 (map digit_of s) in
  (2 ^ 512 <= V ->
   get (dec64_binary s) 0 > 0xFFFFFFFF /\ Decode64 out s = Ret (false, out)) /\
  (V < 2 ^ 512 -> length out = 64%nat ->
   exists x, length x = 64%nat /\ digits_in 256 x /\ eval 256 x = V /\
             Decode64 out s = Ret (dec_canonical 64 x s, x)).
Proof.
  intros Hs Hv. cbv zeta.
  destruct (dec64_binary_spec s ltac:(lia) Hv) as [Bl [B0 [Bm Be]]].
  destruct (dec_tail_spec 15 (dec64_binary s) out _ Bl B0 Bm Be) as [T1 T2].
  change (256 ^ Z.of_nat (4 * 16)) with (2 ^ 512) in T1, T2.
  unfold Decode64.
  replace (Nat.ltb (length s) 64) with false by (symmetry; apply Nat.ltb_ge; lia).
  replace (Nat.ltb 88 (length s)) with false by (symmetry; apply Nat.ltb_ge; lia).
  cbn [orb]. rewrite (dec_validate_valid s Hv).
  set (b := dec64_binary s) in *. clearbody b. split.
  - intros Hge. specialize (T1 Hge). rewrite T1. split; [|reflexivity].
    rewrite Z.gtb_ltb in T1. apply Z.ltb_lt in T1. lia.
  - intros Hlt Ho. destruct (T2 Hlt) as [E T3]. rewrite E.
    destruct (T3 Ho) as [Xl [Xd Xe]]. change bin64sz with 16%nat.
    exists (dec_store 16 b out). repeat split; assumption.
Qed.

(** What an accepting call of a decoder tells about its input. *)
Lemma Decode32_accepts (out s x : list Z) :
  length out = 32%nat -> Decode32 out s = Ret (true, x) ->
  (32 <= length s <= 44)%nat /\ forallb valid_char s = true /\
  length x = 32%nat /\ digits_in 256 x /\
  eval 256 x = eval 58 (map digit_of s) /\ dec_canonical 32 x s = true.
Proof.
  intros Ho H. pose proof H as H'. unfold Decode32 in H.
  destruct (Nat.ltb_spec (length s) 32) as [|H1]; [discriminate|].
  destruct (Nat.ltb_spec 44 (length s)) as [|H2]; [discriminate|]. cbn [orb] in H.
  destruct (dec_validate s) as [[|]|] eqn:Hv; try discriminate.
  apply dec_validate_true in Hv. clear H.
  destruct (Decode32_spec out s ltac:(lia) Hv) as [S1 S2]. cbv zeta in S1, S2.
  destruct (Z.lt_ge_cases (eval 58 (map digit_of s)) (2 ^ 256)) as [Hlt|Hge].
  - destruct (S2 Hlt Ho) as [y [Yl [Yd [Ye Yr]]]]. rewrite Yr in H'.
    injection H' as Hc <-. repeat split; auto; lia.
  - destruct (S1 Hge) as [_ Yr]. rewrite Yr in H'. discriminate.
Qed.

Lemma Decode64_accepts (out s x : list Z) :
  length out = 64%nat -> Decode64 out s = Ret (true, x) ->
  (64 <= length s <= 88)%nat /\ forallb valid_char s = true /\
  length x = 64%nat /\ digits_in 256 x /\
  eval 256 x = eval 58 (map digit_of s) /\ dec_canonical 64 x s = true.
Proof.
  intros Ho H. pose proof H as H'. unfold Decode64 in H.
  destruct (Nat.ltb_spec (length s) 64) as [|H1]; [discriminate|].
  destruct (Nat.ltb_spec 88 (length s)) as [|H2]; [discriminate|]. cbn [orb] in H.
  destruct (dec_validate s) as [[|]|] eqn:Hv; try discriminate.
  apply dec_validate_true in Hv. clear H.
  destruct (Decode64_spec out s ltac:(lia) Hv) as [S1 S2]. cbv zeta in S1, S2.
  destruct (Z.lt_ge_cases (eval 58 (map digit_of s)) (2 ^ 512)) as [Hlt|Hge].
  - destruct (S2 Hlt Ho) as [y [Yl [Yd [Ye Yr]]]]. rewrite Yr in H'.
    injection H' as Hc <-. repeat split; auto; lia.
  - destruct (S1 Hge) as [_ Yr]. rewrite Yr in H'. discriminate.
Qed.

(** ** Texts and raw digits *)

Lemma char_of_digit (d : Z) :
  0 <= d < 58 -> valid_char (char_of d) = true /\ digit_of (char_of d) = d.
Proof.
  intros Hd. unfold char_of.
  destruct (alphabet_digit (Z.to_nat d) ltac:(lia)) as [H1 H2].
  split; [exact H1|]. rewrite H2. lia.
Qed.

Lemma text_of_digits (l : list Z) :
  digits_in 58 l ->
  forallb valid_char (map char_of l) = true /\ map digit_of (map char_of l) = l.
Proof.
  unfold digits_in. induction 1 as [|d l Hd Hl [IH1 IH2]]; [split; reflexivity|].
  destruct (char_of_digit d Hd) as [H1 H2]. cbn [map forallb].
  rewrite H1, IH1, H2, IH2. split; reflexivity.
Qed.

Lemma digits_of_text (s : list Z) :
  forallb valid_char s = true -> map char_of (map digit_of s) = s.
Proof.
  induction s as [|c s IH]; intros H; [reflexivity|].
  cbn [forallb] in H. apply andb_true_iff in H. destruct H as [Hc Hs].
  cbn [map]. rewrite (IH Hs). f_equal. apply (valid_char_digit c Hc).
Qed.

(** The text the encoders write decodes to the value of the raw digits,
    and passes the canonical-form check against the input. *)
Lemma encoded_text (n : nat) (in_ raw : list Z) :
  length in_ = n -> digits_in 58 raw ->
  (leading0s in_ <= leading0s raw)%nat ->
  (leading0s raw + n <= length raw + leading0s in_)%nat ->
  let skip := (leading0s raw - leading0s in_)%nat in
  let s := map char_of (skipn skip raw) in
  length s = (length raw - skip)%nat /\
  forallb valid_char s = true /\
  eval 58 (map digit_of s) = eval 58 raw /\
  dec_canonical n in_ s = true.
Proof.
  intros Hl Hd B1 B2. cbv zeta.
  set (skip := (leading0s raw - leading0s in_)%nat).
  pose proof (leading0s_le raw) as Hrz. pose proof (leading0s_le in_) as Hiz.
  pose proof (digits_in_skipn 58 raw skip Hd) as Hds.
  destruct (text_of_digits (skipn skip raw) Hds) as [T1 T2].
  assert (Hlen : length (map char_of (skipn skip raw)) = (length raw - skip)%nat)
    by (rewrite length_map, length_skipn; reflexivity).
  split; [exact Hlen|]. split; [exact T1|]. split.
  - rewrite T2. apply eval_skip_zeros. unfold skip. lia.
  - apply dec_canonical_spec; [exact Hl|].
    assert (Hg : forall i, (i < length raw - skip)%nat ->
              get (map char_of (skipn skip raw)) i = char_of (get raw (skip + i))).
    { intros i Hi. rewrite get_map by (rewrite length_skipn; exact Hi).
      rewrite get_skipn. reflexivity. }
    split.
    + intros i Hi. rewrite Hg by (unfold skip; lia).
      rewrite leading0s_zero by (unfold skip; lia). reflexivity.
    + rewrite Hlen. intros Hlt. rewrite Hg by exact Hlt.
      replace (skip + leading0s in_)%nat with (leading0s raw) by (unfold skip; lia).
      assert (Hr : (leading0s raw < length raw)%nat) by (unfold skip in Hlt; lia).
      pose proof (leading0s_next raw Hr) as Hn.
      assert (Hdig : 0 <= get raw (leading0s raw) < 58)
        by (apply digits_in_get; [exact Hd|exact Hr]).
      intros E. apply Hn. destruct (char_of_digit _ Hdig) as [_ H2].
      rewrite <- H2, E. reflexivity.
Qed.

(** An accepted text is the text the encoder writes for the decoded
    value. *)
Lemma accepted_text (n rawsz : nat) (x raw s : list Z) :
  length x = n -> (n <= length s <= rawsz)%nat ->
  forallb valid_char s = true ->
  dec_canonical n x s = true ->
  length raw = rawsz -> digits_in 58 raw ->
  eval 58 raw = eval 58 (map digit_of s) ->
  leading1s s = leading0s x /\
  (leading0s raw - leading0s x)%nat = (rawsz - length s)%nat /\
  map char_of (skipn (leading0s raw - leading0s x) raw) = s.
Proof.
  intros Hx Hs Hv Hc Hr Hd He.
  apply (dec_canonical_spec n x s Hx) in Hc. destruct Hc as [C1 C2].
  pose proof (leading0s_le x) as Hxz.
  assert (L1 : leading1s s = leading0s x) by (apply leading1s_unique; [lia|exact C1|exact C2]).
  destruct (raw_of_spec rawsz s ltac:(lia) Hv) as [Ql [Qd Qe]].
  assert (E : raw = raw_of rawsz s).
  { apply (eval_inj 58); [lia|exact Hd|exact Qd|congruence|congruence]. }
  assert (L0 : leading0s raw = (rawsz - length s + leading0s x)%nat).
  { rewrite E. unfold raw_of. rewrite leading0s_app_zeros, leading1s_digits, L1 by exact Hv.
    reflexivity. }
  split; [exact L1|]. split; [lia|].
  replace (leading0s raw - leading0s x)%nat with (rawsz - length s)%nat by lia.
  rewrite E. unfold raw_of. rewrite skipn_app, repeat_length, Nat.sub_diag.
  rewrite skipn_all2 by (rewrite repeat_length; lia).
  cbn [skipn app]. apply digits_of_text. exact Hv.
Qed.

(** ** Round trips *)

Lemma roundtrip32 (out out0 in_ : list Z) :
  length in_ = 32%nat -> digits_in 256 in_ -> length out = 44%nat -> length out0 = 32%nat ->
  exists out' n, Encode32 out in_ = Ret (out', n) /\
                 Decode32 out0 (firstn (Z.to_nat n) out') = Ret (true, in_).
Proof.
  intros Hl Hd Ho Ho0.
  destruct (Encode32_spec out in_ Hl Hd Ho) as [B1 [B2 [out' [He [Hlo Hf]]]]].
  destruct (enc32_raw_spec in_ Hl Hd) as [Rl [Rd Rv]].
  set (raw := enc32_rawBase58 in_) in *. clearbody raw.
  exists out', (Z.of_nat (45 - (leading0s raw - leading0s in_))).
  split; [exact He|]. rewrite Nat2Z.id, Hf.
  destruct (encoded_text 32 in_ raw Hl Rd ltac:(lia) ltac:(lia)) as [Sl [Sv [Se Sc]]].
  cbv zeta in Sl, Sv, Se, Sc.
  set (s := map char_of (skipn (leading0s raw - leading0s in_) raw)) in *. clearbody s.
  destruct (Decode32_spec out0 s ltac:(lia) Sv) as [_ D]. cbv zeta in D.
  pose proof (eval_bound 256 in_ ltac:(lia) Hd) as Hb. rewrite Hl in Hb.
  change (256 ^ Z.of_nat 32) with (2 ^ 256) in Hb.
  destruct (D ltac:(lia) Ho0) as [x [Xl [Xd [Xe Xr]]]].
  assert (x = in_) by (apply (eval_inj 256); [lia|assumption|assumption|congruence|congruence]).
  subst x. rewrite Xr, Sc. reflexivity.
Qed.

Lemma roundtrip64 (out out0 in_ : list Z) :
  length in_ = 64%nat -> digits_in 256 in_ -> length out = 88%nat -> length out0 = 64%nat ->
  exists out' n, Encode64 out in_ = Ret (out', n) /\
                 Decode64 out0 (firstn (Z.to_nat n) out') = Ret (true, in_).
Proof.
  intros Hl Hd Ho Ho0.
  destruct (Encode64_spec out in_ Hl Hd Ho) as [B1 [B2 [out' [He [Hlo Hf]]]]].
  destruct (enc64_raw_spec in_ Hl Hd) as [Rl [Rd Rv]].
  set (raw := enc64_rawBase58 in_) in *. clearbody raw.
  exists out', (Z.of_nat (90 - (leading0s raw - leading0s in_))).
  split; [exact He|]. rewrite Nat2Z.id, Hf.
  destruct (encoded_text 64 in_ raw Hl Rd ltac:(lia) ltac:(lia)) as [Sl [Sv [Se Sc]]].
  cbv zeta in Sl, Sv, Se, Sc.
  set (s := map char_of (skipn (leading0s raw - leading0s in_) raw)) in *. clearbody s.
  destruct (Decode64_spec out0 s ltac:(lia) Sv) as [_ D]. cbv zeta in D.
  pose proof (eval_bound 256 in_ ltac:(lia) Hd) as Hb. rewrite Hl in Hb.
  change (256 ^ Z.of_nat 64) with (2 ^ 512) in Hb.
  destruct (D ltac:(lia) Ho0) as [x [Xl [Xd [Xe Xr]]]].
  assert (x = in_) by (apply (eval_inj 256); [lia|assumption|assumption|congruence|congruence]).
  subst x. rewrite Xr, Sc. reflexivity.
Qed.

(** ** Canonical form *)

Lemma canonical32 (out s x : list Z) :
  length out = 32%nat -> Decode32 out s = Ret (true, x) ->
  leading1s s = leading0s x /\
  forall out1, length out1 = 44%nat ->
    exists out', Encode32 out1 x = Ret (out', Z.of_nat (length s)) /\
                 firstn (length s) out' = s.
Proof.
  intros Ho H.
  destruct (Decode32_accepts out s x Ho H) as [Hs [Hv [Xl [Xd [Xe Xc]]]]].
  destruct (enc32_raw_spec x Xl Xd) as [Rl [Rd Rv]].
  destruct (accepted_text 32 45 x (enc32_rawBase58 x) s Xl ltac:(lia) Hv Xc Rl Rd
              ltac:(congruence)) as [A1 [A2 A3]].
  split; [exact A1|]. intros out1 Ho1.
  destruct (Encode32_spec out1 x Xl Xd Ho1) as [_ [_ [out' [He [_ Hf]]]]].
  cbv zeta in He, Hf. rewrite A3 in Hf. rewrite A2 in He, Hf.
  replace (45 - (45 - length s))%nat with (length s) in He, Hf by lia.
  exists out'. split; assumption.
Qed.

Lemma canonical64 (out s x : list Z) :
  length out = 64%nat -> Decode64 out s = Ret (true, x) ->
  leading1s s = leading0s x /\
  forall out1, length out1 = 88%nat ->
    exists out', Encode64 out1 x = Ret (out', Z.of_nat (length s)) /\
                 firstn (length s) out' = s.
Proof.
  intros Ho H.
  destruct (Decode64_accepts out s x Ho H) as [Hs [Hv [Xl [Xd [Xe Xc]]]]].
  destruct (enc64_raw_spec x Xl Xd) as [Rl [Rd Rv]].
  destruct (accepted_text 64 90 x (enc64_rawBase58 x) s Xl ltac:(lia) Hv Xc Rl Rd
              ltac:(congruence)) as [A1 [A2 A3]].
  split; [exact A1|]. intros out1 Ho1.
  destruct (Encode64_spec out1 x Xl Xd Ho1) as [_ [_ [out' [He [_ Hf]]]]].
  cbv zeta in He, Hf. rewrite A3 in Hf. rewrite A2 in He, Hf.
  replace (90 - (90 - length s))%nat with (length s) in He, Hf by lia.
  exists out'. split; assumption.
Qed.

(** * The claims on the Base58 codec *)

Lemma is_bytes_check (n : nat) (x : list Z) : is_bytesb n x = true -> is_bytes n x.
Proof.
  unfold is_bytesb, is_bytes, digits_in. intros H.
  apply andb_true_iff in H. destruct H as [H1 H2]. apply Nat.eqb_eq in H1.
  split; [exact H1|]. apply Forall_forall. intros d Hd.
  rewrite forallb_forall in H2. specialize (H2 d Hd).
  apply andb_true_iff in H2. destruct H2 as [H2 H3].
  apply Z.leb_le in H2. apply Z.ltb_lt in H3. lia.
Qed.

(** C1. Round trip: for every 32-byte value [x], Decode32 accepts the text
    Encode32 writes for [x] (the first [n] bytes of the output buffer, [n]
    the returned length) and returns exactly [x]; likewise Decode64 after
    Encode64 for every 64-byte value. *)
Theorem C1_round_trip :
  (forall out out0 x,
     is_bytes 32 x -> length out = 44%nat -> length out0 = 32%nat ->
     exists out' n, Encode32 out x = Ret (out', n) /\
                    Decode32 out0 (firstn (Z.to_nat n) out') = Ret (true, x)) /\
  (forall out out0 x,
     is_bytes 64 x -> length out = 88%nat -> length out0 = 64%nat ->
     exists out' n, Encode64 out x = Ret (out', n) /\
                    Decode64 out0 (firstn (Z.to_nat n) out') = Ret (true, x)).
Proof.
  split; intros out out0 x [Hl Hd] Ho Ho0.
  - apply roundtrip32; assumption.
  - apply roundtrip64; assumption.
Qed.

Lemma C1_round_trip_witness :
  (exists out' n, Encode32 (repeat 0 44) (repeat 255 32) = Ret (out', n) /\
                  Decode32 (repeat 0 32) (firstn (Z.to_nat n) out') = Ret (true, repeat 255 32)) /\
  (exists out' n, Encode64 (repeat 0 88) (repeat 254 64) = Ret (out', n) /\
                  Decode64 (repeat 0 64) (firstn (Z.to_nat n) out') = Ret (true, repeat 254 64)).
Proof.
  split.
  - apply (proj1 C1_round_trip);
      [apply is_bytes_check; reflexivity | reflexivity | reflexivity].
  - apply (proj2 C1_round_trip);
      [apply is_bytes_check; reflexivity | reflexivity | reflexivity].
Defined.

(** C6. Decode accepts only the canonical encoding: when Decode32 accepts
    the text [s] with value [x], the leading '1' characters of [s] are as
    many as the leading zero bytes of [x] (so the character after them is
    not '1'), and Encode32 of [x] writes [s] back exactly; the same for
    Decode64 and Encode64; and two accepted texts with the same value are
    equal. *)
Theorem C6_canonical :
  (forall out s x,
     length out = 32%nat -> Decode32 out s = Ret (true, x) ->
     leading1s s = leading0s x /\
     forall out1, length out1 = 44%nat ->
       exists out', Encode32 out1 x = Ret (out', Z.of_nat (length s)) /\
                    firstn (length s) out' = s) /\
  (forall out s x,
     length out = 64%nat -> Decode64 out s = Ret (true, x) ->
     leading1s s = leading0s x /\
     forall out1, length out1 = 88%nat ->
       exists out', Encode64 out1 x = Ret (out', Z.of_nat (length s)) /\
                    firstn (length s) out' = s) /\
  (forall o1 o2 s1 s2 x,
     length o1 = 32%nat -> length o2 = 32%nat ->
     Decode32 o1 s1 = Ret (true, x) -> Decode32 o2 s2 = Ret (true, x) -> s1 = s2) /\
  (forall o1 o2 s1 s2 x,
     length o1 = 64%nat -> length o2 = 64%nat ->
     Decode64 o1 s1 = Ret (true, x) -> Decode64 o2 s2 = Ret (true, x) -> s1 = s2).
Proof.
  split; [exact canonical32|]. split; [exact canonical64|]. split.
  - intros o1 o2 s1 s2 x H1 H2 D1 D2.
    destruct (canonical32 o1 s1 x H1 D1) as [_ E1].
    destruct (canonical32 o2 s2 x H2 D2) as [_ E2].
    destruct (E1 (repeat 0 44) eq_refl) as [a [Ea Fa]].
    destruct (E2 (repeat 0 44) eq_refl) as [b [Eb Fb]].
    rewrite Ea in Eb. injection Eb as Hab Hn. apply Nat2Z.inj in Hn.
    rewrite <- Fa, <- Fb, Hab, Hn. reflexivity.
  - intros o1 o2 s1 s2 x H1 H2 D1 D2.
    destruct (canonical64 o1 s1 x H1 D1) as [_ E1].
    destruct (canonical64 o2 s2 x H2 D2) as [_ E2].
    destruct (E1 (repeat 0 88) eq_refl) as [a [Ea Fa]].
    destruct (E2 (repeat 0 88) eq_refl) as [b [Eb Fb]].
    rewrite Ea in Eb. injection Eb as Hab Hn. apply Nat2Z.inj in Hn.
    rewrite <- Fa, <- Fb, Hab, Hn. reflexivity.
Qed.

Lemma C6_canonical_witness :
  (leading1s text257_32 = leading0s (repeat 0 30 ++ [1; 1]) /\
   forall out1, length out1 = 44%nat ->
     exists out', Encode32 out1 (repeat 0 30 ++ [1; 1])
                  = Ret (out', Z.of_nat (length text257_32)) /\
                  firstn (length text257_32) out' = text257_32) /\
  (leading1s text257_64 = leading0s (repeat 0 62 ++ [1; 1]) /\
   forall out1, length out1 = 88%nat ->
     exists out', Encode64 out1 (repeat 0 62 ++ [1; 1])
                  = Ret (out', Z.of_nat (length text257_64)) /\
                  firstn (length text257_64) out' = text257_64).
Proof.
  split.
  - apply (proj1 C6_canonical (repeat 0 32)); [reflexivity|vm_compute; reflexivity].
  - apply (proj1 (proj2 C6_canonical) (repeat 0 64)); [reflexivity|vm_compute; reflexivity].
Defined.

(** C7. A text over the alphabet, of valid length, whose value does not
    fit in N bytes is rejected at the overflow test: the most significant
    accumulator is above 32 bits after the carry loop, and the decoder
    returns false with the output untouched.  The texts of 44 and of 88
    'z' are such texts. *)
Theorem C7_overflow :
  (forall out s,
     (32 <= length s <= 44)%nat -> forallb valid_char s = true ->
     2 ^ 256 <= eval 58 (map digit_of s) ->
     get (dec32_binary s) 0 > 0xFFFFFFFF /\ Decode32 out s = Ret (false, out)) /\
  (forall out s,
     (64 <= length s <= 88)%nat -> forallb valid_char s = true ->
     2 ^ 512 <= eval 58 (map digit_of s) ->
     get (dec64_binary s) 0 > 0xFFFFFFFF /\ Decode64 out s = Ret (false, out)) /\
  (forall out, get (dec32_binary (repeat 122 44)) 0 > 0xFFFFFFFF /\
               Decode32 out (repeat 122 44) = Ret (false, out)) /\
  (forall out, get (dec64_binary (repeat 122 88)) 0 > 0xFFFFFFFF /\
               Decode64 out (repeat 122 88) = Ret (false, out)).
Proof.
  assert (H32 : forall out s,
     (32 <= length s <= 44)%nat -> forallb valid_char s = true ->
     2 ^ 256 <= eval 58 (map digit_of s) ->
     get (dec32_binary s) 0 > 0xFFFFFFFF /\ Decode32 out s = Ret (false, out)).
  { intros out s Hs Hv Hge. apply (proj1 (Decode32_spec out s Hs Hv)). exact Hge. }
  assert (H64 : forall out s,
     (64 <= length s <= 88)%nat -> forallb valid_char s = true ->
     2 ^ 512 <= eval 58 (map digit_of s) ->
     get (dec64_binary s) 0 > 0xFFFFFFFF /\ Decode64 out s = Ret (false, out)).
  { intros out s Hs Hv Hge. apply (proj1 (Decode64_spec out s Hs Hv)). exact Hge. }
  split; [exact H32|]. split; [exact H64|]. split; intros out.
  - apply H32; [cbn; lia|reflexivity|vm_compute; discriminate].
  - apply H64; [cbn; lia|reflexivity|vm_compute; discriminate].
Qed.

Lemma C7_overflow_witness :
  (get (dec32_binary (repeat 122 44)) 0 > 0xFFFFFFFF /\
   Decode32 (repeat 0 32) (repeat 122 44) = Ret (false, repeat 0 32)) /\
  (get (dec64_binary (repeat 122 88)) 0 > 0xFFFFFFFF /\
   Decode64 (repeat 0 64) (repeat 122 88) = Ret (false, repeat 0 64)).
Proof.
  split.
  - apply (proj1 C7_overflow (repeat 0 32) (repeat 122 44));
      [cbn; lia | reflexivity | vm_compute; discriminate].
  - apply (proj1 (proj2 C7_overflow) (repeat 0 64) (repeat 122 88));
      [cbn; lia | reflexivity | vm_compute; discriminate].
Defined.

(** C9. For every 32-byte input Encode32 returns a length between 32 and
    44, and for every 64-byte input Encode64 returns a length between 64
    and 88; the raw digits have at least as many leading zeros as the
    input has leading zero bytes, so the subtraction that computes [skip]
    does not underflow. *)
Theorem C9_lengths :
  (forall out x,
     is_bytes 32 x -> length out = 44%nat ->
     (count0 32 0 x <= count0 45 0 (enc32_rawBase58 x))%nat /\
     exists out' n, Encode32 out x = Ret (out', n) /\ 32 <= n <= 44) /\
  (forall out x,
     is_bytes 64 x -> length out = 88%nat ->
     (count0 64 0 x <= count0 90 0 (enc64_rawBase58 x))%nat /\
     exists out' n, Encode64 out x = Ret (out', n) /\ 64 <= n <= 88).
Proof.
  split; intros out x [Hl Hd] Ho.
  - destruct (Encode32_spec out x Hl Hd Ho) as [B1 [B2 [out' [He _]]]].
    destruct (enc32_raw_spec x Hl Hd) as [Rl _].
    rewrite (count0_spec x 32 0), (count0_spec (enc32_rawBase58 x) 45 0)
      by (cbn [Nat.add]; congruence).
    cbn [Nat.add skipn]. split; [lia|].
    exists out'. eexists. split; [exact He|]. lia.
  - destruct (Encode64_spec out x Hl Hd Ho) as [B1 [B2 [out' [He _]]]].
    destruct (enc64_raw_spec x Hl Hd) as [Rl _].
    rewrite (count0_spec x 64 0), (count0_spec (enc64_rawBase58 x) 90 0)
      by (cbn [Nat.add]; congruence).
    cbn [Nat.add skipn]. split; [lia|].
    exists out'. eexists. split; [exact He|]. lia.
Qed.

Lemma C9_lengths_witness :
  ((count0 32 0 (repeat 255%Z 32) <= count0 45 0 (enc32_rawBase58 (repeat 255%Z 32)))%nat /\
   exists out' n, Encode32 (repeat 0 44) (repeat 255 32) = Ret (out', n) /\ 32 <= n <= 44) /\
  ((count0 64 0 (repeat 0%Z 64) <= count0 90 0 (enc64_rawBase58 (repeat 0%Z 64)))%nat /\
   exists out' n, Encode64 (repeat 0 88) (repeat 0 64) = Ret (out', n) /\ 64 <= n <= 88).
Proof.
  split.
  - apply (proj1 C9_lengths); [apply is_bytes_check; reflexivity | reflexivity].
  - apply (proj2 C9_lengths); [apply is_bytes_check; reflexivity | reflexivity].
Defined.

(** C5, as stated: Encode32 of the all-zero value does not yield 34 '1'
    characters. *)
Lemma C5_counterexample :
  ~ (exists out' n, Encode32 (repeat 0 44) (repeat 0 32) = Ret (out', n) /\
                    firstn (Z.to_nat n) out' = repeat 49 34).
Proof.
  intros [out' [n [H1 H2]]]. vm_compute in H1. injection H1 as <- <-.
  vm_compute in H2. discriminate.
Qed.

(** C5, amended: Encode32 of the all-zero 32-byte value yields 32 '1'
    characters; Encode32 of the value that is zero except for a final byte
    1 yields 31 '1' characters followed by "2"; Encode64 of the all-zero
    64-byte value yields 64 '1' characters. *)
Theorem C5_vectors :
  (exists out', Encode32 (repeat 0 44) (repeat 0 32) = Ret (out', 32) /\
                firstn 32 out' = repeat 49 32) /\
  (exists out', Encode32 (repeat 0 44) (repeat 0 31 ++ [1]) = Ret (out', 32) /\
                firstn 32 out' = repeat 49 31 ++ [50]) /\
  (exists out', Encode64 (repeat 0 88) (repeat 0 64) = Ret (out', 64) /\
                firstn 64 out' = repeat 49 64) /\
  Encode (repeat 0 32) = Ret (repeat 49 32) /\
  Encode (repeat 0 31 ++ [1]) = Ret (repeat 49 31 ++ [50]) /\
  Encode (repeat 0 64) = Ret (repeat 49 64).
Proof.
  repeat split; try (eexists; split); vm_compute; reflexivity.
Qed.

(** The validation loop, by the first character outside the alphabet: a
    character below '1' is a failed bounds check, any other one is
    [return false]. *)
Lemma dec_validate_spec (s : list Z) :
  dec_validate s =
  match find (fun c => negb (valid_char c)) s with
  | None => Ret true
  | Some c => if c <? 49 then Panic else Ret false
  end.
Proof.
  induction s as [|c s IH]; [reflexivity|].
  cbn [find]. destruct (valid_char c) eqn:Hv; cbn [negb].
  - rewrite <- IH. pose proof (dec_validate_valid [c]) as H1.
    cbn [forallb] in H1. rewrite Hv in H1. specialize (H1 eq_refl).
    cbn [dec_validate] in *.
    destruct (index inverseLUT _) as [v|]; [|discriminate].
    destruct (v =? invalidChar); [discriminate|reflexivity].
  - cbn [dec_validate]. unfold inverseLUTSentinel, inverseLUTOffset, index.
    destruct (Z.ltb_spec c 49) as [Hlt|Hge].
    + replace (c - 49 >? 1 + 122 - 49) with false
        by (symmetry; rewrite Z.gtb_ltb; apply Z.ltb_ge; lia).
      replace (c - 49 <? 0) with true by (symmetry; apply Z.ltb_lt; lia). reflexivity.
    + destruct (Z.ltb_spec (1 + 122 - 49) (c - 49)) as [Hbig|Hsmall];
        rewrite Z.gtb_ltb.
      * replace (1 + 122 - 49 <? c - 49) with true by (symmetry; apply Z.ltb_lt; lia).
        reflexivity.
      * replace (1 + 122 - 49 <? c - 49) with false by (symmetry; apply Z.ltb_ge; lia).
        replace (c - 49 <? 0) with false by (symmetry; apply Z.ltb_ge; lia).
        assert (Hlen : (Z.to_nat (c - 49) < length inverseLUT)%nat) by (cbn; lia).
        destruct (nth_error inverseLUT (Z.to_nat (c - 49))) as [v|] eqn:Hn;
          [|apply nth_error_None in Hn; lia].
        destruct (Z.eq_dec c 123) as [->|Hne];
          [vm_compute in Hn; injection Hn as <-; reflexivity|].
        unfold valid_char in Hv.
        replace (49 <=? c) with true in Hv by (symmetry; apply Z.leb_le; lia).
        replace (c <=? 122) with true in Hv by (symmetry; apply Z.leb_le; lia).
        cbn [andb] in Hv. unfold get in Hv. rewrite (nth_error_nth _ _ 0 Hn) in Hv.
        unfold invalidChar. destruct (v =? 255); [reflexivity|discriminate].
Qed.

Lemma find_first_invalid (s1 s2 : list Z) (c : Z) :
  forallb valid_char s1 = true -> valid_char c = false ->
  find (fun c => negb (valid_char c)) (s1 ++ c :: s2) = Some c.
Proof.
  intros H1 Hc. induction s1 as [|a s1 IH]; cbn [app find].
  - rewrite Hc. reflexivity.
  - cbn [forallb] in H1. apply andb_true_iff in H1. destruct H1 as [Ha H1].
    rewrite Ha. cbn [negb]. apply IH. exact H1.
Qed.

Lemma find_invalid_from (s : list Z) :
  (forall c, In c s -> 49 <= c) -> forallb valid_char s = false ->
  exists c, find (fun c => negb (valid_char c)) s = Some c /\ 49 <= c.
Proof.
  induction s as [|a s IH]; intros Hge Hv; [discriminate|].
  cbn [find forallb] in *. destruct (valid_char a) eqn:Ha; cbn [negb andb] in *.
  - apply IH; [intros c Hc; apply Hge; right; exact Hc|exact Hv].
  - exists a. split; [reflexivity|]. apply Hge. left. reflexivity.
Qed.

(** C4: a text whose first character outside the alphabet is below '1'
    makes the table lookup of the validation loop fail its bounds check
    (the signed index is negative), in Decode32 and in Decode64: so for
    '0' and for the space character.  When every character is '1' or
    above, a character outside the alphabet makes the decoders return
    false with the output untouched. *)
Theorem C4_lookup_below_offset :
  (forall out s1 c s2,
     (32 <= length (s1 ++ c :: s2) <= 44)%nat ->
     forallb valid_char s1 = true -> c < 49 ->
     Decode32 out (s1 ++ c :: s2) = Panic) /\
  (forall out s1 c s2,
     (64 <= length (s1 ++ c :: s2) <= 88)%nat ->
     forallb valid_char s1 = true -> c < 49 ->
     Decode64 out (s1 ++ c :: s2) = Panic) /\
  (forall out s,
     (forall c, In c s -> 49 <= c) -> forallb valid_char s = false ->
     Decode32 out s = Ret (false, out) /\ Decode64 out s = Ret (false, out)) /\
  (forall out, Decode32 out (48 :: repeat 49 31) = Panic) /\
  (forall out, Decode32 out (repeat 49 31 ++ [32]) = Panic) /\
  (forall out, Decode64 out (48 :: repeat 49 63) = Panic) /\
  (forall out, Decode64 out (repeat 49 63 ++ [32]) = Panic).
Proof.
  assert (Hc : forall c, c < 49 -> valid_char c = false).
  { intros c Hlt. unfold valid_char.
    replace (49 <=? c) with false by (symmetry; apply Z.leb_gt; exact Hlt). reflexivity. }
  split; [|split; [|split]].
  - intros out s1 c s2 Hl H1 Hlt. unfold Decode32.
    replace (Nat.ltb (length (s1 ++ c :: s2)) 32) with false
      by (symmetry; apply Nat.ltb_ge; lia).
    replace (Nat.ltb 44 (length (s1 ++ c :: s2))) with false
      by (symmetry; apply Nat.ltb_ge; lia).
    cbn [orb]. rewrite dec_validate_spec, (find_first_invalid s1 s2 c H1 (Hc c Hlt)).
    replace (c <? 49) with true by (symmetry; apply Z.ltb_lt; exact Hlt). reflexivity.
  - intros out s1 c s2 Hl H1 Hlt. unfold Decode64.
    replace (Nat.ltb (length (s1 ++ c :: s2)) 64) with false
      by (symmetry; apply Nat.ltb_ge; lia).
    replace (Nat.ltb 88 (length (s1 ++ c :: s2))) with false
      by (symmetry; apply Nat.ltb_ge; lia).
    cbn [orb]. rewrite dec_validate_spec, (find_first_invalid s1 s2 c H1 (Hc c Hlt)).
    replace (c <? 49) with true by (symmetry; apply Z.ltb_lt; exact Hlt). reflexivity.
  - intros out s Hge Hv.
    destruct (find_invalid_from s Hge Hv) as [c [Hf Hc49]].
    assert (E : dec_validate s = Ret false).
    { rewrite dec_validate_spec, Hf.
      replace (c <? 49) with false by (symmetry; apply Z.ltb_ge; exact Hc49). reflexivity. }
    unfold Decode32, Decode64. rewrite E.
    split; [destruct (_ || _)%bool|destruct (_ || _)%bool]; reflexivity.
  - repeat split; intros out; reflexivity.
Qed.

Lemma C4_lookup_below_offset_witness :
  Decode32 (repeat 0 32) (repeat 49 5 ++ 48 :: repeat 49 26) = Panic /\
  Decode64 (repeat 0 64) (repeat 49 5 ++ 32 :: repeat 49 60) = Panic /\
  Decode32 (repeat 0 32) (repeat 73 32) = Ret (false, repeat 0 32) /\
  Decode64 (repeat 0 64) (repeat 73 32) = Ret (false, repeat 0 64).
Proof.
  split; [|split].
  - apply (proj1 C4_lookup_below_offset); [cbn; lia | reflexivity | lia].
  - apply (proj1 (proj2 C4_lookup_below_offset)); [cbn; lia | reflexivity | lia].
  - split.
    + apply (proj1 (proj2 (proj2 C4_lookup_below_offset)));
        [intros c Hin; apply repeat_spec in Hin; subst c; lia | reflexivity].
    + apply (proj1 (proj2 (proj2 C4_lookup_below_offset)));
        [intros c Hin; apply repeat_spec in Hin; subst c; lia | reflexivity].
Defined.

Import Sealevel Examples.

(** * The claims on the parameter block *)

(** Update returns an error on every input: its loop is left only by a
    [return] of an error. *)
Lemma Update_returns_error (p : Params) (buf : Reader) :
  exists e, snd (Update p buf) = Some e.
Proof.
  unfold Update. destruct (Update_loop (Accounts p) buf) as [[accs buf'] e].
  exists e. reflexivity.
Qed.

(** C2: Update applied to the bytes Serialize wrote does not succeed.  For
    the block without accounts it returns "number of accounts changed";
    for a primary account followed by a duplicate of it, it reads the low
    byte of the account count as the marker of account 0 and returns
    "account order changed". *)
Theorem C2_update_after_serialize :
  snd (Update (fst (Serialize empty_block)) (NewReader (snd (Serialize empty_block))))
    = Some ErrAccountsChanged /\
  snd (Update (fst (Serialize small_block)) (NewReader (snd (Serialize small_block))))
    = Some ErrOrderChanged.
Proof. split; vm_compute; reflexivity. Qed.

(** C3: Serialize writes no reserved and no padding bytes.  For a primary
    account followed by a duplicate, the flags are followed by the key at
    once, the data length by the rent epoch, and the record of the
    duplicate is its index byte alone: 143 bytes, where the documented
    layout has 10394. *)
Theorem C3_serialize_omits_reserved :
  snd (Serialize small_block)
    = LittleEndian_PutUint64 2
      ++ [0xFF; 1; 0; 0] ++ repeat 1 32 ++ repeat 2 32
      ++ LittleEndian_PutUint64 5 ++ LittleEndian_PutUint64 0
      ++ LittleEndian_PutUint64 7
      ++ [0]
      ++ LittleEndian_PutUint64 2 ++ [5; 6] ++ repeat 3 32 /\
  len (snd (Serialize small_block)) = 143 /\
  len (Layout.block small_block) = 10394 /\
  snd (Serialize small_block) <> Layout.block small_block.
Proof.
  split; [vm_compute; reflexivity|]. split; [vm_compute; reflexivity|].
  split; [vm_compute; reflexivity|].
  intros H. apply (f_equal (@length Z)) in H. vm_compute in H. discriminate.
Qed.

(** C8: Update never returns success; on a source that holds exactly the
    one account of the block, in the documented layout, it walks the
    account, stands at the instruction data, and returns "number of
    accounts changed" without reading further. *)
Theorem C8_update_never_succeeds :
  (forall p buf, exists e, snd (Update p buf) = Some e) /\
  Update single_block (NewReader single_source)
    = (single_block, mkReader single_source 10351, Some ErrAccountsChanged).
Proof.
  split; [exact Update_returns_error|]. vm_compute. reflexivity.
Qed.

(** C10, as stated: for a block of 255 accounts that holds a primary
    account whose DuplicateIndex is 0, Update on the bytes Serialize wrote
    returns "attempted to grow account too much", at account 0. *)
Lemma C10_counterexample :
  ~ (forall p,
       (exists acc, In acc (Accounts p) /\ IsDuplicate acc = false /\
                    DuplicateIndex acc <> 0xFF) ->
       snd (Update (fst (Serialize p)) (NewReader (snd (Serialize p))))
         = Some ErrOrderChanged).
Proof.
  intros H. specialize (H wide_block).
  assert (E : snd (Update (fst (Serialize wide_block))
                     (NewReader (snd (Serialize wide_block)))) = Some ErrGrow)
    by (vm_compute; reflexivity).
  rewrite E in H. assert (Some ErrGrow = Some ErrOrderChanged); [|discriminate].
  apply H. exists (primary0 0 0). split; [right; left; reflexivity|].
  split; [reflexivity|]. cbn. lia.
Qed.

(** * Further properties of the Base58 codec *)

(** ** Digit strings without their leading zeros *)

Lemma leading0s_split (l : list Z) (k : nat) :
  (k <= leading0s l)%nat ->
  l = repeat 0 k ++ skipn k l /\ leading0s (skipn k l) = (leading0s l - k)%nat.
Proof.
  revert k; induction l as [|d l IH]; intros k Hk.
  - cbn [leading0s] in Hk. assert (k = 0%nat) by lia. subst k. split; reflexivity.
  - destruct k as [|k]; [split; [reflexivity|cbn [skipn]; lia]|].
    cbn [leading0s] in *. destruct (Z.eqb_spec d 0) as [->|Hne]; [|lia].
    destruct (IH k ltac:(lia)) as [E1 E2]. cbn [repeat app skipn].
    split; [f_equal; exact E1|rewrite E2; lia].
Qed.

Lemma eval_zeros_app (b : Z) (n : nat) (l : list Z) : eval b (repeat 0 n ++ l) = eval b l.
Proof.
  induction n as [|n IH]; [reflexivity|]. cbn [repeat app eval]. rewrite IH. lia.
Qed.

Lemma digits_in_zeros_app (b : Z) (n : nat) (l : list Z) :
  0 < b -> digits_in b l -> digits_in b (repeat 0 n ++ l).
Proof.
  intros Hb Hd. unfold digits_in. apply Forall_app. split; [|exact Hd].
  apply Forall_forall. intros x Hx. apply repeat_spec in Hx. lia.
Qed.

(** A digit string is determined by its value and the number of its
    leading zeros. *)
Lemma digits_unique (b : Z) (l1 l2 : list Z) :
  1 < b -> digits_in b l1 -> digits_in b l2 ->
  eval b l1 = eval b l2 -> leading0s l1 = leading0s l2 -> l1 = l2.
Proof.
  intros Hb H1 H2 He Hz.
  assert (Hl : length l1 = length l2).
  { pose proof (leading0s_le l1) as L1. pose proof (leading0s_le l2) as L2.
    pose proof (eval_upper b l1 Hb H1) as U1. pose proof (eval_upper b l2 Hb H2) as U2.
    destruct (Nat.eq_dec (leading0s l1) (length l1)) as [E1|N1];
      destruct (Nat.eq_dec (leading0s l2) (length l2)) as [E2|N2].
    - lia.
    - pose proof (eval_lower b l2 Hb H2 ltac:(lia)) as Lo.
      rewrite E1, Nat.sub_diag in U1. change (b ^ Z.of_nat 0) with 1 in U1.
      assert (0 < b ^ Z.of_nat (length l2 - leading0s l2 - 1))
        by (apply Z.pow_pos_nonneg; lia). lia.
    - pose proof (eval_lower b l1 Hb H1 ltac:(lia)) as Lo.
      rewrite E2, Nat.sub_diag in U2. change (b ^ Z.of_nat 0) with 1 in U2.
      assert (0 < b ^ Z.of_nat (length l1 - leading0s l1 - 1))
        by (apply Z.pow_pos_nonneg; lia). lia.
    - pose proof (eval_lower b l1 Hb H1 ltac:(lia)) as Lo1.
      pose proof (eval_lower b l2 Hb H2 ltac:(lia)) as Lo2.
      assert (A : b ^ Z.of_nat (length l1 - leading0s l1 - 1)
                  < b ^ Z.of_nat (length l2 - leading0s l2)) by lia.
      assert (B : b ^ Z.of_nat (length l2 - leading0s l2 - 1)
                  < b ^ Z.of_nat (length l1 - leading0s l1)) by lia.
      apply Z.pow_lt_mono_r_iff in A; [|lia|lia].
      apply Z.pow_lt_mono_r_iff in B; [|lia|lia]. lia. }
  apply (eval_inj b); [lia|assumption|assumption|exact Hl|exact He].
Qed.

(** The digits the output loop of an encoder copies: the raw digits
    without the leading zeros that exceed those of the input. *)
Lemma copied_digits (in_ raw : list Z) :
  digits_in 58 raw -> (leading0s in_ <= leading0s raw)%nat ->
  let ds := skipn (leading0s raw - leading0s in_) raw in
  length ds = (length raw - (leading0s raw - leading0s in_))%nat /\
  digits_in 58 ds /\ eval 58 ds = eval 58 raw /\ leading0s ds = leading0s in_.
Proof.
  intros Hd Hle. cbv zeta. split; [apply length_skipn|].
  split; [apply digits_in_skipn; exact Hd|].
  split; [apply eval_skip_zeros; lia|].
  destruct (leading0s_split raw (leading0s raw - leading0s in_) ltac:(lia)) as [_ E].
  rewrite E. lia.
Qed.

(** ** The encoders, by the digits they write *)

Lemma Encode32_digits (out in_ : list Z) :
  length in_ = 32%nat -> digits_in 256 in_ -> length out = 44%nat ->
  exists out' ds,
    Encode32 out in_ = Ret (out', Z.of_nat (length ds)) /\
    length out' = 44%nat /\ (32 <= length ds <= 44)%nat /\
    firstn (length ds) out' = map char_of ds /\
    digits_in 58 ds /\ eval 58 ds = eval 256 in_ /\ leading0s ds = leading0s in_.
Proof.
  intros Hl Hd Ho.
  destruct (Encode32_spec out in_ Hl Hd Ho) as [B1 [B2 [out' [He [Hlo Hf]]]]].
  destruct (enc32_raw_spec in_ Hl Hd) as [Rl [Rd Rv]]. cbv zeta in Rl, Rd, Rv.
  set (raw := enc32_rawBase58 in_) in *. clearbody raw.
  destruct (copied_digits in_ raw Rd ltac:(lia)) as [Dl [Dd [De Dz]]].
  cbv zeta in Dl, Dd, De, Dz. rewrite Rl in Dl.
  pose proof (leading0s_le in_) as Hz.
  exists out', (skipn (leading0s raw - leading0s in_) raw).
  rewrite Dl. repeat split; try assumption; try lia; congruence.
Qed.

Lemma Encode64_digits (out in_ : list Z) :
  length in_ = 64%nat -> digits_in 256 in_ -> length out = 88%nat ->
  exists out' ds,
    Encode64 out in_ = Ret (out', Z.of_nat (length ds)) /\
    length out' = 88%nat /\ (64 <= length ds <= 88)%nat /\
    firstn (length ds) out' = map char_of ds /\
    digits_in 58 ds /\ eval 58 ds = eval 256 in_ /\ leading0s ds = leading0s in_.
Proof.
  intros Hl Hd Ho.
  destruct (Encode64_spec out in_ Hl Hd Ho) as [B1 [B2 [out' [He [Hlo Hf]]]]].
  destruct (enc64_raw_spec in_ Hl Hd) as [Rl [Rd Rv]]. cbv zeta in Rl, Rd, Rv.
  set (raw := enc64_rawBase58 in_) in *. clearbody raw.
  destruct (copied_digits in_ raw Rd ltac:(lia)) as [Dl [Dd [De Dz]]].
  cbv zeta in Dl, Dd, De, Dz. rewrite Rl in Dl.
  pose proof (leading0s_le in_) as Hz.
  exists out', (skipn (leading0s raw - leading0s in_) raw).
  rewrite Dl. repeat split; try assumption; try lia; congruence.
Qed.

(** [Encode] after its dispatch on the length. *)
Lemma Encode_eq_32 (x : list Z) :
  length x = 32%nat ->
  Encode x = match Encode32 (repeat 0 44) x with
             | Panic => Panic
             | Ret (out, outLen) =>
                 if outLen <=? 44 then Ret (firstn (Z.to_nat outLen) out) else Panic
             end.
Proof. intros Hl. unfold Encode. rewrite Hl. cbn [Nat.eqb]. reflexivity. Qed.

Lemma Encode_eq_64 (x : list Z) :
  length x = 64%nat ->
  Encode x = match Encode64 (repeat 0 88) x with
             | Panic => Panic
             | Ret (out, outLen) =>
                 if outLen <=? 88 then Ret (firstn (Z.to_nat outLen) out) else Panic
             end.
Proof. intros Hl. unfold Encode. rewrite Hl. cbn [Nat.eqb]. reflexivity. Qed.

(** [Encode] on a 32-byte and on a 64-byte value. *)
Lemma Encode_32 (x : list Z) :
  length x = 32%nat -> digits_in 256 x ->
  exists ds, Encode x = Ret (map char_of ds) /\ (32 <= length ds <= 44)%nat /\
             digits_in 58 ds /\ eval 58 ds = eval 256 x /\ leading0s ds = leading0s x.
Proof.
  intros Hl Hd.
  destruct (Encode32_digits (repeat 0 44) x Hl Hd eq_refl)
    as [out' [ds [He [Hlo [Hn [Hf [Dd [De Dz]]]]]]]].
  exists ds. rewrite (Encode_eq_32 x Hl), He.
  replace (Z.of_nat (length ds) <=? 44) with true by (symmetry; apply Z.leb_le; lia).
  rewrite Nat2Z.id, Hf. repeat split; try assumption; lia.
Qed.

Lemma Encode_64 (x : list Z) :
  length x = 64%nat -> digits_in 256 x ->
  exists ds, Encode x = Ret (map char_of ds) /\ (64 <= length ds <= 88)%nat /\
             digits_in 58 ds /\ eval 58 ds = eval 256 x /\ leading0s ds = leading0s x.
Proof.
  intros Hl Hd.
  destruct (Encode64_digits (repeat 0 88) x Hl Hd eq_refl)
    as [out' [ds [He [Hlo [Hn [Hf [Dd [De Dz]]]]]]]].
  exists ds. rewrite (Encode_eq_64 x Hl), He.
  replace (Z.of_nat (length ds) <=? 88) with true by (symmetry; apply Z.leb_le; lia).
  rewrite Nat2Z.id, Hf. repeat split; try assumption; lia.
Qed.

(** The bytes of [out] from the returned length on are not written. *)
Lemma Encode32_frame (out in_ : list Z) :
  length in_ = 32%nat -> digits_in 256 in_ -> length out = 44%nat ->
  exists out' n,
    Encode32 out in_ = Ret (out', Z.of_nat n) /\ length out' = 44%nat /\
    forall j, (n <= j)%nat -> get out' j = get out j.
Proof.
  intros Hl Hd Ho.
  destruct (enc32_raw_spec in_ Hl Hd) as [Rl [Rd Rv]].
  destruct (lead_bounds 32 12 in_ (enc32_rawBase58 in_) powers_fit_32 Hl Hd Rd Rv) as [B1 B2].
  unfold Encode32. change (Z.to_nat enc32sz) with 45%nat.
  rewrite (count0_spec in_ 32 0), (count0_spec (enc32_rawBase58 in_) 45 0)
    by (cbn [Nat.add]; congruence).
  cbn [Nat.add skipn].
  set (raw := enc32_rawBase58 in_) in *. clearbody raw.
  pose proof (leading0s_le raw) as Hrz. rewrite Rl in *.
  unfold enc32sz. rewrite (u64_small (Z.of_nat (leading0s raw) - Z.of_nat (leading0s in_))) by lia.
  rewrite u64_small by lia.
  replace (Z.of_nat (leading0s raw) - Z.of_nat (leading0s in_))
    with (Z.of_nat (leading0s raw - leading0s in_)) by lia.
  replace (45 - Z.of_nat (leading0s raw - leading0s in_))
    with (Z.of_nat (45 - (leading0s raw - leading0s in_))) by lia.
  destruct (enc_copy_spec raw (45 - (leading0s raw - leading0s in_))
              (leading0s raw - leading0s in_) Rd ltac:(lia) ltac:(lia) 44 0 out)
    as [r [Hr [Hlr Hg]]]; try lia.
  change (Z.of_nat 0) with 0 in Hr. rewrite Hr.
  exists r, (45 - (leading0s raw - leading0s in_))%nat.
  split; [reflexivity|]. split; [lia|].
  intros j Hj. rewrite Hg. cbn [Nat.leb andb].
  replace (Nat.ltb j (45 - (leading0s raw - leading0s in_))) with false
    by (symmetry; apply Nat.ltb_ge; exact Hj).
  reflexivity.
Qed.

Lemma Encode64_frame (out in_ : list Z) :
  length in_ = 64%nat -> digits_in 256 in_ -> length out = 88%nat ->
  exists out' n,
    Encode64 out in_ = Ret (out', Z.of_nat n) /\ length out' = 88%nat /\
    forall j, (n <= j)%nat -> get out' j = get out j.
Proof.
  intros Hl Hd Ho.
  destruct (enc64_raw_spec in_ Hl Hd) as [Rl [Rd Rv]].
  destruct (lead_bounds 64 24 in_ (enc64_rawBase58 in_) powers_fit_64 Hl Hd Rd Rv) as [B1 B2].
  unfold Encode64. change raw64sz with 90%nat.
  rewrite (count0_spec in_ 64 0), (count0_spec (enc64_rawBase58 in_) 90 0)
    by (cbn [Nat.add]; congruence).
  cbn [Nat.add skipn].
  set (raw := enc64_rawBase58 in_) in *. clearbody raw.
  pose proof (leading0s_le raw) as Hrz. rewrite Rl in *.
  rewrite (u64_small (Z.of_nat (leading0s raw) - Z.of_nat (leading0s in_))) by lia.
  rewrite u64_small by lia.
  replace (Z.of_nat (leading0s raw) - Z.of_nat (leading0s in_))
    with (Z.of_nat (leading0s raw - leading0s in_)) by lia.
  replace (Z.of_nat 90 - Z.of_nat (leading0s raw - leading0s in_))
    with (Z.of_nat (90 - (leading0s raw - leading0s in_))) by lia.
  destruct (enc_copy_spec raw (90 - (leading0s raw - leading0s in_))
              (leading0s raw - leading0s in_) Rd ltac:(lia) ltac:(lia) 88 0 out)
    as [r [Hr [Hlr Hg]]]; try lia.
  change (Z.of_nat 0) with 0 in Hr. rewrite Hr.
  exists r, (90 - (leading0s raw - leading0s in_))%nat.
  split; [reflexivity|]. split; [lia|].
  intros j Hj. rewrite Hg. cbn [Nat.leb andb].
  replace (Nat.ltb j (90 - (leading0s raw - leading0s in_))) with false
    by (symmetry; apply Nat.ltb_ge; exact Hj).
  reflexivity.
Qed.

Lemma skipn_frame (a b : list Z) (n : nat) :
  length a = length b -> (forall j, (n <= j)%nat -> get a j = get b j) ->
  skipn n a = skipn n b.
Proof.
  intros Hl Hg. apply list_get_ext; [rewrite !length_skipn; lia|].
  intros j _. rewrite !get_skipn. apply Hg. lia.
Qed.

(** ** The canonical-form check as a comparison of counts *)

Lemma dec_canonical_eqb (n : nat) (x s : list Z) :
  length x = n -> (n <= length s)%nat ->
  dec_canonical n x s = Nat.eqb (leading1s s) (leading0s x).
Proof.
  intros Hx Hs. pose proof (dec_canonical_spec n x s Hx) as H.
  pose proof (leading0s_le x) as Hz.
  destruct (Nat.eqb_spec (leading1s s) (leading0s x)) as [E|N].
  - apply H. rewrite <- E. split; [apply leading1s_ones|apply leading1s_next].
  - destruct (dec_canonical n x s) eqn:Hc; [|reflexivity].
    exfalso. apply N. destruct (proj1 H eq_refl) as [A B].
    apply leading1s_unique; [lia|exact A|exact B].
Qed.

Lemma find_invalid_split (s : list Z) (c : Z) :
  find (fun c => negb (valid_char c)) s = Some c ->
  exists s1 s2, s = s1 ++ c :: s2 /\ forallb valid_char s1 = true /\ valid_char c = false.
Proof.
  induction s as [|a s IH]; [discriminate|]. cbn [find].
  destruct (valid_char a) eqn:Ha; cbn [negb].
  - intros H. destruct (IH H) as [s1 [s2 [E [V C]]]].
    exists (a :: s1), s2. rewrite E. cbn [forallb]. rewrite Ha, V. repeat split. exact C.
  - intros H. injection H as <-. exists [], s. repeat split. exact Ha.
Qed.

(** ** Encode and the decoders *)

Lemma Encode_inv_32 (x s : list Z) :
  length x = 32%nat -> digits_in 256 x -> Encode x = Ret s ->
  (32 <= length s <= 44)%nat /\
  forall out, length out = 32%nat -> Decode32 out s = Ret (true, x).
Proof.
  intros Hl Hd He.
  destruct (Encode32_digits (repeat 0 44) x Hl Hd eq_refl)
    as [out' [ds [E32 [Hlo [Hn [Hf _]]]]]].
  rewrite (Encode_eq_32 x Hl), E32 in He.
  replace (Z.of_nat (length ds) <=? 44) with true in He by (symmetry; apply Z.leb_le; lia).
  injection He as <-. rewrite Nat2Z.id, Hf, length_map. split; [exact Hn|].
  intros out Ho.
  destruct (roundtrip32 (repeat 0 44) out x Hl Hd eq_refl Ho) as [o [n [E1 E2]]].
  rewrite E32 in E1. injection E1 as <- <-. rewrite Nat2Z.id, Hf in E2. exact E2.
Qed.

Lemma Encode_inv_64 (x s : list Z) :
  length x = 64%nat -> digits_in 256 x -> Encode x = Ret s ->
  (64 <= length s <= 88)%nat /\
  forall out, length out = 64%nat -> Decode64 out s = Ret (true, x).
Proof.
  intros Hl Hd He.
  destruct (Encode64_digits (repeat 0 88) x Hl Hd eq_refl)
    as [out' [ds [E64 [Hlo [Hn [Hf _]]]]]].
  rewrite (Encode_eq_64 x Hl), E64 in He.
  replace (Z.of_nat (length ds) <=? 88) with true in He by (symmetry; apply Z.leb_le; lia).
  injection He as <-. rewrite Nat2Z.id, Hf, length_map. split; [exact Hn|].
  intros out Ho.
  destruct (roundtrip64 (repeat 0 88) out x Hl Hd eq_refl Ho) as [o [n [E1 E2]]].
  rewrite E64 in E1. injection E1 as <- <-. rewrite Nat2Z.id, Hf in E2. exact E2.
Qed.

Lemma Encode_length (buf s : list Z) :
  Encode buf = Ret s -> length buf = 32%nat \/ length buf = 64%nat.
Proof.
  unfold Encode. destruct (Nat.eqb_spec (length buf) 32) as [E|_]; [left; exact E|].
  destruct (Nat.eqb_spec (length buf) 64) as [E|_]; [right; exact E|discriminate].
Qed.

Lemma char_of_injective (l1 l2 : list Z) :
  digits_in 58 l1 -> digits_in 58 l2 -> map char_of l1 = map char_of l2 -> l1 = l2.
Proof.
  intros H1 H2 E. destruct (text_of_digits l1 H1) as [_ E1].
  destruct (text_of_digits l2 H2) as [_ E2]. rewrite <- E1, <- E2, E. reflexivity.
Qed.

Lemma map_char_of_zeros (n : nat) (l : list Z) :
  map char_of (repeat 0 n ++ l) = repeat 49 n ++ map char_of l.
Proof.
  induction n as [|n IH]; [reflexivity|]. cbn [repeat app map]. rewrite IH. reflexivity.
Qed.

(** ** Properties of the encoders *)

(** X1. The text Encode32 writes for a 32-byte value is the characters
    [alphabet[d]] of base-58 digits [d] whose value is the value of the
    input bytes (both most significant first), with exactly as many leading
    zero digits as the input has leading zero bytes; the returned length is
    the number of these digits.  The same for Encode64 on 64-byte values. *)
Theorem encode_writes_value :
  (forall out x,
     is_bytes 32 x -> length out = 44%nat ->
     exists out' ds,
       Encode32 out x = Ret (out', Z.of_nat (length ds)) /\
       firstn (length ds) out' = map char_of ds /\
       digits_in 58 ds /\ eval 58 ds = eval 256 x /\ leading0s ds = leading0s x) /\
  (forall out x,
     is_bytes 64 x -> length out = 88%nat ->
     exists out' ds,
       Encode64 out x = Ret (out', Z.of_nat (length ds)) /\
       firstn (length ds) out' = map char_of ds /\
       digits_in 58 ds /\ eval 58 ds = eval 256 x /\ leading0s ds = leading0s x).
Proof.
  split; intros out x [Hl Hd] Ho.
  - destruct (Encode32_digits out x Hl Hd Ho) as [out' [ds [He [_ [_ [Hf [Dd [De Dz]]]]]]]].
    exists out', ds. repeat split; assumption.
  - destruct (Encode64_digits out x Hl Hd Ho) as [out' [ds [He [_ [_ [Hf [Dd [De Dz]]]]]]]].
    exists out', ds. repeat split; assumption.
Qed.

Lemma encode_writes_value_witness :
  (exists out' ds,
     Encode32 (repeat 0 44) (repeat 0 30 ++ [1; 1]) = Ret (out', Z.of_nat (length ds)) /\
     firstn (length ds) out' = map char_of ds /\
     digits_in 58 ds /\ eval 58 ds = eval 256 (repeat 0 30 ++ [1; 1]) /\
     leading0s ds = leading0s (repeat 0 30 ++ [1; 1])) /\
  (exists out' ds,
     Encode64 (repeat 0 88) (repeat 255 64) = Ret (out', Z.of_nat (length ds)) /\
     firstn (length ds) out' = map char_of ds /\
     digits_in 58 ds /\ eval 58 ds = eval 256 (repeat 255 64) /\
     leading0s ds = leading0s (repeat 255 64)).
Proof.
  split.
  - apply (proj1 encode_writes_value); [apply is_bytes_check; reflexivity|reflexivity].
  - apply (proj2 encode_writes_value); [apply is_bytes_check; reflexivity|reflexivity].
Defined.

(** X2. Encode32 and Encode64 write the first [n] bytes of the output array
    only, [n] being the returned length: the bytes from [n] on keep the
    contents they had before the call. *)
Theorem encode_keeps_tail :
  (forall out x,
     is_bytes 32 x -> length out = 44%nat ->
     exists out' n, Encode32 out x = Ret (out', n) /\ length out' = 44%nat /\
                    skipn (Z.to_nat n) out' = skipn (Z.to_nat n) out) /\
  (forall out x,
     is_bytes 64 x -> length out = 88%nat ->
     exists out' n, Encode64 out x = Ret (out', n) /\ length out' = 88%nat /\
                    skipn (Z.to_nat n) out' = skipn (Z.to_nat n) out).
Proof.
  split; intros out x [Hl Hd] Ho.
  - destruct (Encode32_frame out x Hl Hd Ho) as [out' [n [He [Hlo Hg]]]].
    exists out', (Z.of_nat n). split; [exact He|]. split; [exact Hlo|].
    rewrite Nat2Z.id. apply skipn_frame; [congruence|exact Hg].
  - destruct (Encode64_frame out x Hl Hd Ho) as [out' [n [He [Hlo Hg]]]].
    exists out', (Z.of_nat n). split; [exact He|]. split; [exact Hlo|].
    rewrite Nat2Z.id. apply skipn_frame; [congruence|exact Hg].
Qed.

Lemma encode_keeps_tail_witness :
  (exists out' n, Encode32 (repeat 7 44) (repeat 0 32) = Ret (out', n) /\
                  length out' = 44%nat /\
                  skipn (Z.to_nat n) out' = skipn (Z.to_nat n) (repeat 7 44)) /\
  (exists out' n, Encode64 (repeat 7 88) (repeat 0 64) = Ret (out', n) /\
                  length out' = 88%nat /\
                  skipn (Z.to_nat n) out' = skipn (Z.to_nat n) (repeat 7 88)).
Proof.
  split.
  - apply (proj1 encode_keeps_tail); [apply is_bytes_check; reflexivity|reflexivity].
  - apply (proj2 encode_keeps_tail); [apply is_bytes_check; reflexivity|reflexivity].
Defined.

(** X3. Encode panics exactly on the byte slices whose length is neither 32
    nor 64: on every 32-byte and every 64-byte slice it returns a string. *)
Theorem Encode_panics_iff :
  forall buf, digits_in 256 buf ->
    (Encode buf = Panic <-> length buf <> 32%nat /\ length buf <> 64%nat).
Proof.
  intros buf Hd. split.
  - intros H. split; intros Hl.
    + destruct (Encode_32 buf Hl Hd) as [ds [E _]]. rewrite E in H. discriminate.
    + destruct (Encode_64 buf Hl Hd) as [ds [E _]]. rewrite E in H. discriminate.
  - intros [H1 H2]. unfold Encode.
    destruct (Nat.eqb_spec (length buf) 32) as [E|_]; [contradiction|].
    destruct (Nat.eqb_spec (length buf) 64) as [E|_]; [contradiction|reflexivity].
Qed.

Lemma Encode_panics_iff_witness :
  (Encode (repeat 255 33) = Panic <->
   length (repeat 255 33) <> 32%nat /\ length (repeat 255 33) <> 64%nat) /\
  Encode (repeat 255 33) = Panic.
Proof.
  assert (D : digits_in 256 (repeat 255 33)).
  { apply Forall_forall. intros d Hin. apply repeat_spec in Hin. subst d. lia. }
  split; [exact (Encode_panics_iff (repeat 255 33) D)|].
  apply (proj2 (Encode_panics_iff (repeat 255 33) D)). split; cbn; lia.
Defined.

(** X4. Decode32 accepts a text [s] with the value [x] exactly when [x] is a
    32-byte value and [s] is the string Encode returns for [x]; the same
    for Decode64 and 64-byte values.  The accepted texts are the outputs
    of Encode and nothing else. *)
Theorem decode_accepts_iff_encode :
  (forall out s x,
     length out = 32%nat ->
     (Decode32 out s = Ret (true, x) <-> is_bytes 32 x /\ Encode x = Ret s)) /\
  (forall out s x,
     length out = 64%nat ->
     (Decode64 out s = Ret (true, x) <-> is_bytes 64 x /\ Encode x = Ret s)).
Proof.
  split; intros out s x Ho; split.
  - intros H. destruct (Decode32_accepts out s x Ho H) as [Hs [_ [Xl [Xd _]]]].
    split; [split; assumption|].
    destruct (canonical32 out s x Ho H) as [_ E].
    destruct (E (repeat 0 44) eq_refl) as [out' [He Hf]].
    rewrite (Encode_eq_32 x Xl), He.
    replace (Z.of_nat (length s) <=? 44) with true by (symmetry; apply Z.leb_le; lia).
    rewrite Nat2Z.id, Hf. reflexivity.
  - intros [[Xl Xd] He]. apply (Encode_inv_32 x s Xl Xd He). exact Ho.
  - intros H. destruct (Decode64_accepts out s x Ho H) as [Hs [_ [Xl [Xd _]]]].
    split; [split; assumption|].
    destruct (canonical64 out s x Ho H) as [_ E].
    destruct (E (repeat 0 88) eq_refl) as [out' [He Hf]].
    rewrite (Encode_eq_64 x Xl), He.
    replace (Z.of_nat (length s) <=? 88) with true by (symmetry; apply Z.leb_le; lia).
    rewrite Nat2Z.id, Hf. reflexivity.
  - intros [[Xl Xd] He]. apply (Encode_inv_64 x s Xl Xd He). exact Ho.
Qed.

Lemma decode_accepts_iff_encode_witness :
  Decode32 (repeat 0 32) text257_32 = Ret (true, repeat 0 30 ++ [1; 1]) /\
  Encode (repeat 0 62 ++ [1; 1]) = Ret text257_64.
Proof.
  split.
  - apply (proj1 decode_accepts_iff_encode (repeat 0 32) text257_32 (repeat 0 30 ++ [1; 1])
             eq_refl).
    split; [apply is_bytes_check; reflexivity|vm_compute; reflexivity].
  - apply (proj2 decode_accepts_iff_encode (repeat 0 64) text257_64 (repeat 0 62 ++ [1; 1])
             eq_refl).
    vm_compute. reflexivity.
Defined.

(** X5. Encode is injective on its whole domain: two byte slices, of 32 or of
    64 bytes each, for which Encode returns the same string are equal. *)
Theorem Encode_injective :
  forall x y s,
    digits_in 256 x -> digits_in 256 y ->
    Encode x = Ret s -> Encode y = Ret s -> x = y.
Proof.
  intros x y s Hx Hy Ex Ey.
  destruct (Encode_length x s Ex) as [Lx|Lx]; destruct (Encode_length y s Ey) as [Ly|Ly].
  - destruct (Encode_inv_32 x s Lx Hx Ex) as [_ Dx].
    destruct (Encode_inv_32 y s Ly Hy Ey) as [_ Dy].
    specialize (Dx (repeat 0 32) eq_refl). specialize (Dy (repeat 0 32) eq_refl).
    rewrite Dx in Dy. injection Dy as E. exact E.
  - destruct (Encode_inv_32 x s Lx Hx Ex) as [B _].
    destruct (Encode_inv_64 y s Ly Hy Ey) as [B' _]. lia.
  - destruct (Encode_inv_64 x s Lx Hx Ex) as [B _].
    destruct (Encode_inv_32 y s Ly Hy Ey) as [B' _]. lia.
  - destruct (Encode_inv_64 x s Lx Hx Ex) as [_ Dx].
    destruct (Encode_inv_64 y s Ly Hy Ey) as [_ Dy].
    specialize (Dx (repeat 0 64) eq_refl). specialize (Dy (repeat 0 64) eq_refl).
    rewrite Dx in Dy. injection Dy as E. exact E.
Qed.

Lemma Encode_injective_witness :
  repeat 0 31 ++ [1] = repeat 0 31 ++ [1].
Proof.
  apply (Encode_injective (repeat 0 31 ++ [1]) (repeat 0 31 ++ [1]) (repeat 49 31 ++ [50])).
  - apply (is_bytes_check 32). reflexivity.
  - apply (is_bytes_check 32). reflexivity.
  - vm_compute. reflexivity.
  - vm_compute. reflexivity.
Defined.

(** X6. Encode64 agrees with Encode32 on the values that fit in 32 bytes: the
    string of a 32-byte value extended by 32 leading zero bytes is the
    string of the value behind 32 more '1' characters. *)
Theorem Encode_zero_extended :
  forall x, is_bytes 32 x ->
    exists s, Encode x = Ret s /\ Encode (repeat 0 32 ++ x) = Ret (repeat 49 32 ++ s).
Proof.
  intros x [Hl Hd].
  destruct (Encode_32 x Hl Hd) as [ds [E32 [_ [Dd [De Dz]]]]].
  assert (Hl' : length (repeat 0 32 ++ x) = 64%nat)
    by (rewrite length_app, repeat_length, Hl; reflexivity).
  assert (Hd' : digits_in 256 (repeat 0 32 ++ x))
    by (apply digits_in_zeros_app; [lia|exact Hd]).
  destruct (Encode_64 (repeat 0 32 ++ x) Hl' Hd') as [ds' [E64 [_ [Dd' [De' Dz']]]]].
  exists (map char_of ds). split; [exact E32|]. rewrite E64. f_equal.
  rewrite <- map_char_of_zeros. f_equal.
  apply (digits_unique 58); [lia|exact Dd'|apply digits_in_zeros_app; [lia|exact Dd]| |].
  - rewrite De', !eval_zeros_app, De. reflexivity.
  - rewrite Dz', !leading0s_app_zeros, Dz. reflexivity.
Qed.

Lemma Encode_zero_extended_witness :
  exists s, Encode (repeat 255 32) = Ret s /\
            Encode (repeat 0 32 ++ repeat 255 32) = Ret (repeat 49 32 ++ s).
Proof.
  apply (Encode_zero_extended (repeat 255 32)). apply is_bytes_check. reflexivity.
Defined.

(** ** Properties of the decoders *)

(** X7. On a text over the alphabet, of valid length, whose value fits,
    Decode32 stores the value in [out], as 32 bytes most significant
    first, and returns whether the leading '1' characters of the text are
    as many as the leading zero bytes of the value: a text rejected for
    its count of leading '1' characters has overwritten [out] all the
    same.  The same for Decode64. *)
Theorem decode_writes_value :
  (forall out s,
     length out = 32%nat -> (32 <= length s <= 44)%nat ->
     forallb valid_char s = true -> eval 58 (map digit_of s) < 2 ^ 256 ->
     exists x, is_bytes 32 x /\ eval 256 x = eval 58 (map digit_of s) /\
               Decode32 out s = Ret (Nat.eqb (leading1s s) (leading0s x), x)) /\
  (forall out s,
     length out = 64%nat -> (64 <= length s <= 88)%nat ->
     forallb valid_char s = true -> eval 58 (map digit_of s) < 2 ^ 512 ->
     exists x, is_bytes 64 x /\ eval 256 x = eval 58 (map digit_of s) /\
               Decode64 out s = Ret (Nat.eqb (leading1s s) (leading0s x), x)).
Proof.
  split; intros out s Ho Hs Hv Hlt.
  - destruct (Decode32_spec out s Hs Hv) as [_ D]. cbv zeta in D.
    destruct (D Hlt Ho) as [x [Xl [Xd [Xe Xr]]]].
    exists x. split; [split; assumption|]. split; [exact Xe|].
    rewrite Xr, (dec_canonical_eqb 32 x s Xl) by lia. reflexivity.
  - destruct (Decode64_spec out s Hs Hv) as [_ D]. cbv zeta in D.
    destruct (D Hlt Ho) as [x [Xl [Xd [Xe Xr]]]].
    exists x. split; [split; assumption|]. split; [exact Xe|].
    rewrite Xr, (dec_canonical_eqb 64 x s Xl) by lia. reflexivity.
Qed.

Lemma decode_writes_value_witness :
  (exists x, is_bytes 32 x /\ eval 256 x = eval 58 (map digit_of (repeat 49 33)) /\
             Decode32 (repeat 9 32) (repeat 49 33)
             = Ret (Nat.eqb (leading1s (repeat 49 33)) (leading0s x), x)) /\
  (exists x, is_bytes 64 x /\ eval 256 x = eval 58 (map digit_of (repeat 49 65)) /\
             Decode64 (repeat 9 64) (repeat 49 65)
             = Ret (Nat.eqb (leading1s (repeat 49 65)) (leading0s x), x)).
Proof.
  split.
  - apply (proj1 decode_writes_value);
      [reflexivity | cbn; lia | reflexivity | vm_compute; reflexivity].
  - apply (proj2 decode_writes_value);
      [reflexivity | cbn; lia | reflexivity | vm_compute; reflexivity].
Defined.

(** X8. The decoders panic in one case only: a text of valid length in which
    a byte below '1' comes before any other byte outside the alphabet.  A
    text of any other length, and a text whose first byte outside the
    alphabet (if any) is '1' or above, never makes them panic. *)
Theorem decode_panics_iff :
  (forall out s,
     Decode32 out s = Panic <->
     (32 <= length s <= 44)%nat /\
     exists s1 c s2, s = s1 ++ c :: s2 /\ forallb valid_char s1 = true /\ c < 49) /\
  (forall out s,
     Decode64 out s = Panic <->
     (64 <= length s <= 88)%nat /\
     exists s1 c s2, s = s1 ++ c :: s2 /\ forallb valid_char s1 = true /\ c < 49).
Proof.
  assert (Hc : forall c, c < 49 -> valid_char c = false).
  { intros c Hlt. unfold valid_char.
    replace (49 <=? c) with false by (symmetry; apply Z.leb_gt; exact Hlt). reflexivity. }
  split; intros out s; split.
  - unfold Decode32.
    destruct (Nat.ltb_spec (length s) 32) as [|H1]; [discriminate|].
    destruct (Nat.ltb_spec 44 (length s)) as [|H2]; [discriminate|]. cbn [orb].
    rewrite dec_validate_spec.
    destruct (find (fun c => negb (valid_char c)) s) as [c|] eqn:Hf.
    + destruct (Z.ltb_spec c 49) as [Hlt|Hge]; [|discriminate]. intros _.
      split; [lia|]. destruct (find_invalid_split s c Hf) as [s1 [s2 [E [V _]]]].
      exists s1, c, s2. repeat split; assumption.
    + destruct (get (dec32_binary s) 0 >? 0xFFFFFFFF); discriminate.
  - intros [Hl [s1 [c [s2 [E [V Hlt]]]]]]. subst s. unfold Decode32.
    replace (Nat.ltb (length (s1 ++ c :: s2)) 32) with false
      by (symmetry; apply Nat.ltb_ge; lia).
    replace (Nat.ltb 44 (length (s1 ++ c :: s2))) with false
      by (symmetry; apply Nat.ltb_ge; lia).
    cbn [orb]. rewrite dec_validate_spec, (find_first_invalid s1 s2 c V (Hc c Hlt)).
    replace (c <? 49) with true by (symmetry; apply Z.ltb_lt; exact Hlt). reflexivity.
  - unfold Decode64.
    destruct (Nat.ltb_spec (length s) 64) as [|H1]; [discriminate|].
    destruct (Nat.ltb_spec 88 (length s)) as [|H2]; [discriminate|]. cbn [orb].
    rewrite dec_validate_spec.
    destruct (find (fun c => negb (valid_char c)) s) as [c|] eqn:Hf.
    + destruct (Z.ltb_spec c 49) as [Hlt|Hge]; [|discriminate]. intros _.
      split; [lia|]. destruct (find_invalid_split s c Hf) as [s1 [s2 [E [V _]]]].
      exists s1, c, s2. repeat split; assumption.
    + destruct (get (dec64_binary s) 0 >? 0xFFFFFFFF); discriminate.
  - intros [Hl [s1 [c [s2 [E [V Hlt]]]]]]. subst s. unfold Decode64.
    replace (Nat.ltb (length (s1 ++ c :: s2)) 64) with false
      by (symmetry; apply Nat.ltb_ge; lia).
    replace (Nat.ltb 88 (length (s1 ++ c :: s2))) with false
      by (symmetry; apply Nat.ltb_ge; lia).
    cbn [orb]. rewrite dec_validate_spec, (find_first_invalid s1 s2 c V (Hc c Hlt)).
    replace (c <? 49) with true by (symmetry; apply Z.ltb_lt; exact Hlt). reflexivity.
Qed.

Lemma decode_panics_iff_witness :
  Decode32 (repeat 0 32) (repeat 49 5 ++ 32 :: repeat 49 30) = Panic /\
  ~ Decode64 (repeat 0 64) (repeat 32 3) = Panic.
Proof.
  split.
  - apply (proj2 (proj1 decode_panics_iff (repeat 0 32) (repeat 49 5 ++ 32 :: repeat 49 30))).
    split; [cbn; lia|]. exists (repeat 49 5), 32, (repeat 49 30).
    split; [reflexivity|]. split; [reflexivity|lia].
  - intros H.
    apply (proj1 (proj2 decode_panics_iff (repeat 0 64) (repeat 32 3))) in H.
    destruct H as [H _]. cbn in H. lia.
Defined.

Import Sealevel Examples Wire.

(** * Further properties of the parameter block *)

(** ** Serialize *)

Lemma len_app {A : Type} (a b : list A) : len (a ++ b) = len a + len b.
Proof. unfold len. rewrite length_app. lia. Qed.

Lemma len_nonneg {A : Type} (a : list A) : 0 <= len a.
Proof. unfold len. lia. Qed.

Lemma len_PutUint64 (v : Z) : len (LittleEndian_PutUint64 v) = 8.
Proof. reflexivity. Qed.

Lemma record_with_Padding (acc : AccountParam) (padding : Z) :
  record (with_Padding acc padding) = record acc.
Proof. reflexivity. Qed.

Lemma len_record (acc : AccountParam) : len (record acc) = record_size acc.
Proof.
  unfold record, record_size. destruct (IsDuplicate acc); [reflexivity|].
  rewrite !len_app, !len_PutUint64. change (len [255; _; _; _]) with 4. lia.
Qed.

(** One iteration of the loop of Serialize. *)
Lemma Serialize_account_spec (buf : list Z) (acc : AccountParam) :
  Serialize_account buf acc =
  (buf ++ record acc,
   if IsDuplicate acc then acc
   else with_Padding acc
          (ReallocSpace + 1 + Z.quot (len buf + len (record acc) - 8 - 1) ReallocAlign)).
Proof.
  unfold Serialize_account, record, Buffer_Write, Buffer_Grow.
  destruct (IsDuplicate acc) eqn:Hd; [reflexivity|].
  cbn [IsDuplicate DuplicateIndex IsSigner IsWritable IsExecutable Key Owner Lamports
       Data Padding RentEpoch].
  f_equal.
  - rewrite <- !app_assoc. reflexivity.
  - unfold with_Padding. f_equal; [symmetry; exact Hd|].
    rewrite !len_app, !len_PutUint64. do 2 f_equal.
    change (len [255]) with 1. change (len [byte_of_bool (IsSigner acc)]) with 1.
    change (len [byte_of_bool (IsWritable acc)]) with 1.
    change (len [byte_of_bool (IsExecutable acc)]) with 1.
    change (len [255; byte_of_bool (IsSigner acc); byte_of_bool (IsWritable acc);
                 byte_of_bool (IsExecutable acc)]) with 4.
    lia.
Qed.

(** The loop of Serialize: the buffer, and the account at each index. *)
Lemma Serialize_accounts_spec (accs : list AccountParam) :
  forall buf,
    fst (Serialize_accounts buf accs) = buf ++ flat_map record accs /\
    length (snd (Serialize_accounts buf accs)) = length accs /\
    forall i acc, nth_error accs i = Some acc ->
      nth_error (snd (Serialize_accounts buf accs)) i =
      Some (if IsDuplicate acc then acc
            else with_Padding acc
                   (ReallocSpace + 1
                    + Z.quot (len buf + len (flat_map record (firstn (S i) accs)) - 8 - 1)
                        ReallocAlign)).
Proof.
  induction accs as [|a accs IH]; intros buf.
  - cbn [Serialize_accounts fst snd flat_map]. rewrite app_nil_r.
    split; [reflexivity|]. split; [reflexivity|]. intros [|i] acc H; discriminate.
  - cbn [Serialize_accounts]. rewrite Serialize_account_spec.
    specialize (IH (buf ++ record a)).
    destruct (Serialize_accounts (buf ++ record a) accs) as [b rest].
    cbn [fst snd] in *. destruct IH as [Hb [Hl Hn]].
    split; [rewrite Hb; cbn [flat_map]; rewrite app_assoc; reflexivity|].
    split; [cbn [length]; rewrite Hl; reflexivity|].
    intros [|i] acc H.
    + cbn [nth_error] in *. injection H as <-. cbn [firstn flat_map].
      rewrite app_nil_r. reflexivity.
    + cbn [nth_error] in *. rewrite (Hn i acc H).
      change (firstn (S (S i)) (a :: accs)) with (a :: firstn (S i) accs).
      cbn [flat_map]. rewrite !len_app.
      replace (len buf + len (record a) + len (flat_map record (firstn (S i) accs)) - 8 - 1)
        with (len buf + (len (record a) + len (flat_map record (firstn (S i) accs))) - 8 - 1)
        by lia.
      reflexivity.
Qed.

Lemma Serialize_eq (p : Params) :
  Serialize p =
  (mkParams (snd (Serialize_accounts (LittleEndian_PutUint64 (u64 (len (Accounts p))))
                    (Accounts p)))
     (Params_Data p) (ProgramID p),
   fst (Serialize_accounts (LittleEndian_PutUint64 (u64 (len (Accounts p)))) (Accounts p))
   ++ LittleEndian_PutUint64 (u64 (len (Params_Data p))) ++ Params_Data p ++ ProgramID p).
Proof.
  unfold Serialize, Buffer_Write. cbn [app].
  destruct (Serialize_accounts _ (Accounts p)) as [b accs]. cbn [fst snd].
  rewrite <- !app_assoc. reflexivity.
Qed.

Lemma len_flat_map_record (accs : list AccountParam) :
  len (flat_map record accs) = fold_right (fun acc n => record_size acc + n) 0 accs.
Proof.
  induction accs as [|a accs IH]; [reflexivity|].
  cbn [flat_map fold_right]. rewrite len_app, IH, len_record. reflexivity.
Qed.

Lemma Serialize_output (p : Params) :
  snd (Serialize p)
  = LittleEndian_PutUint64 (u64 (len (Accounts p)))
    ++ flat_map record (Accounts p)
    ++ LittleEndian_PutUint64 (u64 (len (Params_Data p)))
    ++ Params_Data p ++ ProgramID p.
Proof.
  rewrite Serialize_eq. cbn [snd].
  destruct (Serialize_accounts_spec (Accounts p)
              (LittleEndian_PutUint64 (u64 (len (Accounts p))))) as [Hb _].
  rewrite Hb, <- app_assoc. reflexivity.
Qed.

(** X9. Serialize writes the 8-byte count of the accounts, the record of each
    account, the 8-byte length of the instruction data, the instruction
    data and the program id, and nothing else: a duplicate account is its
    index byte alone, a primary account is the 0xFF marker, the three
    flags, key, owner, lamports, data length, data and rent epoch with no
    byte in between, and no Padding field enters the bytes.  For 32-byte
    keys and owners that is 1 byte for a duplicate and 92 bytes and the
    data for a primary account. *)
Theorem Serialize_bytes :
  forall p,
    snd (Serialize p)
    = LittleEndian_PutUint64 (u64 (len (Accounts p)))
      ++ flat_map record (Accounts p)
      ++ LittleEndian_PutUint64 (u64 (len (Params_Data p)))
      ++ Params_Data p ++ ProgramID p /\
    len (snd (Serialize p))
    = 8 + fold_right (fun acc n => record_size acc + n) 0 (Accounts p)
      + 8 + len (Params_Data p) + len (ProgramID p).
Proof.
  intros p. pose proof (Serialize_output p) as E.
  split; [exact E|]. rewrite E, !len_app, !len_PutUint64, len_flat_map_record. lia.
Qed.

(** X10. Serialize changes nothing in the params but the Padding field of the
    primary accounts: the instruction data, the program id, the number of
    accounts and every duplicate account stay as they are, and the primary
    account at index [i] gets
    [ReallocSpace + 1 + (buf.Len() - 1) / ReallocAlign] as its Padding,
    [buf.Len()] being the bytes written up to the end of its data. *)
Theorem Serialize_records_Padding :
  forall p,
    Params_Data (fst (Serialize p)) = Params_Data p /\
    ProgramID (fst (Serialize p)) = ProgramID p /\
    length (Accounts (fst (Serialize p))) = length (Accounts p) /\
    forall i acc, nth_error (Accounts p) i = Some acc ->
      nth_error (Accounts (fst (Serialize p))) i = Some (serialized (Accounts p) i acc).
Proof.
  intros p. rewrite Serialize_eq. cbn [fst Params_Data ProgramID Accounts].
  destruct (Serialize_accounts_spec (Accounts p)
              (LittleEndian_PutUint64 (u64 (len (Accounts p))))) as [_ [Hl Hn]].
  split; [reflexivity|]. split; [reflexivity|]. split; [exact Hl|].
  intros i acc H. rewrite (Hn i acc H). unfold serialized, recorded_Padding.
  rewrite len_PutUint64. reflexivity.
Qed.

Lemma Serialize_records_Padding_witness :
  nth_error (Accounts (fst (Serialize small_block))) 0
    = Some (serialized (Accounts small_block) 0 (primary0 0xFF 5)) /\
  Padding (serialized (Accounts small_block) 0 (primary0 0xFF 5)) = 10252.
Proof.
  split; [|reflexivity].
  apply (proj2 (proj2 (proj2 (Serialize_records_Padding small_block)))). reflexivity.
Defined.

Lemma Serialize_account_idem (buf : list Z) (acc : AccountParam) :
  Serialize_account buf (snd (Serialize_account buf acc)) = Serialize_account buf acc.
Proof.
  rewrite (Serialize_account_spec buf acc). cbn [snd].
  destruct (IsDuplicate acc) eqn:Hd.
  - rewrite Serialize_account_spec, Hd. reflexivity.
  - rewrite Serialize_account_spec. cbn [with_Padding IsDuplicate]. rewrite Hd.
    rewrite record_with_Padding. reflexivity.
Qed.

Lemma Serialize_accounts_idem (accs : list AccountParam) :
  forall buf,
    Serialize_accounts buf (snd (Serialize_accounts buf accs)) = Serialize_accounts buf accs.
Proof.
  induction accs as [|a accs IH]; intros buf; [reflexivity|].
  cbn [Serialize_accounts].
  pose proof (Serialize_account_idem buf a) as Ha.
  destruct (Serialize_account buf a) as [b1 a1]. cbn [snd] in Ha.
  specialize (IH b1).
  destruct (Serialize_accounts b1 accs) as [b2 r]. cbn [snd] in *.
  cbn [Serialize_accounts]. rewrite Ha, IH. reflexivity.
Qed.

(** X11. Serialize is idempotent: a second call on the params the first call
    left writes the same bytes and leaves the same params, so the Padding
    fields it records do not depend on the Padding fields it finds. *)
Theorem Serialize_idempotent :
  forall p, Serialize (fst (Serialize p)) = Serialize p.
Proof.
  intros p. rewrite (Serialize_eq p). cbn [fst].
  rewrite Serialize_eq. cbn [Accounts Params_Data ProgramID].
  destruct (Serialize_accounts_spec (Accounts p)
              (LittleEndian_PutUint64 (u64 (len (Accounts p))))) as [_ [Hl _]].
  assert (E : len (snd (Serialize_accounts (LittleEndian_PutUint64 (u64 (len (Accounts p))))
                          (Accounts p))) = len (Accounts p))
    by exact (f_equal Z.of_nat Hl).
  rewrite E, Serialize_accounts_idem. reflexivity.
Qed.

(** ** The reader *)

Lemma ReadByte_s (r r' : Reader) (o : option Z) :
  ReadByte r = (o, r') -> rd_s r' = rd_s r.
Proof.
  unfold ReadByte. destruct (rd_i r >=? len (rd_s r)); intros H; injection H as <- <-;
    reflexivity.
Qed.

Lemma ReadFull_s (r r' : Reader) (n : nat) (o : option (list Z)) :
  ReadFull r n = (o, r') -> rd_s r' = rd_s r.
Proof.
  unfold ReadFull. destruct (rd_i r >=? len (rd_s r)); [intros H; injection H as <- <-; reflexivity|].
  destruct (len (rd_s r) - rd_i r <? Z.of_nat n); intros H; injection H as <- <-; reflexivity.
Qed.

Lemma binary_Read_bool_s (r r' : Reader) (b b' : bool) :
  binary_Read_bool r b = (b', r') -> rd_s r' = rd_s r.
Proof.
  unfold binary_Read_bool. destruct (ReadFull r 1) as [[bs|] r0] eqn:E;
    intros H; injection H as <- <-; exact (ReadFull_s _ _ _ _ E).
Qed.

Lemma binary_Read_uint64_s (r r' : Reader) (v v' : Z) :
  binary_Read_uint64 r v = (v', r') -> rd_s r' = rd_s r.
Proof.
  unfold binary_Read_uint64. destruct (ReadFull r 8) as [[bs|] r0] eqn:E;
    intros H; injection H as <- <-; exact (ReadFull_s _ _ _ _ E).
Qed.

Lemma Seek_s (r : Reader) (offset : Z) : rd_s (Seek r offset) = rd_s r.
Proof. unfold Seek. destruct (rd_i r + offset <? 0); reflexivity. Qed.

Lemma Read_s (r r' : Reader) (b b' : list Z) (e : bool) :
  Read r b = (b', e, r') -> rd_s r' = rd_s r.
Proof.
  unfold Read. destruct (rd_i r >=? len (rd_s r)); intros H; injection H as <- <- <-;
    reflexivity.
Qed.

Lemma ReadAll_Limit_s (r r' : Reader) (n : Z) (d : list Z) :
  ReadAll_Limit r n = (d, r') -> rd_s r' = rd_s r.
Proof.
  unfold ReadAll_Limit. destruct ((n <=? 0) || (rd_i r >=? len (rd_s r)));
    intros H; injection H as <- <-; reflexivity.
Qed.

Lemma ReadAll_Limit_len (r r' : Reader) (n : Z) (d : list Z) :
  ReadAll_Limit r n = (d, r') -> len d <= Z.max 0 n.
Proof.
  unfold ReadAll_Limit. destruct (Z.leb_spec n 0) as [Hn|Hn]; cbn [orb].
  - intros H. injection H as <- <-. unfold len. cbn [length]. lia.
  - destruct (rd_i r >=? len (rd_s r)); intros H; injection H as <- <-.
    + unfold len. cbn [length]. lia.
    + unfold len. rewrite length_firstn. lia.
Qed.

(** ** Update *)

(** What the loop of Update keeps. *)
Lemma Update_loop_keeps (accs : list AccountParam) :
  forall buf,
    rd_s (snd (fst (Update_loop accs buf))) = rd_s buf /\
    Forall2 kept accs (fst (fst (Update_loop accs buf))).
Proof.
  assert (Hrefl : forall l, Forall2 kept l l).
  { induction l as [|a l IH]; constructor; [|exact IH]. repeat split. }
  induction accs as [|acc rest IH]; intros buf.
  - cbn [Update_loop fst snd]. split; [reflexivity|constructor].
  - cbn [Update_loop].
    destruct (ReadByte buf) as [[idx|] b0] eqn:E0.
    2:{ cbn [fst snd]. split; [exact (ReadByte_s _ _ _ E0)|apply Hrefl]. }
    pose proof (ReadByte_s _ _ _ E0) as S0.
    destruct ((negb (IsDuplicate acc) && negb (idx =? 255)) || negb (DuplicateIndex acc =? idx))
      eqn:Hc.
    { cbn [fst snd]. split; [exact S0|apply Hrefl]. }
    apply orb_false_iff in Hc. destruct Hc as [_ Hc]. apply negb_false_iff in Hc.
    apply Z.eqb_eq in Hc.
    destruct (negb (idx =? 255)) eqn:Hi.
    { specialize (IH b0). destruct (Update_loop rest b0) as [[rest' b1] e].
      cbn [fst snd] in *. destruct IH as [S1 F]. split; [congruence|].
      constructor; [repeat split|exact F]. }
    apply negb_false_iff in Hi. apply Z.eqb_eq in Hi.
    destruct (binary_Read_bool b0 (IsSigner acc)) as [isSigner b1] eqn:E1.
    destruct (binary_Read_bool b1 (IsWritable acc)) as [isWritable b2] eqn:E2.
    destruct (binary_Read_bool b2 (IsExecutable acc)) as [isExecutable b3] eqn:E3.
    destruct (Read (Seek b3 4) (Key acc)) as [[key ek] b4] eqn:E4.
    destruct (Read b4 (Owner acc)) as [[owner eo] b5] eqn:E5.
    destruct (binary_Read_uint64 b5 (Lamports acc)) as [lamports b6] eqn:E6.
    destruct (binary_Read_uint64 b6 0) as [newLen b7] eqn:E7.
    pose proof (binary_Read_bool_s _ _ _ _ E1) as S1.
    pose proof (binary_Read_bool_s _ _ _ _ E2) as S2.
    pose proof (binary_Read_bool_s _ _ _ _ E3) as S3.
    pose proof (Read_s _ _ _ _ _ E4) as S4. rewrite Seek_s in S4.
    pose proof (Read_s _ _ _ _ _ E5) as S5.
    pose proof (binary_Read_uint64_s _ _ _ _ E6) as S6.
    pose proof (binary_Read_uint64_s _ _ _ _ E7) as S7.
    assert (K : forall isS isW isE k o l d re,
              kept acc (mkAccountParam (IsDuplicate acc) (DuplicateIndex acc) isS isW isE
                          k o l d (Padding acc) re)).
    { intros. repeat split. cbn [DuplicateIndex]. intros Hne. exfalso. apply Hne. congruence. }
    destruct (newLen <? u64 (len (Data acc))).
    { cbn [fst snd]. split; [congruence|]. constructor; [apply K|apply Hrefl]. }
    destruct (newLen >? add64 (u64 (len (Data acc))) ReallocSpace).
    { cbn [fst snd]. split; [congruence|]. constructor; [apply K|apply Hrefl]. }
    destruct (ReadAll_Limit b7 (to_int64 newLen)) as [data b8] eqn:E8.
    pose proof (ReadAll_Limit_s _ _ _ _ E8) as S8.
    destruct (binary_Read_uint64
                (Seek b8 (to_int64 (Padding acc
                                    - to_int64 (u64 (newLen - u64 (len (Data acc)))))))
                (RentEpoch acc)) as [rentEpoch b9] eqn:E9.
    pose proof (binary_Read_uint64_s _ _ _ _ E9) as S9. rewrite Seek_s in S9.
    specialize (IH b9). destruct (Update_loop rest b9) as [[rest' b10] e].
    cbn [fst snd] in *. destruct IH as [S10 F]. split; [congruence|].
    constructor; [apply K|exact F].
Qed.

(** X12. Update never changes the number of the accounts, nor the IsDuplicate,
    DuplicateIndex and Padding field of any of them, nor the instruction
    data and the program id of the params, nor the bytes of the source;
    and an account whose DuplicateIndex field is not 0xFF is left as it
    is, whatever its IsDuplicate flag: the accounts Update writes are the
    ones whose DuplicateIndex is 0xFF. *)
Theorem Update_keeps :
  forall p buf,
    Params_Data (fst (fst (Update p buf))) = Params_Data p /\
    ProgramID (fst (fst (Update p buf))) = ProgramID p /\
    rd_s (snd (fst (Update p buf))) = rd_s buf /\
    Forall2 kept (Accounts p) (Accounts (fst (fst (Update p buf)))).
Proof.
  intros p buf. unfold Update.
  destruct (Update_loop_keeps (Accounts p) buf) as [S F].
  destruct (Update_loop (Accounts p) buf) as [[accs b] e]. cbn [fst snd] in *.
  repeat split; assumption.
Qed.

Lemma to_int64_le (z : Z) : 0 <= z -> to_int64 z <= z.
Proof.
  intros Hz. unfold to_int64.
  assert (H : (z + 2 ^ 63) mod 2 ^ 64 <= z + 2 ^ 63) by (apply Z.mod_le; lia). lia.
Qed.

Lemma Update_loop_growth (accs : list AccountParam) :
  Forall (fun a => len (Data a) < 2 ^ 63) accs ->
  forall buf,
    Forall2 (fun a a' => len (Data a') <= len (Data a) + ReallocSpace)
      accs (fst (fst (Update_loop accs buf))).
Proof.
  assert (Hrefl : forall l : list AccountParam,
            Forall2 (fun a a' => len (Data a') <= len (Data a) + ReallocSpace) l l).
  { induction l as [|a l IH]; constructor; [unfold ReallocSpace; lia|exact IH]. }
  induction accs as [|acc rest IH]; intros HF buf.
  - cbn [Update_loop fst]. constructor.
  - inversion HF as [|? ? Hacc Hrest]; subst. specialize (IH Hrest).
    cbn [Update_loop].
    destruct (ReadByte buf) as [[idx|] b0]; [|cbn [fst]; apply Hrefl].
    destruct ((negb (IsDuplicate acc) && negb (idx =? 255)) || negb (DuplicateIndex acc =? idx));
      [cbn [fst]; apply Hrefl|].
    destruct (negb (idx =? 255)).
    { specialize (IH b0). destruct (Update_loop rest b0) as [[rest' b1] e].
      cbn [fst] in *. constructor; [unfold ReallocSpace; lia|exact IH]. }
    destruct (binary_Read_bool b0 (IsSigner acc)) as [isSigner b1].
    destruct (binary_Read_bool b1 (IsWritable acc)) as [isWritable b2].
    destruct (binary_Read_bool b2 (IsExecutable acc)) as [isExecutable b3].
    destruct (Read (Seek b3 4) (Key acc)) as [[key ek] b4].
    destruct (Read b4 (Owner acc)) as [[owner eo] b5].
    destruct (binary_Read_uint64 b5 (Lamports acc)) as [lamports b6].
    destruct (binary_Read_uint64 b6 0) as [newLen b7].
    pose proof (len_nonneg (Data acc)) as Hn.
    rewrite (u64_small (len (Data acc))) by lia.
    rewrite add64_small by (unfold ReallocSpace; lia).
    destruct (Z.ltb_spec newLen (len (Data acc))) as [Hs|Hs].
    { cbn [fst]. constructor; [cbn [Data]; unfold ReallocSpace; lia|apply Hrefl]. }
    rewrite Z.gtb_ltb.
    destruct (Z.ltb_spec (len (Data acc) + ReallocSpace) newLen) as [Hg|Hg].
    { cbn [fst]. constructor; [cbn [Data]; unfold ReallocSpace; lia|apply Hrefl]. }
    destruct (ReadAll_Limit b7 (to_int64 newLen)) as [data b8] eqn:E8.
    pose proof (ReadAll_Limit_len _ _ _ _ E8) as Hd.
    pose proof (to_int64_le newLen ltac:(lia)) as Hi.
    destruct (binary_Read_uint64
                (Seek b8 (to_int64 (Padding acc - to_int64 (u64 (newLen - len (Data acc))))))
                (RentEpoch acc)) as [rentEpoch b9].
    specialize (IH b9). destruct (Update_loop rest b9) as [[rest' b10] e].
    cbn [fst] in *. constructor; [cbn [Data]; lia|exact IH].
Qed.

(** X13. Update never lets the data of an account grow by more than
    ReallocSpace bytes, whatever the source holds and whatever error it
    returns: after the call the data of every account is at most
    ReallocSpace bytes longer than before. *)
Theorem Update_growth_bounded :
  forall p buf,
    Forall (fun a => len (Data a) < 2 ^ 63) (Accounts p) ->
    Forall2 (fun a a' => len (Data a') <= len (Data a) + ReallocSpace)
      (Accounts p) (Accounts (fst (fst (Update p buf)))).
Proof.
  intros p buf HF. unfold Update.
  pose proof (Update_loop_growth (Accounts p) HF buf) as H.
  destruct (Update_loop (Accounts p) buf) as [[accs b] e]. exact H.
Qed.

Lemma Update_growth_bounded_witness :
  Forall2 (fun a a' => len (Data a') <= len (Data a) + ReallocSpace)
    (Accounts single_block)
    (Accounts (fst (fst (Update single_block (NewReader single_source))))).
Proof.
  apply (Update_growth_bounded single_block (NewReader single_source)).
  constructor; [vm_compute; reflexivity|constructor].
Defined.

(** One iteration that returns "account order changed". *)
Lemma Update_loop_order (acc : AccountParam) (rest : list AccountParam) (buf : Reader) :
  IsDuplicate acc = false -> rd_i buf < len (rd_s buf) ->
  get (rd_s buf) (Z.to_nat (rd_i buf)) <> 0xFF \/ DuplicateIndex acc <> 0xFF ->
  Update_loop (acc :: rest) buf
  = (acc :: rest, mkReader (rd_s buf) (rd_i buf + 1), ErrOrderChanged).
Proof.
  intros Hp Hb Hm. cbn [Update_loop]. unfold ReadByte.
  replace (rd_i buf >=? len (rd_s buf)) with false
    by (symmetry; rewrite Z.geb_leb; apply Z.leb_gt; exact Hb).
  rewrite Hp. cbn [negb andb].
  destruct (Z.eqb_spec (get (rd_s buf) (Z.to_nat (rd_i buf))) 255) as [E|Hne];
    cbn [negb orb]; [|reflexivity].
  rewrite E. destruct Hm as [Hm|Hm]; [contradiction|].
  destruct (Z.eqb_spec (DuplicateIndex acc) 255) as [E'|_]; [contradiction|reflexivity].
Qed.

Lemma u8_u64 (z : Z) : u8 (u64 z) = z mod 256.
Proof.
  unfold u8, u64. change (2 ^ 8) with 256.
  apply Z.mod_mod_divide. exists (2 ^ 56). reflexivity.
Qed.

(** X14. Update does not skip the 8-byte count that Serialize writes first: on
    the bytes of Serialize it reads the low byte of the count as the
    marker of account 0.  So for every block whose first account is a
    primary account, Update on the output of Serialize returns "account
    order changed" after one byte, with the params as Serialize left
    them, unless the number of accounts is 255 modulo 256 and the
    DuplicateIndex field of the account is 0xFF; for the block without
    accounts it returns "number of accounts changed" at once. *)
Theorem Update_after_Serialize :
  (forall p acc rest,
     Accounts p = acc :: rest -> IsDuplicate acc = false ->
     len (Accounts p) mod 256 <> 0xFF \/ DuplicateIndex acc <> 0xFF ->
     Update (fst (Serialize p)) (NewReader (snd (Serialize p)))
     = (fst (Serialize p), mkReader (snd (Serialize p)) 1, Some ErrOrderChanged)) /\
  (forall p,
     Accounts p = [] ->
     Update (fst (Serialize p)) (NewReader (snd (Serialize p)))
     = (fst (Serialize p), NewReader (snd (Serialize p)), Some ErrAccountsChanged)).
Proof.
  split.
  - intros p acc rest Ha Hp Hm.
    pose proof (Serialize_output p) as Hb.
    set (bytes := snd (Serialize p)) in *.
    rewrite Serialize_eq. cbn [fst]. rewrite Ha in *.
    cbn [Serialize_accounts]. rewrite Serialize_account_spec, Hp.
    destruct (Serialize_accounts _ rest) as [b rest']. cbn [snd].
    unfold Update. cbn [Accounts Params_Data ProgramID].
    rewrite Update_loop_order.
    + reflexivity.
    + exact Hp.
    + cbn [NewReader rd_i rd_s]. rewrite Hb.
      pose proof (len_nonneg (flat_map record (acc :: rest)
                   ++ LittleEndian_PutUint64 (u64 (len (Params_Data p)))
                   ++ Params_Data p ++ ProgramID p)) as Hn.
      rewrite len_app, len_PutUint64. lia.
    + cbn [NewReader rd_i rd_s with_Padding DuplicateIndex]. rewrite Hb.
      change (get (LittleEndian_PutUint64 (u64 (len (acc :: rest))) ++ _) (Z.to_nat 0))
        with (u8 (Z.shiftr (u64 (len (acc :: rest))) 0)).
      rewrite Z.shiftr_0_r, u8_u64. exact Hm.
  - intros p Ha. rewrite Serialize_eq. cbn [fst snd]. rewrite Ha.
    cbn [Serialize_accounts fst snd]. reflexivity.
Qed.

Lemma Update_after_Serialize_witness :
  Update (fst (Serialize small_block)) (NewReader (snd (Serialize small_block)))
  = (fst (Serialize small_block), mkReader (snd (Serialize small_block)) 1,
     Some ErrOrderChanged) /\
  Update (fst (Serialize empty_block)) (NewReader (snd (Serialize empty_block)))
  = (fst (Serialize empty_block), NewReader (snd (Serialize empty_block)),
     Some ErrAccountsChanged).
Proof.
  split.
  - apply (proj1 Update_after_Serialize small_block (primary0 0xFF 5) [dup0]);
      [reflexivity | reflexivity | left; vm_compute; discriminate].
  - apply (proj2 Update_after_Serialize empty_block). reflexivity.
Defined.

(** ** Update over the records it expects *)

Lemma LittleEndian_roundtrip (v : Z) (rest : list Z) :
  0 <= v < 2 ^ 64 -> LittleEndian_Uint64 (LittleEndian_PutUint64 v ++ rest) = v.
Proof.
  intros Hv. unfold LittleEndian_Uint64, LittleEndian_PutUint64.
  cbn [seq map app firstn fold_right]. unfold u8.
  change (8 * Z.of_nat 0) with 0. change (8 * Z.of_nat 1) with 8.
  change (8 * Z.of_nat 2) with 16. change (8 * Z.of_nat 3) with 24.
  change (8 * Z.of_nat 4) with 32. change (8 * Z.of_nat 5) with 40.
  change (8 * Z.of_nat 6) with 48. change (8 * Z.of_nat 7) with 56.
  rewrite !Z.shiftr_div_pow2 by lia.
  change (2 ^ 0) with 1. rewrite Z.div_1_r.
  replace (v / 2 ^ 16) with (v / 2 ^ 8 / 2 ^ 8) by (rewrite Z.div_div by lia; reflexivity).
  replace (v / 2 ^ 24) with (v / 2 ^ 8 / 2 ^ 8 / 2 ^ 8) by (rewrite !Z.div_div by lia; reflexivity).
  replace (v / 2 ^ 32) with (v / 2 ^ 8 / 2 ^ 8 / 2 ^ 8 / 2 ^ 8)
    by (rewrite !Z.div_div by lia; reflexivity).
  replace (v / 2 ^ 40) with (v / 2 ^ 8 / 2 ^ 8 / 2 ^ 8 / 2 ^ 8 / 2 ^ 8)
    by (rewrite !Z.div_div by lia; reflexivity).
  replace (v / 2 ^ 48) with (v / 2 ^ 8 / 2 ^ 8 / 2 ^ 8 / 2 ^ 8 / 2 ^ 8 / 2 ^ 8)
    by (rewrite !Z.div_div by lia; reflexivity).
  replace (v / 2 ^ 56) with (v / 2 ^ 8 / 2 ^ 8 / 2 ^ 8 / 2 ^ 8 / 2 ^ 8 / 2 ^ 8 / 2 ^ 8)
    by (rewrite !Z.div_div by lia; reflexivity).
  change (2 ^ 8) with 256. change (2 ^ 64) with 18446744073709551616 in Hv.
  set (q1 := v / 256). set (q2 := q1 / 256). set (q3 := q2 / 256). set (q4 := q3 / 256).
  set (q5 := q4 / 256). set (q6 := q5 / 256). set (q7 := q6 / 256).
  pose proof (Z.div_mod v 256 ltac:(lia)) as E0. fold q1 in E0.
  pose proof (Z.div_mod q1 256 ltac:(lia)) as E1. fold q2 in E1.
  pose proof (Z.div_mod q2 256 ltac:(lia)) as E2. fold q3 in E2.
  pose proof (Z.div_mod q3 256 ltac:(lia)) as E3. fold q4 in E3.
  pose proof (Z.div_mod q4 256 ltac:(lia)) as E4. fold q5 in E4.
  pose proof (Z.div_mod q5 256 ltac:(lia)) as E5. fold q6 in E5.
  pose proof (Z.div_mod q6 256 ltac:(lia)) as E6. fold q7 in E6.
  pose proof (Z.mod_pos_bound v 256 ltac:(lia)) as B0.
  pose proof (Z.mod_pos_bound q1 256 ltac:(lia)) as B1.
  pose proof (Z.mod_pos_bound q2 256 ltac:(lia)) as B2.
  pose proof (Z.mod_pos_bound q3 256 ltac:(lia)) as B3.
  pose proof (Z.mod_pos_bound q4 256 ltac:(lia)) as B4.
  pose proof (Z.mod_pos_bound q5 256 ltac:(lia)) as B5.
  pose proof (Z.mod_pos_bound q6 256 ltac:(lia)) as B6.
  assert (B7 : 0 <= q7 < 256).
  { clearbody q1 q2 q3 q4 q5 q6 q7. lia. }
  rewrite (Z.mod_small q7 256 B7).
  clearbody q1 q2 q3 q4 q5 q6 q7. lia.
Qed.

Lemma to_int64_small (z : Z) : - 2 ^ 63 <= z < 2 ^ 63 -> to_int64 z = z.
Proof. intros Hz. unfold to_int64. rewrite Z.mod_small by lia. lia. Qed.

(** *** The reader over a source known from the read position on *)

Lemma skipn_advance (s bs rest : list Z) (i : Z) :
  0 <= i -> skipn (Z.to_nat i) s = bs ++ rest ->
  skipn (Z.to_nat (i + len bs)) s = rest.
Proof.
  intros Hi H. unfold len. rewrite Z2Nat.inj_add, Nat2Z.id by lia.
  rewrite Nat.add_comm, <- skipn_skipn, H, skipn_app, skipn_all, Nat.sub_diag.
  reflexivity.
Qed.

Lemma unread_bound (s bs rest : list Z) (i : Z) :
  0 <= i -> skipn (Z.to_nat i) s = bs ++ rest -> bs <> [] ->
  len bs <= len s - i.
Proof.
  intros Hi H Hne. apply (f_equal (@length Z)) in H.
  rewrite length_skipn, length_app in H. unfold len.
  destruct bs as [|b bs]; [contradiction|]. cbn [length] in *. lia.
Qed.

Lemma ReadByte_at (s rest : list Z) (i c : Z) :
  0 <= i -> skipn (Z.to_nat i) s = c :: rest ->
  ReadByte (mkReader s i) = (Some c, mkReader s (i + 1)).
Proof.
  intros Hi H. pose proof (unread_bound s [c] rest i Hi H ltac:(discriminate)) as Hb.
  change (len [c]) with 1 in Hb.
  unfold ReadByte. cbn [rd_i rd_s].
  replace (i >=? len s) with false by (symmetry; rewrite Z.geb_leb; apply Z.leb_gt; lia).
  rewrite (skipn_get s (Z.to_nat i)) in H by (unfold len in Hb; lia).
  injection H as E _. rewrite E. reflexivity.
Qed.

Lemma ReadFull_at (s bs rest : list Z) (i : Z) (n : nat) :
  0 <= i -> skipn (Z.to_nat i) s = bs ++ rest -> length bs = n -> (0 < n)%nat ->
  ReadFull (mkReader s i) n = (Some bs, mkReader s (i + Z.of_nat n)).
Proof.
  intros Hi H Hl Hn.
  assert (Hne : bs <> []) by (intros ->; cbn in Hl; lia).
  pose proof (unread_bound s bs rest i Hi H Hne) as Hb. unfold len in Hb. rewrite Hl in Hb.
  unfold ReadFull, rd_rest. cbn [rd_i rd_s].
  replace (i >=? len s) with false
    by (symmetry; rewrite Z.geb_leb; apply Z.leb_gt; unfold len; lia).
  replace (len s - i <? Z.of_nat n) with false
    by (symmetry; apply Z.ltb_ge; unfold len; lia).
  rewrite H, <- Hl, firstn_app, firstn_all, Nat.sub_diag. cbn [firstn].
  rewrite app_nil_r. reflexivity.
Qed.

Lemma binary_Read_bool_at (s rest : list Z) (i : Z) (v b : bool) :
  0 <= i -> skipn (Z.to_nat i) s = byte_of_bool v :: rest ->
  binary_Read_bool (mkReader s i) b = (v, mkReader s (i + 1)).
Proof.
  intros Hi H. unfold binary_Read_bool.
  rewrite (ReadFull_at s [byte_of_bool v] rest i 1 Hi H eq_refl ltac:(lia)).
  destruct v; reflexivity.
Qed.

Lemma binary_Read_uint64_at (s rest : list Z) (i v v0 : Z) :
  0 <= i -> skipn (Z.to_nat i) s = LittleEndian_PutUint64 v ++ rest -> 0 <= v < 2 ^ 64 ->
  binary_Read_uint64 (mkReader s i) v0 = (v, mkReader s (i + 8)).
Proof.
  intros Hi H Hv. unfold binary_Read_uint64.
  rewrite (ReadFull_at s (LittleEndian_PutUint64 v) rest i 8 Hi H eq_refl ltac:(lia)).
  rewrite <- (app_nil_r (LittleEndian_PutUint64 v)), LittleEndian_roundtrip by exact Hv.
  reflexivity.
Qed.

Lemma Read_at (s bs rest b : list Z) (i : Z) :
  0 <= i -> skipn (Z.to_nat i) s = bs ++ rest -> length b = length bs -> bs <> [] ->
  Read (mkReader s i) b = (bs, false, mkReader s (i + len bs)).
Proof.
  intros Hi H Hl Hne. pose proof (unread_bound s bs rest i Hi H Hne) as Hb.
  assert (0 < len bs) by (destruct bs; [contradiction|unfold len; cbn [length]; lia]).
  unfold Read, rd_rest. cbn [rd_i rd_s].
  replace (i >=? len s) with false by (symmetry; rewrite Z.geb_leb; apply Z.leb_gt; lia).
  rewrite H, Hl, firstn_app, firstn_all, Nat.sub_diag. cbn [firstn].
  rewrite app_nil_r, <- Hl, skipn_all, app_nil_r. reflexivity.
Qed.

Lemma Seek_at (s : list Z) (i offset : Z) :
  0 <= i -> 0 <= offset -> Seek (mkReader s i) offset = mkReader s (i + offset).
Proof.
  intros Hi Ho. unfold Seek. cbn [rd_i rd_s].
  replace (i + offset <? 0) with false by (symmetry; apply Z.ltb_ge; lia). reflexivity.
Qed.

Lemma ReadAll_Limit_at (s bs rest : list Z) (i : Z) :
  0 <= i -> skipn (Z.to_nat i) s = bs ++ rest ->
  ReadAll_Limit (mkReader s i) (len bs) = (bs, mkReader s (i + len bs)).
Proof.
  intros Hi H. unfold ReadAll_Limit, rd_rest. cbn [rd_i rd_s].
  destruct bs as [|b bs].
  - change (len (@nil Z)) with 0. change (0 <=? 0) with true. cbn [orb].
    rewrite Z.add_0_r. reflexivity.
  - pose proof (unread_bound s (b :: bs) rest i Hi H ltac:(discriminate)) as Hb.
    assert (0 < len (b :: bs)) by (unfold len; cbn [length]; lia).
    replace (len (b :: bs) <=? 0) with false by (symmetry; apply Z.leb_gt; lia).
    replace (i >=? len s) with false by (symmetry; rewrite Z.geb_leb; apply Z.leb_gt; lia).
    cbn [orb]. rewrite H.
    assert (E : firstn (Z.to_nat (len (b :: bs))) ((b :: bs) ++ rest) = b :: bs).
    { unfold len. rewrite Nat2Z.id, firstn_app, firstn_all, Nat.sub_diag.
      cbn [firstn]. apply app_nil_r. }
    rewrite !E. reflexivity.
Qed.

Lemma skipn_advance1 (s rest : list Z) (i c : Z) :
  0 <= i -> skipn (Z.to_nat i) s = c :: rest -> skipn (Z.to_nat (i + 1)) s = rest.
Proof. intros Hi H. exact (skipn_advance s [c] rest i Hi H). Qed.

Lemma skipn_advance8 (s rest : list Z) (i v : Z) :
  0 <= i -> skipn (Z.to_nat i) s = LittleEndian_PutUint64 v ++ rest ->
  skipn (Z.to_nat (i + 8)) s = rest.
Proof. intros Hi H. exact (skipn_advance s (LittleEndian_PutUint64 v) rest i Hi H). Qed.

Lemma len_repeat (x : Z) (n : Z) : 0 <= n -> len (repeat x (Z.to_nat n)) = n.
Proof. intros Hn. unfold len. rewrite repeat_length. lia. Qed.

Lemma len_primary (pad : Z) (acc : AccountParam) :
  0 <= pad ->
  len (Layout.primary pad acc)
  = 1 + 1 + 1 + 1 + 4 + len (Key acc) + len (Owner acc) + 8 + 8 + len (Data acc) + pad + 8.
Proof.
  intros Hp. unfold Layout.primary. rewrite !len_app, !len_PutUint64, len_repeat by exact Hp.
  change (len (repeat 0 4)) with 4.
  change (len [255; byte_of_bool (IsSigner acc); byte_of_bool (IsWritable acc);
               byte_of_bool (IsExecutable acc)]) with 4.
  lia.
Qed.

(** One iteration of the loop of Update over the record of an account
    marked 0xFF. *)
Lemma Update_loop_primary (acc new : AccountParam) (rest : list AccountParam)
    (s tail : list Z) (i : Z) :
  DuplicateIndex acc = 0xFF -> readable acc new -> 0 <= i ->
  skipn (Z.to_nat i) s = source_record acc new ++ tail ->
  Update_loop (acc :: rest) (mkReader s i)
  = (let '(rest', b, e) :=
       Update_loop rest (mkReader s (i + len (source_record acc new))) in
     (updated acc new :: rest', b, e)).
Proof.
  intros Hm Hr Hi H. unfold readable, source_record, updated in *. rewrite Hm in *.
  change (255 =? 255) with true in *. cbv iota in Hr, H |- *.
  destruct Hr as [Ka [Oa [Kn [On [Hla [Hre [Hlen [Hn63 Hpad]]]]]]]].
  pose proof (len_nonneg (Data acc)) as Hd0. unfold ReallocSpace in Hlen.
  set (pad := Padding acc - (len (Data new) - len (Data acc))) in *.
  assert (Hp0 : 0 <= pad) by (unfold pad; lia).
  rewrite (len_primary pad new Hp0).
  unfold Layout.primary in H. rewrite <- !app_assoc in H. cbn [app] in H.
  assert (Hk : Key new <> []) by (intros E; rewrite E in Kn; discriminate).
  assert (Ho : Owner new <> []) by (intros E; rewrite E in On; discriminate).
  cbn [Update_loop].
  (* the marker *)
  rewrite (ReadByte_at s _ i 255 Hi H). cbv beta iota.
  pose proof (skipn_advance1 s _ i _ Hi H) as H1. clear H.
  rewrite Hm. change (255 =? 255) with true. cbn [negb]. rewrite andb_false_r.
  cbn [orb]. cbv iota.
  (* the flags *)
  rewrite (binary_Read_bool_at s _ (i + 1) (IsSigner new) _ ltac:(lia) H1). cbv beta iota.
  pose proof (skipn_advance1 s _ (i + 1) _ ltac:(lia) H1) as H2. clear H1.
  rewrite (binary_Read_bool_at s _ (i + 1 + 1) (IsWritable new) _ ltac:(lia) H2). cbv beta iota.
  pose proof (skipn_advance1 s _ (i + 1 + 1) _ ltac:(lia) H2) as H3. clear H2.
  rewrite (binary_Read_bool_at s _ (i + 1 + 1 + 1) (IsExecutable new) _ ltac:(lia) H3).
  cbv beta iota.
  pose proof (skipn_advance1 s _ (i + 1 + 1 + 1) _ ltac:(lia) H3) as H4. clear H3.
  (* the reserved bytes *)
  rewrite (Seek_at s (i + 1 + 1 + 1 + 1) 4 ltac:(lia) ltac:(lia)). cbv beta zeta.
  pose proof (skipn_advance s (repeat 0 4) _ (i + 1 + 1 + 1 + 1) ltac:(lia) H4) as H5.
  clear H4. change (len (repeat 0 4)) with 4 in H5.
  (* key and owner *)
  pose proof (len_nonneg (Key new)) as Hkn. pose proof (len_nonneg (Owner new)) as Hon.
  pose proof (len_nonneg (Data new)) as Hdn.
  set (p5 := i + 1 + 1 + 1 + 1 + 4) in *.
  assert (P5 : 0 <= p5) by (unfold p5; lia).
  rewrite (Read_at s (Key new) _ (Key acc) p5 P5 H5 ltac:(congruence) Hk).
  cbv beta iota.
  pose proof (skipn_advance s (Key new) _ p5 P5 H5) as H6. clear H5.
  set (p6 := p5 + len (Key new)) in *.
  assert (P6 : 0 <= p6) by (unfold p6; lia).
  rewrite (Read_at s (Owner new) _ (Owner acc) p6 P6 H6 ltac:(congruence) Ho).
  cbv beta iota.
  pose proof (skipn_advance s (Owner new) _ p6 P6 H6) as H7. clear H6.
  set (p7 := p6 + len (Owner new)) in *.
  assert (P7 : 0 <= p7) by (unfold p7; lia).
  (* lamports and the data length *)
  rewrite (binary_Read_uint64_at s _ p7 (Lamports new) _ P7 H7 Hla). cbv beta iota.
  pose proof (skipn_advance8 s _ p7 _ P7 H7) as H8. clear H7.
  rewrite (binary_Read_uint64_at s _ (p7 + 8) (len (Data new)) _ ltac:(lia) H8 ltac:(lia)).
  cbv beta iota.
  pose proof (skipn_advance8 s _ (p7 + 8) _ ltac:(lia) H8) as H9. clear H8.
  rewrite (u64_small (len (Data acc))) by lia.
  rewrite add64_small by (unfold ReallocSpace; lia).
  replace (len (Data new) <? len (Data acc)) with false by (symmetry; apply Z.ltb_ge; lia).
  rewrite Z.gtb_ltb.
  replace (len (Data acc) + ReallocSpace <? len (Data new)) with false
    by (symmetry; apply Z.ltb_ge; unfold ReallocSpace; lia).
  cbv iota.
  (* the data *)
  rewrite (to_int64_small (len (Data new))) by lia.
  rewrite (ReadAll_Limit_at s (Data new) _ (p7 + 8 + 8) ltac:(lia) H9). cbv beta iota.
  pose proof (skipn_advance s (Data new) _ (p7 + 8 + 8) ltac:(lia) H9) as H10. clear H9.
  (* the padding *)
  rewrite (u64_small (len (Data new) - len (Data acc))) by lia.
  rewrite (to_int64_small (len (Data new) - len (Data acc))) by lia.
  fold pad. rewrite (to_int64_small pad) by (unfold pad in *; lia).
  rewrite (Seek_at s (p7 + 8 + 8 + len (Data new)) pad ltac:(lia) Hp0). cbv beta zeta.
  pose proof (skipn_advance s (repeat 0 (Z.to_nat pad)) _ (p7 + 8 + 8 + len (Data new))
                ltac:(lia) H10) as H11.
  clear H10. rewrite (len_repeat 0 pad Hp0) in H11.
  (* the rent epoch *)
  rewrite (binary_Read_uint64_at s _ (p7 + 8 + 8 + len (Data new) + pad) (RentEpoch new) _
             ltac:(lia) H11 Hre).
  cbv beta iota.
  replace (i + (1 + 1 + 1 + 1 + 4 + len (Key new) + len (Owner new) + 8 + 8
                + len (Data new) + pad + 8))
    with (p7 + 8 + 8 + len (Data new) + pad + 8) by (unfold p7, p6, p5; lia).
  reflexivity.
Qed.

(** One iteration of the loop of Update over the index byte of a
    duplicate account. *)
Lemma Update_loop_duplicate (acc new : AccountParam) (rest : list AccountParam)
    (s tail : list Z) (i : Z) :
  DuplicateIndex acc <> 0xFF -> readable acc new -> 0 <= i ->
  skipn (Z.to_nat i) s = source_record acc new ++ tail ->
  Update_loop (acc :: rest) (mkReader s i)
  = (let '(rest', b, e) :=
       Update_loop rest (mkReader s (i + len (source_record acc new))) in
     (updated acc new :: rest', b, e)).
Proof.
  intros Hm Hr Hi H. unfold readable, source_record, updated in *.
  destruct (Z.eqb_spec (DuplicateIndex acc) 255) as [E|_]; [contradiction|].
  cbn [app] in H. cbn [Update_loop].
  rewrite (ReadByte_at s _ i _ Hi H). cbv beta iota.
  rewrite Hr, Z.eqb_refl. cbn [negb andb orb].
  destruct (Z.eqb_spec (DuplicateIndex acc) 255) as [E|_]; [contradiction|].
  cbn [negb]. cbv iota. reflexivity.
Qed.

Lemma Update_loop_records (accs news : list AccountParam) :
  Forall2 readable accs news ->
  forall s tail i,
    0 <= i -> skipn (Z.to_nat i) s = source_records accs news ++ tail ->
    Update_loop accs (mkReader s i)
    = (updated_all accs news, mkReader s (i + len (source_records accs news)),
       ErrAccountsChanged).
Proof.
  induction 1 as [|acc new accs news Hr HF IH]; intros s tail i Hi H.
  - cbn [Update_loop source_records updated_all]. change (len (@nil Z)) with 0.
    rewrite Z.add_0_r. reflexivity.
  - cbn [source_records updated_all] in *. rewrite <- app_assoc in H.
    assert (E : Update_loop (acc :: accs) (mkReader s i)
                = (let '(rest', b, e) :=
                     Update_loop accs (mkReader s (i + len (source_record acc new))) in
                   (updated acc new :: rest', b, e))).
    { destruct (Z.eq_dec (DuplicateIndex acc) 0xFF) as [Hm|Hm].
      - exact (Update_loop_primary acc new accs s _ i Hm Hr Hi H).
      - exact (Update_loop_duplicate acc new accs s _ i Hm Hr Hi H). }
    rewrite E.
    pose proof (len_nonneg (source_record acc new)) as Hn.
    rewrite (IH s tail (i + len (source_record acc new)) ltac:(lia)
               (skipn_advance s _ _ i Hi H)).
    rewrite len_app, Z.add_assoc. reflexivity.
Qed.

(** X15. On a source that holds, for each account in turn, the record the loop
    of Update reads (for an account whose DuplicateIndex is 0xFF a record
    in the documented layout of a primary account: marker, flags, 4
    reserved bytes, key, owner, lamports, data length, data, rent epoch,
    with Padding less the growth of the data as padding; for a duplicate
    account its index byte alone), Update replaces the flags, key, owner,
    lamports, data and rent epoch of the accounts marked 0xFF by those of
    the source, consumes exactly these records, and returns "number of
    accounts changed", whatever follows them. *)
Theorem Update_reads_records :
  forall accs news data programID tail,
    Forall2 readable accs news ->
    Update (mkParams accs data programID) (NewReader (source_records accs news ++ tail))
    = (mkParams (updated_all accs news) data programID,
       mkReader (source_records accs news ++ tail) (len (source_records accs news)),
       Some ErrAccountsChanged).
Proof.
  intros accs news data programID tail HF. unfold Update, NewReader.
  cbn [Accounts Params_Data ProgramID].
  rewrite (Update_loop_records accs news HF _ tail 0 ltac:(lia) eq_refl).
  reflexivity.
Qed.

Lemma Update_reads_records_witness :
  Update (mkParams [single; dup0] [5; 6] (repeat 3 32))
    (NewReader
       (source_records [single; dup0]
          [mkAccountParam false 0 false true true (repeat 4 32) (repeat 5 32) 6
             [9; 9; 9; 8] 0 11; dup0] ++ [1; 2; 3]))
  = (mkParams
       [mkAccountParam false 0xFF false true true (repeat 4 32) (repeat 5 32) 6
          [9; 9; 9; 8] 10252 11; dup0]
       [5; 6] (repeat 3 32),
     mkReader
       (source_records [single; dup0]
          [mkAccountParam false 0 false true true (repeat 4 32) (repeat 5 32) 6
             [9; 9; 9; 8] 0 11; dup0] ++ [1; 2; 3])
       10352,
     Some ErrAccountsChanged).
Proof.
  apply (Update_reads_records [single; dup0]
           [mkAccountParam false 0 false true true (repeat 4 32) (repeat 5 32) 6
              [9; 9; 9; 8] 0 11; dup0] [5; 6] (repeat 3 32) [1; 2; 3]).
  constructor; [|constructor; [reflexivity|constructor]].
  unfold readable. cbn [single DuplicateIndex]. change (255 =? 255) with true. cbv iota.
  repeat split; try reflexivity; vm_compute; discriminate.
Defined.

(** ** Update on an exhausted source *)

Lemma Update_loop_EOF (accs : list AccountParam) :
  forall buf accs' buf',
    Update_loop accs buf = (accs', buf', EOF) -> len (rd_s buf') <= rd_i buf'.
Proof.
  induction accs as [|acc rest IH]; intros buf accs' buf'; [discriminate|].
  cbn [Update_loop]. unfold ReadByte at 1.
  destruct (Z.geb_spec (rd_i buf) (len (rd_s buf))) as [Hge|Hlt].
  { intros H. injection H as _ <-. lia. }
  destruct ((negb (IsDuplicate acc) && negb (_ =? 255)) || negb (DuplicateIndex acc =? _));
    [discriminate|].
  destruct (negb (_ =? 255)).
  { destruct (Update_loop rest _) as [[rest' b1] e] eqn:E. intros H.
    injection H as _ <- ->. exact (IH _ _ _ E). }
  destruct (binary_Read_bool _ (IsSigner acc)) as [isSigner b1].
  destruct (binary_Read_bool b1 (IsWritable acc)) as [isWritable b2].
  destruct (binary_Read_bool b2 (IsExecutable acc)) as [isExecutable b3].
  destruct (Read (Seek b3 4) (Key acc)) as [[key ek] b4].
  destruct (Read b4 (Owner acc)) as [[owner eo] b5].
  destruct (binary_Read_uint64 b5 (Lamports acc)) as [lamports b6].
  destruct (binary_Read_uint64 b6 0) as [newLen b7].
  destruct (newLen <? u64 (len (Data acc))); [discriminate|].
  destruct (newLen >? add64 (u64 (len (Data acc))) ReallocSpace); [discriminate|].
  destruct (ReadAll_Limit b7 (to_int64 newLen)) as [data b8].
  destruct (binary_Read_uint64 _ (RentEpoch acc)) as [rentEpoch b9].
  destruct (Update_loop rest b9) as [[rest' b10] e] eqn:E. intros H.
  injection H as _ <- ->. exact (IH _ _ _ E).
Qed.

(** X16. On a source with no byte left Update returns io.EOF and leaves the
    params and the source as they are, when the params hold an account;
    and whenever Update returns io.EOF the source is exhausted: io.EOF
    comes from the read of the marker byte of an account only, a source
    that ends inside the record of an account is not reported by it. *)
Theorem Update_EOF :
  (forall p buf,
     Accounts p <> [] -> len (rd_s buf) <= rd_i buf ->
     Update p buf = (p, buf, Some EOF)) /\
  (forall p buf,
     snd (Update p buf) = Some EOF ->
     len (rd_s (snd (fst (Update p buf)))) <= rd_i (snd (fst (Update p buf)))).
Proof.
  split.
  - intros [accs data programID] buf Hne Hb. cbn [Accounts] in Hne.
    destruct accs as [|acc rest]; [contradiction|].
    unfold Update. cbn [Accounts Params_Data ProgramID Update_loop]. unfold ReadByte.
    replace (rd_i buf >=? len (rd_s buf)) with true
      by (symmetry; rewrite Z.geb_leb; apply Z.leb_le; exact Hb).
    reflexivity.
  - intros p buf. unfold Update.
    destruct (Update_loop (Accounts p) buf) as [[accs b] e] eqn:E. cbn [fst snd].
    intros H. injection H as ->. exact (Update_loop_EOF _ _ _ _ E).
Qed.

Lemma Update_EOF_witness :
  Update single_block (NewReader []) = (single_block, NewReader [], Some EOF) /\
  len (rd_s (snd (fst (Update (mkParams [dup0; dup0] [] []) (NewReader [0])))))
  <= rd_i (snd (fst (Update (mkParams [dup0; dup0] [] []) (NewReader [0])))).
Proof.
  split.
  - apply (proj1 Update_EOF single_block (NewReader [])); [discriminate|cbn; lia].
  - apply (proj2 Update_EOF (mkParams [dup0; dup0] [] []) (NewReader [0])). reflexivity.
Defined.

Import Sealevel Examples Wire.

(** * The order check at a primary account *)

(** The loop of Update over a list of accounts followed by more accounts:
    when the loop walks through the first list (its only way to "number
    of accounts changed"), it goes on with the second from where it
    stands; when it returns from inside the first list, the second is
    left as it is. *)
Lemma Update_loop_app (pre : list AccountParam) :
  forall buf suffix,
    Update_loop (pre ++ suffix) buf =
    match Update_loop pre buf with
    | (pre', buf', ErrAccountsChanged) =>
        let '(suffix', b, e) := Update_loop suffix buf' in (pre' ++ suffix', b, e)
    | (pre', buf', e) => (pre' ++ suffix, buf', e)
    end.
Proof.
  induction pre as [|acc rest IH]; intros buf suffix.
  - cbn [app Update_loop]. destruct (Update_loop suffix buf) as [[s' b] e]. reflexivity.
  - cbn [app Update_loop].
    destruct (ReadByte buf) as [[idx|] b0]; [|reflexivity].
    destruct ((negb (IsDuplicate acc) && negb (idx =? 255)) || negb (DuplicateIndex acc =? idx));
      [reflexivity|].
    destruct (negb (idx =? 255)).
    { rewrite IH. destruct (Update_loop rest b0) as [[r b] e].
      destruct e; try reflexivity.
      destruct (Update_loop suffix b) as [[s' b'] e']. reflexivity. }
    destruct (binary_Read_bool b0 (IsSigner acc)) as [isSigner b1].
    destruct (binary_Read_bool b1 (IsWritable acc)) as [isWritable b2].
    destruct (binary_Read_bool b2 (IsExecutable acc)) as [isExecutable b3].
    destruct (Read (Seek b3 4) (Key acc)) as [[key ek] b4].
    destruct (Read b4 (Owner acc)) as [[owner eo] b5].
    destruct (binary_Read_uint64 b5 (Lamports acc)) as [lamports b6].
    destruct (binary_Read_uint64 b6 0) as [newLen b7].
    destruct (newLen <? u64 (len (Data acc))); [reflexivity|].
    destruct (newLen >? add64 (u64 (len (Data acc))) ReallocSpace); [reflexivity|].
    destruct (ReadAll_Limit b7 (to_int64 newLen)) as [data b8].
    destruct (binary_Read_uint64 _ (RentEpoch acc)) as [rentEpoch b9].
    rewrite IH. destruct (Update_loop rest b9) as [[r b] e].
    destruct e; try reflexivity.
    destruct (Update_loop suffix b) as [[s' b'] e']. reflexivity.
Qed.

(** The loop at a primary account whose DuplicateIndex is not 0xFF: it
    returns there, with io.EOF when no byte is left and with "account
    order changed" otherwise. *)
Lemma Update_loop_blocked (acc : AccountParam) (rest : list AccountParam) (buf : Reader) :
  IsDuplicate acc = false -> DuplicateIndex acc <> 0xFF ->
  Update_loop (acc :: rest) buf
  = if rd_i buf >=? len (rd_s buf) then (acc :: rest, buf, EOF)
    else (acc :: rest, mkReader (rd_s buf) (rd_i buf + 1), ErrOrderChanged).
Proof.
  intros Hp Hd. destruct (Z.geb_spec (rd_i buf) (len (rd_s buf))) as [Hge|Hlt].
  - cbn [Update_loop]. unfold ReadByte.
    replace (rd_i buf >=? len (rd_s buf)) with true
      by (symmetry; rewrite Z.geb_leb; apply Z.leb_le; lia).
    reflexivity.
  - apply Update_loop_order; [exact Hp|exact Hlt|right; exact Hd].
Qed.

Lemma Update_loop_count (accs : list AccountParam) (buf : Reader) :
  length (fst (fst (Update_loop accs buf))) = length accs.
Proof.
  destruct (Update_loop_keeps accs buf) as [_ F]. symmetry.
  exact (Forall2_length F).
Qed.

(** C10, amended: whenever the loop of Update reaches a primary account
    whose DuplicateIndex field is not 0xFF, at any position of the block,
    the accounts before it having been walked, and the byte source has a
    byte left, Update returns "account order changed" at that account,
    whatever the marker byte read there is, the 0xFF that Serialize
    writes for a primary account included; the account and the accounts
    after it are left as they were.  For every source Update stops at
    such an account or before it: the account and those after it come
    back unchanged and the error is not "number of accounts changed".
    When the account is the first of the block this holds on any source
    with a byte left, and so on the bytes Serialize writes for the
    block. *)
Theorem C10_primary_marker :
  (forall pre acc rest data programID buf pre' buf',
     IsDuplicate acc = false -> DuplicateIndex acc <> 0xFF ->
     Update_loop pre buf = (pre', buf', ErrAccountsChanged) ->
     rd_i buf' < len (rd_s buf') ->
     Update (mkParams (pre ++ acc :: rest) data programID) buf
     = (mkParams (pre' ++ acc :: rest) data programID,
        mkReader (rd_s buf') (rd_i buf' + 1), Some ErrOrderChanged)) /\
  (forall pre acc rest data programID buf,
     IsDuplicate acc = false -> DuplicateIndex acc <> 0xFF ->
     exists pre' buf' e,
       Update (mkParams (pre ++ acc :: rest) data programID) buf
       = (mkParams (pre' ++ acc :: rest) data programID, buf', Some e) /\
       length pre' = length pre /\ e <> ErrAccountsChanged) /\
  (forall acc rest buf,
     IsDuplicate acc = false -> DuplicateIndex acc <> 0xFF ->
     rd_i buf < len (rd_s buf) ->
     Update_loop (acc :: rest) buf
       = (acc :: rest, mkReader (rd_s buf) (rd_i buf + 1), ErrOrderChanged) /\
     forall data programID,
       snd (Update (mkParams (acc :: rest) data programID) buf) = Some ErrOrderChanged) /\
  (forall p acc rest,
     Accounts p = acc :: rest ->
     IsDuplicate acc = false -> DuplicateIndex acc <> 0xFF ->
     Update (fst (Serialize p)) (NewReader (snd (Serialize p)))
     = (fst (Serialize p), mkReader (snd (Serialize p)) 1, Some ErrOrderChanged)).
Proof.
  split; [|split; [|split]].
  - intros pre acc rest data programID buf pre' buf' Hp Hd Hw Hb.
    unfold Update. cbn [Accounts Params_Data ProgramID].
    rewrite Update_loop_app, Hw, (Update_loop_blocked acc rest buf' Hp Hd).
    replace (rd_i buf' >=? len (rd_s buf')) with false
      by (symmetry; rewrite Z.geb_leb; apply Z.leb_gt; exact Hb).
    reflexivity.
  - intros pre acc rest data programID buf Hp Hd.
    unfold Update. cbn [Accounts Params_Data ProgramID].
    rewrite Update_loop_app. pose proof (Update_loop_count pre buf) as Hl.
    destruct (Update_loop pre buf) as [[pre' buf'] e]. cbn [fst] in Hl.
    destruct e.
    + exists pre', buf', EOF. repeat split; [exact Hl|discriminate].
    + rewrite (Update_loop_blocked acc rest buf' Hp Hd).
      destruct (rd_i buf' >=? len (rd_s buf')).
      * exists pre', buf', EOF. repeat split; [exact Hl|discriminate].
      * exists pre', (mkReader (rd_s buf') (rd_i buf' + 1)), ErrOrderChanged.
        repeat split; [exact Hl|discriminate].
    + exists pre', buf', ErrOrderChanged. repeat split; [exact Hl|discriminate].
    + exists pre', buf', ErrShrink. repeat split; [exact Hl|discriminate].
    + exists pre', buf', ErrGrow. repeat split; [exact Hl|discriminate].
  - intros acc rest buf Hp Hd Hb.
    assert (E : Update_loop (acc :: rest) buf
                = (acc :: rest, mkReader (rd_s buf) (rd_i buf + 1), ErrOrderChanged))
      by (apply Update_loop_order; [exact Hp|exact Hb|right; exact Hd]).
    split; [exact E|]. intros data programID. unfold Update.
    cbn [Accounts]. rewrite E. reflexivity.
  - intros p acc rest Ha Hp Hd.
    pose proof (Serialize_output p) as Hb.
    set (bytes := snd (Serialize p)) in *.
    rewrite Serialize_eq. cbn [fst]. rewrite Ha in *.
    cbn [Serialize_accounts]. rewrite Serialize_account_spec, Hp.
    destruct (Serialize_accounts _ rest) as [b rest']. cbn [snd].
    unfold Update. cbn [Accounts Params_Data ProgramID].
    rewrite Update_loop_order.
    + reflexivity.
    + exact Hp.
    + cbn [NewReader rd_i rd_s]. rewrite Hb.
      pose proof (len_nonneg (flat_map record (acc :: rest)
                   ++ LittleEndian_PutUint64 (u64 (len (Params_Data p)))
                   ++ Params_Data p ++ ProgramID p)) as Hn.
      rewrite len_app, len_PutUint64. lia.
    + right. exact Hd.
Qed.

Lemma C10_primary_marker_witness :
  Update (mkParams ([dup0] ++ primary0 0 0 :: [dup0]) [5; 6] (repeat 3 32))
    (NewReader [0; 0xFF; 0])
  = (mkParams ([dup0] ++ primary0 0 0 :: [dup0]) [5; 6] (repeat 3 32),
     mkReader [0; 0xFF; 0] 2, Some ErrOrderChanged) /\
  Update (fst (Serialize (mkParams [primary0 0 5; dup0] [5; 6] (repeat 3 32))))
    (NewReader (snd (Serialize (mkParams [primary0 0 5; dup0] [5; 6] (repeat 3 32)))))
  = (fst (Serialize (mkParams [primary0 0 5; dup0] [5; 6] (repeat 3 32))),
     mkReader (snd (Serialize (mkParams [primary0 0 5; dup0] [5; 6] (repeat 3 32)))) 1,
     Some ErrOrderChanged).
Proof.
  split.
  - apply (proj1 C10_primary_marker [dup0] (primary0 0 0) [dup0] [5; 6] (repeat 3 32)
             (NewReader [0; 0xFF; 0]) [dup0] (mkReader [0; 0xFF; 0] 1));
      [reflexivity | cbn; lia | reflexivity | cbn; lia].
  - apply (proj2 (proj2 (proj2 C10_primary_marker))
             (mkParams [primary0 0 5; dup0] [5; 6] (repeat 3 32)) (primary0 0 5) [dup0]);
      [reflexivity | reflexivity | cbn; lia].
Defined.

Import Sealevel Examples Wire Head.

(** * The checks of Update *)

(** X17. The order check: the marker byte read for an account must be the
    DuplicateIndex field of the account, and for a primary account that
    field must be 0xFF.  Otherwise Update returns "account order changed"
    after that byte; for the first account of the params nothing has been
    changed then. *)
Theorem Update_order_check :
  forall p acc rest buf,
    Accounts p = acc :: rest -> rd_i buf < len (rd_s buf) ->
    get (rd_s buf) (Z.to_nat (rd_i buf)) <> DuplicateIndex acc
    \/ (IsDuplicate acc = false /\ DuplicateIndex acc <> 0xFF) ->
    Update p buf = (p, mkReader (rd_s buf) (rd_i buf + 1), Some ErrOrderChanged).
Proof.
  intros [accs data programID] acc rest buf Ha Hb Hm. cbn [Accounts] in Ha. subst accs.
  unfold Update. cbn [Accounts Params_Data ProgramID Update_loop]. unfold ReadByte.
  replace (rd_i buf >=? len (rd_s buf)) with false
    by (symmetry; rewrite Z.geb_leb; apply Z.leb_gt; exact Hb).
  set (idx := get (rd_s buf) (Z.to_nat (rd_i buf))) in *.
  replace ((negb (IsDuplicate acc) && negb (idx =? 255)) || negb (DuplicateIndex acc =? idx))
    with true; [reflexivity|].
  symmetry. apply orb_true_iff.
  destruct (Z.eqb_spec (DuplicateIndex acc) idx) as [E|Hne]; [|right; reflexivity].
  left. destruct Hm as [Hm|[Hp Hd]]; [congruence|].
  rewrite Hp. cbn [negb andb]. apply negb_true_iff. apply Z.eqb_neq. congruence.
Qed.

Lemma Update_order_check_witness :
  Update (mkParams [dup0; dup0] [] []) (NewReader [1; 0])
  = (mkParams [dup0; dup0] [] [], mkReader [1; 0] 1, Some ErrOrderChanged).
Proof.
  apply (Update_order_check (mkParams [dup0; dup0] [] []) dup0 [dup0] (NewReader [1; 0]));
    [reflexivity | cbn; lia | left; cbn; lia].
Defined.

Lemma len_header (new : AccountParam) :
  len (header new) = 8 + len (Key new) + len (Owner new) + 8.
Proof.
  unfold header. rewrite !len_app, !len_PutUint64.
  change (len (repeat 0 4)) with 4.
  change (len [255; byte_of_bool (IsSigner new); byte_of_bool (IsWritable new);
               byte_of_bool (IsExecutable new)]) with 4.
  lia.
Qed.

(** One iteration of the loop of Update that stops at the length check. *)
Lemma Update_loop_length (acc new : AccountParam) (rest : list AccountParam)
    (s tail : list Z) (i newLen : Z) :
  DuplicateIndex acc = 0xFF ->
  length (Key acc) = 32%nat -> length (Owner acc) = 32%nat ->
  length (Key new) = 32%nat -> length (Owner new) = 32%nat ->
  0 <= Lamports new < 2 ^ 64 -> 0 <= newLen < 2 ^ 64 -> len (Data acc) < 2 ^ 63 ->
  newLen < len (Data acc) \/ len (Data acc) + ReallocSpace < newLen ->
  0 <= i ->
  skipn (Z.to_nat i) s = header new ++ LittleEndian_PutUint64 newLen ++ tail ->
  Update_loop (acc :: rest) (mkReader s i)
  = (header_updated acc new :: rest, mkReader s (i + len (header new) + 8),
     if newLen <? len (Data acc) then ErrShrink else ErrGrow).
Proof.
  intros Hm Ka Oa Kn On Hla Hnl Hd63 Hbad Hi H.
  pose proof (len_nonneg (Data acc)) as Hd0.
  rewrite len_header. unfold header in H. rewrite <- !app_assoc in H. cbn [app] in H.
  assert (Hk : Key new <> []) by (intros E; rewrite E in Kn; discriminate).
  assert (Ho : Owner new <> []) by (intros E; rewrite E in On; discriminate).
  pose proof (len_nonneg (Key new)) as Hkn. pose proof (len_nonneg (Owner new)) as Hon.
  cbn [Update_loop].
  rewrite (ReadByte_at s _ i 255 Hi H). cbv beta iota.
  pose proof (skipn_advance1 s _ i _ Hi H) as H1. clear H.
  rewrite Hm. change (255 =? 255) with true. cbn [negb]. rewrite andb_false_r.
  cbn [orb]. cbv iota.
  rewrite (binary_Read_bool_at s _ (i + 1) (IsSigner new) _ ltac:(lia) H1). cbv beta iota.
  pose proof (skipn_advance1 s _ (i + 1) _ ltac:(lia) H1) as H2. clear H1.
  rewrite (binary_Read_bool_at s _ (i + 1 + 1) (IsWritable new) _ ltac:(lia) H2). cbv beta iota.
  pose proof (skipn_advance1 s _ (i + 1 + 1) _ ltac:(lia) H2) as H3. clear H2.
  rewrite (binary_Read_bool_at s _ (i + 1 + 1 + 1) (IsExecutable new) _ ltac:(lia) H3).
  cbv beta iota.
  pose proof (skipn_advance1 s _ (i + 1 + 1 + 1) _ ltac:(lia) H3) as H4. clear H3.
  rewrite (Seek_at s (i + 1 + 1 + 1 + 1) 4 ltac:(lia) ltac:(lia)). cbv beta zeta.
  pose proof (skipn_advance s (repeat 0 4) _ (i + 1 + 1 + 1 + 1) ltac:(lia) H4) as H5.
  clear H4. change (len (repeat 0 4)) with 4 in H5.
  set (p5 := i + 1 + 1 + 1 + 1 + 4) in *.
  assert (P5 : 0 <= p5) by (unfold p5; lia).
  rewrite (Read_at s (Key new) _ (Key acc) p5 P5 H5 ltac:(congruence) Hk).
  cbv beta iota.
  pose proof (skipn_advance s (Key new) _ p5 P5 H5) as H6. clear H5.
  set (p6 := p5 + len (Key new)) in *.
  assert (P6 : 0 <= p6) by (unfold p6; lia).
  rewrite (Read_at s (Owner new) _ (Owner acc) p6 P6 H6 ltac:(congruence) Ho).
  cbv beta iota.
  pose proof (skipn_advance s (Owner new) _ p6 P6 H6) as H7. clear H6.
  set (p7 := p6 + len (Owner new)) in *.
  assert (P7 : 0 <= p7) by (unfold p7; lia).
  rewrite (binary_Read_uint64_at s _ p7 (Lamports new) _ P7 H7 Hla). cbv beta iota.
  pose proof (skipn_advance8 s _ p7 _ P7 H7) as H8. clear H7.
  rewrite (binary_Read_uint64_at s _ (p7 + 8) newLen _ ltac:(lia) H8 Hnl).
  cbv beta iota.
  rewrite (u64_small (len (Data acc))) by lia.
  rewrite add64_small by (unfold ReallocSpace; lia).
  replace (i + (8 + len (Key new) + len (Owner new) + 8) + 8) with (p7 + 8 + 8)
    by (unfold p7, p6, p5; lia).
  unfold header_updated. rewrite Hm.
  destruct (Z.ltb_spec newLen (len (Data acc))) as [Hs|Hs]; [reflexivity|].
  rewrite Z.gtb_ltb.
  replace (len (Data acc) + ReallocSpace <? newLen) with true
    by (symmetry; apply Z.ltb_lt; lia).
  reflexivity.
Qed.

(** X18. The length check: when the record of the first account, an account
    marked 0xFF, announces fewer data bytes than the account has, Update
    returns "attempted to shrink account", and when it announces more
    than ReallocSpace bytes above, "attempted to grow account too much";
    in both cases the flags, the key, the owner and the lamports of the
    account have been overwritten from the source by then, its data and
    its rent epoch are as before, and the source stands behind the data
    length. *)
Theorem Update_length_check :
  forall acc new rest data programID newLen tail,
    DuplicateIndex acc = 0xFF ->
    length (Key acc) = 32%nat -> length (Owner acc) = 32%nat ->
    length (Key new) = 32%nat -> length (Owner new) = 32%nat ->
    0 <= Lamports new < 2 ^ 64 -> 0 <= newLen < 2 ^ 64 -> len (Data acc) < 2 ^ 63 ->
    newLen < len (Data acc) \/ len (Data acc) + ReallocSpace < newLen ->
    Update (mkParams (acc :: rest) data programID)
      (NewReader (header new ++ LittleEndian_PutUint64 newLen ++ tail))
    = (mkParams (header_updated acc new :: rest) data programID,
       mkReader (header new ++ LittleEndian_PutUint64 newLen ++ tail) 88,
       Some (if newLen <? len (Data acc) then ErrShrink else ErrGrow)).
Proof.
  intros acc new rest data programID newLen tail Hm Ka Oa Kn On Hla Hnl Hd63 Hbad.
  unfold Update, NewReader. cbn [Accounts Params_Data ProgramID].
  rewrite (Update_loop_length acc new rest _ tail 0 newLen Hm Ka Oa Kn On Hla Hnl Hd63 Hbad
             ltac:(lia) eq_refl).
  rewrite len_header. unfold len. rewrite Kn, On. reflexivity.
Qed.

Lemma Update_length_check_witness :
  Update (mkParams [single] [5; 6] (repeat 3 32))
    (NewReader (header (primary0 0 9) ++ LittleEndian_PutUint64 2 ++ [1; 2]))
  = (mkParams [header_updated single (primary0 0 9)] [5; 6] (repeat 3 32),
     mkReader (header (primary0 0 9) ++ LittleEndian_PutUint64 2 ++ [1; 2]) 88,
     Some (if 2 <? len (Data single) then ErrShrink else ErrGrow)) /\
  (if 2 <? len (Data single) then ErrShrink else ErrGrow) = ErrShrink.
Proof.
  split; [|reflexivity].
  apply (Update_length_check single (primary0 0 9) [] [5; 6] (repeat 3 32) 2 [1; 2]);
    try reflexivity; try (vm_compute; split; [discriminate|reflexivity]).
  left. vm_compute. reflexivity.
Defined.

(** * The constant tables of the codec *)

Lemma table_digits_spec (R : Z) (t : list (list Z)) (n cols : nat) (i k : nat) :
  table_digits R t n cols = true -> (i < n)%nat -> (k < cols)%nat ->
  0 <= get2 t i k < R.
Proof.
  intros H Hi Hk. apply (forallb_seq _ n i) in H; [|exact Hi].
  apply (forallb_seq _ cols k) in H; [|exact Hk].
  apply andb_true_iff in H. destruct H as [H1 H2].
  apply Z.leb_le in H1. apply Z.ltb_lt in H2. lia.
Qed.

(** A row of a conversion table: digits of base [R] whose value is the
    power of [B] of the row, and the only such digits. *)
Lemma table_row_documented (R B : Z) (t : list (list Z)) (n cols : nat) (j : nat) :
  0 < R -> table_digits R t n cols = true -> table_rows R B t n cols = true ->
  (j < n)%nat ->
  (forall k, (k < cols)%nat -> 0 <= get2 t j k < R) /\
  evalf R (get2 t j) cols = B ^ Z.of_nat (n - 1 - j) /\
  forall f, (forall k, (k < cols)%nat -> 0 <= f k < R) ->
            evalf R f cols = B ^ Z.of_nat (n - 1 - j) ->
            forall k, (k < cols)%nat -> f k = get2 t j k.
Proof.
  intros HR Hd Hr Hj.
  assert (D : forall k, (k < cols)%nat -> 0 <= get2 t j k < R)
    by (intros k Hk; apply (table_digits_spec R t n cols j k Hd Hj Hk)).
  pose proof (table_rows_spec R B t n cols j Hr Hj) as E.
  split; [exact D|]. split; [exact E|].
  intros f Hf Ef. apply (evalf_inj R f (get2 t j) cols HR Hf D). congruence.
Qed.

Lemma encTable32_digits : table_digits r1Div encTable32 8 8 = true.
Proof. vm_compute. reflexivity. Qed.

Lemma decTable32_digits : table_digits (2 ^ 32) decTable32 9 8 = true.
Proof. vm_compute. reflexivity. Qed.

Lemma encTable64_digits : table_digits r1Div encTable64 16 17 = true.
Proof. vm_compute. reflexivity. Qed.

Lemma decTable64_digits : table_digits (2 ^ 32) decTable64 18 16 = true.
Proof. vm_compute. reflexivity. Qed.

(** X19. The conversion tables are what their comments say.  Row [j] of
    encTable32 holds the unique values less than 58^5 with
    [2^(32*(7-j)) = sum_k table[j][k]*58^(5*(7-k))], row [j] of decTable32
    the unique values less than 2^32 with
    [58^(5*(8-j)) = sum_k table[j][k]*2^(32*(7-k))]; the same for the 16
    rows of 17 entries of encTable64 and the 18 rows of 16 entries of
    decTable64; and r1Div is 58^5. *)
Theorem tables_as_documented :
  r1Div = 58 ^ 5 /\
  (forall j, (j < 8)%nat ->
     (forall k, (k < 8)%nat -> 0 <= get2 encTable32 j k < r1Div) /\
     evalf r1Div (get2 encTable32 j) 8 = (2 ^ 32) ^ Z.of_nat (8 - 1 - j) /\
     forall f, (forall k, (k < 8)%nat -> 0 <= f k < r1Div) ->
               evalf r1Div f 8 = (2 ^ 32) ^ Z.of_nat (8 - 1 - j) ->
               forall k, (k < 8)%nat -> f k = get2 encTable32 j k) /\
  (forall j, (j < 9)%nat ->
     (forall k, (k < 8)%nat -> 0 <= get2 decTable32 j k < 2 ^ 32) /\
     evalf (2 ^ 32) (get2 decTable32 j) 8 = r1Div ^ Z.of_nat (9 - 1 - j) /\
     forall f, (forall k, (k < 8)%nat -> 0 <= f k < 2 ^ 32) ->
               evalf (2 ^ 32) f 8 = r1Div ^ Z.of_nat (9 - 1 - j) ->
               forall k, (k < 8)%nat -> f k = get2 decTable32 j k) /\
  (forall j, (j < 16)%nat ->
     (forall k, (k < 17)%nat -> 0 <= get2 encTable64 j k < r1Div) /\
     evalf r1Div (get2 encTable64 j) 17 = (2 ^ 32) ^ Z.of_nat (16 - 1 - j) /\
     forall f, (forall k, (k < 17)%nat -> 0 <= f k < r1Div) ->
               evalf r1Div f 17 = (2 ^ 32) ^ Z.of_nat (16 - 1 - j) ->
               forall k, (k < 17)%nat -> f k = get2 encTable64 j k) /\
  (forall j, (j < 18)%nat ->
     (forall k, (k < 16)%nat -> 0 <= get2 decTable64 j k < 2 ^ 32) /\
     evalf (2 ^ 32) (get2 decTable64 j) 16 = r1Div ^ Z.of_nat (18 - 1 - j) /\
     forall f, (forall k, (k < 16)%nat -> 0 <= f k < 2 ^ 32) ->
               evalf (2 ^ 32) f 16 = r1Div ^ Z.of_nat (18 - 1 - j) ->
               forall k, (k < 16)%nat -> f k = get2 decTable64 j k).
Proof.
  split; [reflexivity|]. split; [|split; [|split]]; intros j Hj.
  - apply (table_row_documented r1Div (2 ^ 32) encTable32 8 8 j);
      [reflexivity | exact encTable32_digits | exact encTable32_rows | exact Hj].
  - apply (table_row_documented (2 ^ 32) r1Div decTable32 9 8 j);
      [reflexivity | exact decTable32_digits | exact decTable32_rows | exact Hj].
  - apply (table_row_documented r1Div (2 ^ 32) encTable64 16 17 j);
      [reflexivity | exact encTable64_digits | exact encTable64_rows | exact Hj].
  - apply (table_row_documented (2 ^ 32) r1Div decTable64 18 16 j);
      [reflexivity | exact decTable64_digits | exact decTable64_rows | exact Hj].
Qed.

Lemma tables_as_documented_witness :
  evalf r1Div (get2 encTable32 0) 8 = (2 ^ 32) ^ Z.of_nat (8 - 1 - 0) /\
  evalf (2 ^ 32) (get2 decTable64 17) 16 = r1Div ^ Z.of_nat (18 - 1 - 17).
Proof.
  split.
  - apply (proj1 (proj2 tables_as_documented) 0%nat). lia.
  - apply (proj2 (proj2 (proj2 (proj2 tables_as_documented))) 17%nat). lia.
Defined.

(** X20. inverseLUT is the inverse of alphabet: the entry of inverseLUT at
    (character - '1') is [d] for the character [alphabet[d]] of every digit
    [d] below 58; every entry of inverseLUT that is not invalidChar is such
    a digit, so every other byte from '1' on, the sentinel index included,
    maps to invalidChar. *)
Theorem inverseLUT_inverts_alphabet :
  (forall d, 0 <= d < 58 ->
     exists c, index alphabet d = Some c /\
               index inverseLUT (c - inverseLUTOffset) = Some d) /\
  (forall i v, index inverseLUT i = Some v -> v <> invalidChar ->
     0 <= v < 58 /\ index alphabet v = Some (i + inverseLUTOffset)) /\
  index inverseLUT inverseLUTSentinel = Some invalidChar /\
  length inverseLUT = Z.to_nat (inverseLUTSentinel + 1).
Proof.
  split; [|split; [|split; reflexivity]].
  - intros d Hd.
    assert (H : forallb (fun n =>
                  match index alphabet (Z.of_nat n) with
                  | Some c => match index inverseLUT (c - inverseLUTOffset) with
                              | Some v => v =? Z.of_nat n
                              | None => false
                              end
                  | None => false
                  end) (seq 0 58) = true) by (vm_compute; reflexivity).
    apply (forallb_seq _ 58 (Z.to_nat d)) in H; [|lia]. cbv beta in H.
    rewrite Z2Nat.id in H by lia.
    destruct (index alphabet d) as [c|]; [|discriminate]. exists c. split; [reflexivity|].
    destruct (index inverseLUT (c - inverseLUTOffset)) as [v|]; [|discriminate].
    apply Z.eqb_eq in H. rewrite H. reflexivity.
  - intros i v Hi Hv.
    assert (H : forallb (fun n =>
                  match index inverseLUT (Z.of_nat n) with
                  | Some v => (v =? invalidChar)
                              || ((0 <=? v) && (v <? 58)
                                  && match index alphabet v with
                                     | Some c => c =? Z.of_nat n + inverseLUTOffset
                                     | None => false
                                     end)
                  | None => false
                  end) (seq 0 75) = true) by (vm_compute; reflexivity).
    assert (Hr : 0 <= i < 75).
    { unfold index in Hi. destruct (Z.ltb_spec i 0) as [|Hge]; [discriminate|].
      split; [exact Hge|].
      assert (Hn : nth_error inverseLUT (Z.to_nat i) <> None) by congruence.
      apply nth_error_Some in Hn. change (length inverseLUT) with 75%nat in Hn. lia. }
    apply (forallb_seq _ 75 (Z.to_nat i)) in H; [|lia]. cbv beta in H.
    rewrite Z2Nat.id in H by lia.
    rewrite Hi in H. apply orb_true_iff in H. destruct H as [H|H].
    + apply Z.eqb_eq in H. contradiction.
    + apply andb_true_iff in H. destruct H as [H H3].
      apply andb_true_iff in H. destruct H as [H1 H2].
      apply Z.leb_le in H1. apply Z.ltb_lt in H2. split; [lia|].
      destruct (index alphabet v) as [c|]; [|discriminate].
      apply Z.eqb_eq in H3. rewrite H3. reflexivity.
Qed.

Lemma inverseLUT_inverts_alphabet_witness :
  (exists c, index alphabet 57 = Some c /\
             index inverseLUT (c - inverseLUTOffset) = Some 57) /\
  0 <= 9 < 58 /\ index alphabet 9 = Some (16 + inverseLUTOffset).
Proof.
  split.
  - apply (proj1 inverseLUT_inverts_alphabet 57). lia.
  - apply (proj1 (proj2 inverseLUT_inverts_alphabet) 16 9); [reflexivity|discriminate].
Defined.

(** * The tests of the package *)

Import Base58_test.

(** The model reproduces the vectors of the package: the tests
    TestEncode32, TestDecode32 and TestEncode64 run without a panic and
    without a call of [t.Errorf]. *)
Lemma tests_pass :
  TestEncode32 = Ret 0%nat /\ TestDecode32 = Ret 0%nat /\ TestEncode64 = Ret 0%nat.
Proof. repeat split; vm_compute; reflexivity. Qed.
